(** * NBT reader: a shallow embedding of [src/reader.cxx] and [src/nbt.h]

    The decoder reads a Named Binary Tag stream from an [InputStream] and
    builds a [RootTag].  Integers of the C++ source are modelled as [Z] with
    the wrap-around of their type written out ([cast]); the byte source is the
    memory-backed [MemoryInputStream]; exceptions are the [Throw] outcome of a
    small state-and-error monad over the stream; the storage the reader asks
    for with a size taken from the input is granted or refused by a [Host]. *)

From Stdlib Require Import String Ascii DecimalString.
From Stdlib.Strings Require Import Byte.
From Stdlib Require Import ZArith List Lia Bool Arith.
Import ListNotations.

Local Open Scope Z_scope.

(** ** Fixed-width integer types *)

Module CInt.

(** The integer types the reader instantiates its templates with. *)
Inductive ctype : Type :=
| uint8_t | uint16_t | uint32_t | uint64_t
| int8_t | int16_t | int32_t | int64_t.

Definition bits (t : ctype) : Z :=
  match t with
  | uint8_t | int8_t => 8
  | uint16_t | int16_t => 16
  | uint32_t | int32_t => 32
  | uint64_t | int64_t => 64
  end.

Definition is_signed (t : ctype) : bool :=
  match t with
  | int8_t | int16_t | int32_t | int64_t => true
  | _ => false
  end.

(** Conversion of a mathematical integer to type [t]: reduction modulo
    [2^bits], into the signed or the unsigned range.  Signed conversions and
    signed arithmetic are taken to wrap around, as they do on the
    two's-complement targets the library is built for. *)
Definition cast (t : ctype) (z : Z) : Z :=
  if is_signed t
  then (z + 2 ^ (bits t - 1)) mod 2 ^ bits t - 2 ^ (bits t - 1)
  else z mod 2 ^ bits t.

(** Integer promotion: a type narrower than [int] is promoted to [int]. *)
Definition promote (t : ctype) : ctype :=
  if bits t <? 32 then int32_t else t.

(** A binary and a unary operator evaluated in type [t]. *)
Definition arith (t : ctype) (f : Z -> Z -> Z) (a b : Z) : Z :=
  cast t (f (cast t a) (cast t b)).

Definition arith1 (t : ctype) (f : Z -> Z) (a : Z) : Z :=
  cast t (f (cast t a)).

Definition in_range (t : ctype) (z : Z) : Prop :=
  if is_signed t
  then - 2 ^ (bits t - 1) <= z < 2 ^ (bits t - 1)
  else 0 <= z < 2 ^ bits t.

End CInt.
Import CInt.

(** ** [twos_complement_decode] *)

(** [template<size_t size, typename RT, typename IT> RT twos_complement_decode(IT v)] *)
Definition twos_complement_decode (size : Z) (RT IT : ctype) (v : Z) : Z :=
  let P := promote IT in
  let sign_bit := cast IT (cast P (Z.shiftl (cast P (cast IT 1)) (size * 8 - 1))) in
  if negb (arith P Z.land v sign_bit =? 0) then
    let abs_value := cast IT (arith P Z.add (arith1 P Z.lnot v) 1) in
    let C := promote RT in
    cast RT (arith C Z.sub (arith1 C Z.opp (arith C Z.sub (cast RT abs_value) 1)) 1)
  else
    cast RT v.

(** The bitwise complement of a raw value of [width] bytes. *)
Definition bitwise_complement (width : Z) (raw : Z) : Z :=
  Z.lnot raw mod 2 ^ (width * 8).

(** ** Byte source *)

Definition byte_val (b : byte) : Z := Z.of_N (Byte.to_N b).

(** [class MemoryInputStream]: the buffer and the read position; [m_size] is
    the length of the buffer. *)
Record MemoryInputStream : Type := {
  m_data : list byte;
  m_position : nat
}.

Definition m_size (s : MemoryInputStream) : nat := length (m_data s).

Definition MemoryInputStream_new (data : list byte) : MemoryInputStream :=
  {| m_data := data; m_position := 0 |}.

(** Exceptions of the reader.  [length_error] and [bad_alloc] are what
    [std::vector] throws when it is refused storage; [out_of_range] stands
    for an access past the ends of the frame vector, which the C++ code does
    not check. *)
Inductive exn : Type :=
| PrematureEof
| IoError (message : string)
| logic_error (message : string)
| length_error
| bad_alloc
| out_of_range.

(** What a computation leaves behind: a value or an exception and, in both
    cases, the stream.  The caller holds the stream by reference, so after an
    exception it finds it at the position the last successful read left. *)
Inductive outcome (A : Type) : Type :=
| Ok (a : A) (s : MemoryInputStream)
| Throw (e : exn) (s : MemoryInputStream).
Arguments Ok {A} a s.
Arguments Throw {A} e s.

(** Computations over the stream that return or throw. *)
Definition M (A : Type) : Type := MemoryInputStream -> outcome A.

Definition ret {A} (a : A) : M A := fun s => Ok a s.
Definition throw {A} (e : exn) : M A := fun s => Throw e s.
Definition bind {A B} (m : M A) (f : A -> M B) : M B :=
  fun s => match m s with
           | Ok a s' => f a s'
           | Throw e s' => Throw e s'
           end.

Notation "x <- m ;; k" := (bind m (fun x => k))
  (at level 61, m at next level, right associativity).

(** [MemoryInputStream::read(data, size)] *)
Definition read (size : Z) : M (list byte) := fun s =>
  if Z.of_nat (m_size s - m_position s) <? size then Throw PrematureEof s
  else Ok (firstn (Z.to_nat size) (skipn (m_position s) (m_data s)))
          {| m_data := m_data s; m_position := m_position s + Z.to_nat size |}.

(** ** Storage

    [read_byte_array_tag] and [read_int_array_tag] size a vector by a 32-bit
    length read from the input, before any of the elements is read.  Whether
    that storage is there depends on the machine: [max_bytes] is the largest
    size in bytes a [std::vector] may have ([max_size()] times the element
    size) and [can_allocate n] tells whether a block of [n] bytes is granted,
    which is taken to depend on the size of the block alone.  The other
    storage the reader asks for is either of bounded size (a frame, a tag, a
    name of up to 65535 bytes) or grows with the input already read (vectors
    grown one element at a time) and is taken to be granted. *)
Class Host : Type := {
  max_bytes : Z;
  can_allocate : Z -> bool
}.

(** Storage for [n] elements of [size] bytes each, as [resize(n)] and
    [reserve(n)] obtain it on an empty vector: none for [n = 0],
    [std::length_error] beyond the largest vector, [std::bad_alloc] when the
    block is refused. *)
Definition allocate {host : Host} (n size : Z) : M unit := fun s =>
  if n =? 0 then Ok tt s
  else if max_bytes <? n * size then Throw length_error s
  else if can_allocate (n * size) then Ok tt s
  else Throw bad_alloc s.

(** ** Primitive codec *)

(** [read_big_endian_unsigned_int<T, size>] *)
Definition be_step (T : ctype) (n : Z) (d : byte) : Z :=
  cast T (arith (promote T) Z.lor (arith (promote T) Z.shiftl n 8) (cast T (byte_val d))).

Definition read_big_endian_unsigned_int (T : ctype) (size : Z) : M Z :=
  data <- read size ;;
  ret (fold_left (be_step T) data (cast T 0)).

(** ** Tag model ([src/nbt.h]) *)

(** [class Utf8String]: raw bytes, compared byte-wise. *)
Record Utf8String : Type := { data : list byte }.

Definition Utf8String_eq_dec (a b : Utf8String) : {a = b} + {a <> b}.
Proof.
  decide equality. apply (list_eq_dec Byte.byte_eq_dec).
Defined.

(** The classes that instantiate the template parameter [T] of [ListTag<T>]
    and of [ReadListTagState<T>]. *)
Inductive TagClass : Type :=
| T_Tag | T_ByteTag | T_ShortTag | T_IntTag | T_LongTag | T_FloatTag
| T_DoubleTag | T_ByteArrayTag | T_StringTag | T_CompoundTag | T_IntArrayTag.

#[local] Set Warnings "-register-all".

(** [class Tag] and its subclasses.  A float or double is kept as the bytes
    read into its object representation; a compound's [unordered_map] is an
    association list in insertion order, with at most one entry per key. *)
Inductive Tag : Type :=
| ByteTag (value : Z)
| ShortTag (value : Z)
| IntTag (value : Z)
| LongTag (value : Z)
| FloatTag (value : list byte)
| DoubleTag (value : list byte)
| ByteArrayTag (value : list byte)
| StringTag (value : Utf8String)
| ListTag (T : TagClass) (values : list Tag)
| CompoundTag (values : list (Utf8String * Tag))
| IntArrayTag (values : list Z).

(** [class RootTag]; [tag] is a [unique_ptr], null until a tag is stored. *)
Record RootTag : Type := {
  name : Utf8String;
  tag : option Tag
}.

(** [std::unordered_map::find] and [std::unordered_map::insert]: an insert
    under a key that is already present leaves the map as it is. *)
Fixpoint map_find {V} (k : Utf8String) (m : list (Utf8String * V)) : option V :=
  match m with
  | [] => None
  | (k', v) :: m' => if Utf8String_eq_dec k k' then Some v else map_find k m'
  end.

Definition map_insert {V} (k : Utf8String) (v : V) (m : list (Utf8String * V))
  : list (Utf8String * V) :=
  match map_find k m with
  | Some _ => m
  | None => m ++ [(k, v)]
  end.

(** [dynamic_cast<T *>(tag.get()) != nullptr] *)
Definition dynamic_cast (T : TagClass) (t : Tag) : bool :=
  match T, t with
  | T_Tag, _ => true
  | T_ByteTag, ByteTag _ => true
  | T_ShortTag, ShortTag _ => true
  | T_IntTag, IntTag _ => true
  | T_LongTag, LongTag _ => true
  | T_FloatTag, FloatTag _ => true
  | T_DoubleTag, DoubleTag _ => true
  | T_ByteArrayTag, ByteArrayTag _ => true
  | T_StringTag, StringTag _ => true
  | T_CompoundTag, CompoundTag _ => true
  | T_IntArrayTag, IntArrayTag _ => true
  | _, _ => false
  end.

(** ** Tag type ids *)

Definition TAG_TYPE_END : Z := 0.
Definition TAG_TYPE_BYTE : Z := 1.
Definition TAG_TYPE_SHORT : Z := 2.
Definition TAG_TYPE_INT : Z := 3.
Definition TAG_TYPE_LONG : Z := 4.
Definition TAG_TYPE_FLOAT : Z := 5.
Definition TAG_TYPE_DOUBLE : Z := 6.
Definition TAG_TYPE_BYTE_ARRAY : Z := 7.
Definition TAG_TYPE_STRING : Z := 8.
Definition TAG_TYPE_LIST : Z := 9.
Definition TAG_TYPE_COMPOUND : Z := 10.
Definition TAG_TYPE_INT_ARRAY : Z := 11.

(** [std::to_string] of a tag type id. *)
Definition to_string (z : Z) : string := NilZero.string_of_int (Z.to_int z).

Definition dquote : string := String (ascii_of_nat 34) EmptyString.

(** ** Payload readers *)

Section Reader.

Context {host : Host}.

(** [read_simple_payload<TagType, RawType, raw_type_size>]; [TagType] is given
    by its constructor and its [value_type]. *)
Definition read_simple_payload (TagType : Z -> Tag) (value_type RawType : ctype)
    (raw_type_size : Z) : M Tag :=
  encoded_value <- read_big_endian_unsigned_int RawType raw_type_size ;;
  ret (TagType (twos_complement_decode raw_type_size value_type RawType encoded_value)).

(** [read_byte_array_tag]: [tag.value.resize(length)] comes before the
    read. *)
Definition read_byte_array_tag : M Tag :=
  length <- read_big_endian_unsigned_int uint32_t 4 ;;
  resized <- allocate length 1 ;;
  value <- read length ;;
  ret (ByteArrayTag value).

(** The loop of [read_int_array_tag], [n] iterations left.  The source
    instantiates [twos_complement_decode<4, uint32_t, int32_t>], so [RT] is
    the unsigned and [IT] the signed type; argument and result are converted
    on the way in and out. *)
Fixpoint read_int_array_loop (n : nat) (values : list Z) : M (list Z) :=
  match n with
  | O => ret values
  | S n' =>
      encoded_int <- read_big_endian_unsigned_int uint32_t 4 ;;
      let decoded_int :=
        cast int32_t (twos_complement_decode 4 uint32_t int32_t (cast int32_t encoded_int)) in
      read_int_array_loop n' (values ++ [decoded_int])
  end.

(** [read_int_array_tag]: [tag.values.reserve(length)], for elements of four
    bytes, comes before the loop. *)
Definition read_int_array_tag : M Tag :=
  length <- read_big_endian_unsigned_int uint32_t 4 ;;
  reserved <- allocate length 4 ;;
  values <- read_int_array_loop (Z.to_nat length) [] ;;
  ret (IntArrayTag values).

(** [read_float_tag<FloatTagType>], [size] being [sizeof(tag.value)]. *)
Definition read_float_tag (FloatTagType : list byte -> Tag) (size : Z) : M Tag :=
  value <- read size ;;
  ret (FloatTagType value).

Definition read_string : M Utf8String :=
  string_length <- read_big_endian_unsigned_int uint16_t 2 ;;
  bytes <- read string_length ;;
  ret {| data := bytes |}.

Definition read_string_tag : M Tag :=
  value <- read_string ;;
  ret (StringTag value).

Definition read_simple_tag (tag_type : Z) : M Tag :=
  match tag_type with
  | 1 => read_simple_payload ByteTag int8_t uint8_t 1
  | 2 => read_simple_payload ShortTag int16_t uint16_t 2
  | 3 => read_simple_payload IntTag int32_t uint32_t 4
  | 4 => read_simple_payload LongTag int64_t uint64_t 8
  | 5 => read_float_tag FloatTag 4
  | 6 => read_float_tag DoubleTag 8
  | 7 => read_byte_array_tag
  | 8 => read_string_tag
  | 9 => throw (logic_error "read_simple_tag should not be called for TAG_TYPE_LIST.")
  | 10 => throw (logic_error "read_simple_tag should not be called for TAG_TYPE_COMPOUND.")
  | 11 => read_int_array_tag
  | _ => throw (IoError ("Unknown tag type in NBT: " ++ to_string tag_type))
  end.

(** ** The frame stack *)

(** [class TagReadState] and its three subclasses.  The root frame refers to
    the [RootTag] under construction, which is threaded beside the stack. *)
Inductive TagReadState : Type :=
| ReadRootTagState
| ReadCompoundTagState (m_tag : list (Utf8String * Tag)) (m_next_tag_name : Utf8String)
| ReadListTagState (T : TagClass) (m_type_id : Z) (m_list_tag : list Tag)
    (m_remaining_reads : Z).

(** [IoReadState]: the vector of frames, its back at the head of the list. *)
Definition IoReadState : Type := list TagReadState.

Definition Engine : Type := (IoReadState * RootTag)%type.

(** [ReadListTagState<T>::add_tag] on the frame's [m_list_tag]. *)
Definition list_add_tag (T : TagClass) (m_list_tag : list Tag) (t : Tag) : M (list Tag) :=
  if dynamic_cast T t
  then ret (m_list_tag ++ [t])
  else throw (logic_error
    "add_tag called on ReadListTagState with a tag of a type different than the list.").

(** The virtual [add_tag] of a frame. *)
Definition add_tag (frame : TagReadState) (t : Tag) (root_tag : RootTag)
  : M (TagReadState * RootTag) :=
  match frame with
  | ReadRootTagState =>
      ret (ReadRootTagState, {| name := name root_tag; tag := Some t |})
  | ReadCompoundTagState m_tag m_next_tag_name =>
      ret (ReadCompoundTagState (map_insert m_next_tag_name t m_tag) m_next_tag_name,
           root_tag)
  | ReadListTagState T m_type_id m_list_tag m_remaining_reads =>
      values <- list_add_tag T m_list_tag t ;;
      ret (ReadListTagState T m_type_id values m_remaining_reads, root_tag)
  end.

(** [TagReadState::finish_tag]: hand [t] to the frame below the top one,
    then pop the top frame. *)
Definition finish_tag (t : Tag) (e : Engine) : M Engine :=
  match fst e with
  | _ :: below :: rest =>
      r <- add_tag below t (snd e) ;;
      ret (fst r :: rest, snd r)
  | _ => throw out_of_range
  end.

Definition new_list_read_state (inner_tag_type : Z) (length : Z) : M TagReadState :=
  match inner_tag_type with
  | 0 => throw (IoError ("List tag had a tag type of " ++ dquote ++ "TAG_End" ++ dquote ++ "."))
  | 1 => ret (ReadListTagState T_ByteTag inner_tag_type [] length)
  | 2 => ret (ReadListTagState T_ShortTag inner_tag_type [] length)
  | 3 => ret (ReadListTagState T_IntTag inner_tag_type [] length)
  | 4 => ret (ReadListTagState T_LongTag inner_tag_type [] length)
  | 5 => ret (ReadListTagState T_FloatTag inner_tag_type [] length)
  | 6 => ret (ReadListTagState T_DoubleTag inner_tag_type [] length)
  | 7 => ret (ReadListTagState T_ByteArrayTag inner_tag_type [] length)
  | 8 => ret (ReadListTagState T_StringTag inner_tag_type [] length)
  | 9 => ret (ReadListTagState T_Tag inner_tag_type [] length)
  | 10 => ret (ReadListTagState T_CompoundTag inner_tag_type [] length)
  | 11 => ret (ReadListTagState T_IntArrayTag inner_tag_type [] length)
  | _ => throw (IoError ("Unknown tag type in NBT for list: " ++ to_string inner_tag_type))
  end.

Definition new_read_state_for (tag_type : Z) : M TagReadState :=
  if tag_type =? TAG_TYPE_COMPOUND then
    ret (ReadCompoundTagState [] {| data := [] |})
  else if tag_type =? TAG_TYPE_LIST then
    inner_tag_type <- read_big_endian_unsigned_int uint8_t 1 ;;
    length <- read_big_endian_unsigned_int uint32_t 4 ;;
    new_list_read_state inner_tag_type length
  else
    throw (logic_error
      "new_read_state_for should not be called except for tags of type TAG_TYPE_COMPOUND and TAG_TYPE_LIST.").

(** The inline pass of a list frame over simple elements: [n] iterations of
    [add_tag(read_simple_tag(s, m_type_id))] on the frame itself. *)
Fixpoint read_list_loop (n : nat) (T : TagClass) (m_type_id : Z)
    (m_list_tag : list Tag) : M (list Tag) :=
  match n with
  | O => ret m_list_tag
  | S n' =>
      t <- read_simple_tag m_type_id ;;
      values <- list_add_tag T m_list_tag t ;;
      read_list_loop n' T m_type_id values
  end.

(** The virtual [continue_read] of [frame], the frame on top of the stack
    [fst e]; a frame that changes is written back in place of the top. *)
Definition continue_read (frame : TagReadState) (e : Engine) : M Engine :=
  match frame with
  | ReadRootTagState =>
      ret (tl (fst e), snd e)
  | ReadCompoundTagState m_tag m_next_tag_name =>
      tag_type_id <- read_big_endian_unsigned_int uint8_t 1 ;;
      if tag_type_id =? TAG_TYPE_END then
        finish_tag (CompoundTag m_tag) e
      else
        next_name <- read_string ;;
        if (tag_type_id =? TAG_TYPE_COMPOUND) || (tag_type_id =? TAG_TYPE_LIST) then
          child <- new_read_state_for tag_type_id ;;
          ret (child :: ReadCompoundTagState m_tag next_name :: tl (fst e), snd e)
        else
          t <- read_simple_tag tag_type_id ;;
          ret (ReadCompoundTagState (map_insert next_name t m_tag) next_name :: tl (fst e),
               snd e)
  | ReadListTagState T m_type_id m_list_tag m_remaining_reads =>
      if (m_type_id =? TAG_TYPE_COMPOUND) || (m_type_id =? TAG_TYPE_LIST) then
        if m_remaining_reads =? 0 then
          finish_tag (ListTag T m_list_tag) e
        else
          child <- new_read_state_for m_type_id ;;
          ret (child :: ReadListTagState T m_type_id m_list_tag (m_remaining_reads - 1)
                 :: tl (fst e), snd e)
      else
        values <- read_list_loop (Z.to_nat m_remaining_reads) T m_type_id m_list_tag ;;
        finish_tag (ListTag T values) e
  end.

(** [process_read_state]: the drive loop, which runs the top frame until the
    stack is empty.  [fuel] bounds the number of iterations; [None] means the
    bound was reached. *)
Fixpoint process_read_state (fuel : nat) (e : Engine) (s : MemoryInputStream)
  : option (outcome RootTag) :=
  match fst e with
  | [] => Some (Ok (snd e) s)
  | top :: _ =>
      match fuel with
      | O => None
      | S fuel' =>
          match continue_read top e s with
          | Ok e' s' => process_read_state fuel' e' s'
          | Throw x s' => Some (Throw x s')
          end
      end
  end.

(** [read_nbt] *)
Definition read_nbt (fuel : nat) (s : MemoryInputStream) : option (outcome RootTag) :=
  match (tag_type_id <- read_big_endian_unsigned_int uint8_t 1 ;;
         root_name <- read_string ;;
         ret (tag_type_id, root_name)) s with
  | Throw x s' => Some (Throw x s')
  | Ok (tag_type_id, root_name) s1 =>
      let root_tag := {| name := root_name; tag := None |} in
      if (tag_type_id =? TAG_TYPE_LIST) || (tag_type_id =? TAG_TYPE_COMPOUND) then
        match new_read_state_for tag_type_id s1 with
        | Throw x s' => Some (Throw x s')
        | Ok frame s2 =>
            process_read_state fuel ([frame; ReadRootTagState], root_tag) s2
        end
      else Some (Ok root_tag s1)
  end.

End Reader.

(** ** Vocabulary for the statements *)

(** The bytes not yet read, and the stream after [n] more bytes are read. *)
Definition remaining (s : MemoryInputStream) : list byte :=
  skipn (m_position s) (m_data s).

Definition skip (n : nat) (s : MemoryInputStream) : MemoryInputStream :=
  {| m_data := m_data s; m_position := m_position s + n |}.

(** The number a byte sequence denotes, most significant byte first, and
    the two's-complement reading of an unsigned value of [width] bytes. *)
Definition be_value (l : list byte) : Z :=
  fold_left (fun n b => n * 256 + byte_val b) l 0.

Definition signed_value (width : Z) (u : Z) : Z :=
  if u <? 2 ^ (width * 8 - 1) then u else u - 2 ^ (width * 8).

Definition byte_of_Z (z : Z) : byte :=
  match Byte.of_N (Z.to_N z) with
  | Some b => b
  | None => x00
  end.

Definition stream_of (l : list Z) : MemoryInputStream :=
  MemoryInputStream_new (map byte_of_Z l).

(** The instantiations of [read_simple_payload] in [read_simple_tag]: tag
    type id, width in bytes, [value_type], [RawType] and tag constructor. *)
Definition simple_int_kinds : list (Z * Z * ctype * ctype * (Z -> Tag)) :=
  [ (TAG_TYPE_BYTE, 1, int8_t, uint8_t, ByteTag);
    (TAG_TYPE_SHORT, 2, int16_t, uint16_t, ShortTag);
    (TAG_TYPE_INT, 4, int32_t, uint32_t, IntTag);
    (TAG_TYPE_LONG, 8, int64_t, uint64_t, LongTag) ].

(** Congruence modulo [2^k], the relation every conversion preserves. *)
Definition eqmod (k : Z) (a b : Z) : Prop := a mod 2 ^ k = b mod 2 ^ k.

(** ** Induction over tags *)

Section TagInduction.

Variable P : Tag -> Prop.
Hypothesis HByte : forall v, P (ByteTag v).
Hypothesis HShort : forall v, P (ShortTag v).
Hypothesis HInt : forall v, P (IntTag v).
Hypothesis HLong : forall v, P (LongTag v).
Hypothesis HFloat : forall v, P (FloatTag v).
Hypothesis HDouble : forall v, P (DoubleTag v).
Hypothesis HByteArray : forall v, P (ByteArrayTag v).
Hypothesis HString : forall v, P (StringTag v).
Hypothesis HList : forall T vs, Forall P vs -> P (ListTag T vs).
Hypothesis HCompound : forall es, Forall (fun e => P (snd e)) es -> P (CompoundTag es).
Hypothesis HIntArray : forall vs, P (IntArrayTag vs).

(** Induction over tags that reaches the elements of lists and compounds. *)
Fixpoint Tag_nested_ind (t : Tag) : P t :=
  match t with
  | ByteTag v => HByte v
  | ShortTag v => HShort v
  | IntTag v => HInt v
  | LongTag v => HLong v
  | FloatTag v => HFloat v
  | DoubleTag v => HDouble v
  | ByteArrayTag v => HByteArray v
  | StringTag v => HString v
  | ListTag T vs =>
      HList T vs
        ((fix go (l : list Tag) : Forall P l :=
            match l with
            | [] => Forall_nil P
            | v :: l' => Forall_cons v (Tag_nested_ind v) (go l')
            end) vs)
  | CompoundTag es =>
      HCompound es
        ((fix go (l : list (Utf8String * Tag)) : Forall (fun e => P (snd e)) l :=
            match l with
            | [] => Forall_nil _
            | e :: l' => Forall_cons e (Tag_nested_ind (snd e)) (go l')
            end) es)
  | IntArrayTag vs => HIntArray vs
  end.

End TagInduction.

(** ** The wire format

    The encoding of section 6 of the specification, used to state what the
    reader reproduces.  Integers are big-endian two's complement; a float or
    double is its bytes as they stand; a list names its element kind by the
    class of its elements; a compound writes its entries in order and ends
    with an End byte. *)

Fixpoint encode_be (width : nat) (z : Z) : list byte :=
  match width with
  | O => []
  | S w => encode_be w (z / 256) ++ [byte_of_Z (z mod 256)]
  end.

Definition encode_string (str : Utf8String) : list byte :=
  encode_be 2 (Z.of_nat (length (data str))) ++ data str.

Definition kind_of_class (T : TagClass) : Z :=
  match T with
  | T_Tag => TAG_TYPE_LIST
  | T_ByteTag => TAG_TYPE_BYTE
  | T_ShortTag => TAG_TYPE_SHORT
  | T_IntTag => TAG_TYPE_INT
  | T_LongTag => TAG_TYPE_LONG
  | T_FloatTag => TAG_TYPE_FLOAT
  | T_DoubleTag => TAG_TYPE_DOUBLE
  | T_ByteArrayTag => TAG_TYPE_BYTE_ARRAY
  | T_StringTag => TAG_TYPE_STRING
  | T_CompoundTag => TAG_TYPE_COMPOUND
  | T_IntArrayTag => TAG_TYPE_INT_ARRAY
  end.

Definition kind_of (t : Tag) : Z :=
  match t with
  | ByteTag _ => TAG_TYPE_BYTE
  | ShortTag _ => TAG_TYPE_SHORT
  | IntTag _ => TAG_TYPE_INT
  | LongTag _ => TAG_TYPE_LONG
  | FloatTag _ => TAG_TYPE_FLOAT
  | DoubleTag _ => TAG_TYPE_DOUBLE
  | ByteArrayTag _ => TAG_TYPE_BYTE_ARRAY
  | StringTag _ => TAG_TYPE_STRING
  | ListTag _ _ => TAG_TYPE_LIST
  | CompoundTag _ => TAG_TYPE_COMPOUND
  | IntArrayTag _ => TAG_TYPE_INT_ARRAY
  end.

Definition is_container (t : Tag) : bool :=
  match t with
  | ListTag _ _ | CompoundTag _ => true
  | _ => false
  end.

Fixpoint encode_payload (t : Tag) : list byte :=
  match t with
  | ByteTag v => encode_be 1 v
  | ShortTag v => encode_be 2 v
  | IntTag v => encode_be 4 v
  | LongTag v => encode_be 8 v
  | FloatTag raw => raw
  | DoubleTag raw => raw
  | ByteArrayTag v => encode_be 4 (Z.of_nat (length v)) ++ v
  | StringTag v => encode_string v
  | ListTag T vs =>
      encode_be 1 (kind_of_class T) ++ encode_be 4 (Z.of_nat (length vs))
      ++ concat (map encode_payload vs)
  | CompoundTag es =>
      concat (map (fun e : Utf8String * Tag =>
                     let (n, v) := e in
                     encode_be 1 (kind_of v) ++ encode_string n ++ encode_payload v) es)
      ++ encode_be 1 TAG_TYPE_END
  | IntArrayTag vs =>
      encode_be 4 (Z.of_nat (length vs)) ++ concat (map (encode_be 4) vs)
  end.

Definition encode_entry (e : Utf8String * Tag) : list byte :=
  encode_be 1 (kind_of (snd e)) ++ encode_string (fst e) ++ encode_payload (snd e).

(** [Stream := kind name Payload(kind)] *)
Definition encode_stream (root_name : Utf8String) (t : Tag) : list byte :=
  encode_be 1 (kind_of t) ++ encode_string root_name ++ encode_payload t.

(** An element of a [ListTag<T>] is of the list's element kind: of class [T],
    and a list itself where [T] is [Tag]. *)
Definition elem_of_class (T : TagClass) (t : Tag) : Prop :=
  kind_of t = kind_of_class T.

(** Values the wire format can carry: numbers in the range of their kind,
    floats of their size, lengths that fit their length fields, lists whose
    elements are of the element kind, compounds with distinct names. *)
Fixpoint well_formed (t : Tag) : Prop :=
  match t with
  | ByteTag v => in_range int8_t v
  | ShortTag v => in_range int16_t v
  | IntTag v => in_range int32_t v
  | LongTag v => in_range int64_t v
  | FloatTag raw => length raw = 4%nat
  | DoubleTag raw => length raw = 8%nat
  | ByteArrayTag v => Z.of_nat (length v) < 2 ^ 32
  | StringTag v => Z.of_nat (length (data v)) < 2 ^ 16
  | ListTag T vs =>
      Z.of_nat (length vs) < 2 ^ 32
      /\ (fix all (l : list Tag) : Prop :=
            match l with
            | [] => True
            | v :: l' => (elem_of_class T v /\ well_formed v) /\ all l'
            end) vs
  | CompoundTag es =>
      NoDup (map fst es)
      /\ (fix all (l : list (Utf8String * Tag)) : Prop :=
            match l with
            | [] => True
            | e :: l' =>
                (Z.of_nat (length (data (fst e))) < 2 ^ 16 /\ well_formed (snd e)) /\ all l'
            end) es
  | IntArrayTag vs =>
      Z.of_nat (length vs) < 2 ^ 32 /\ Forall (in_range int32_t) vs
  end.

Section Vocabulary.

Context {host : Host}.

(** [grants n size]: the host has storage for [n] elements of [size] bytes,
    so that [allocate n size] returns. *)
Definition grants (n size : Z) : bool :=
  (n =? 0) || (negb (max_bytes <? n * size) && can_allocate (n * size)).

(** The host has storage for every byte array and every int array in the
    tree, each taken on its own. *)
Fixpoint allocatable (t : Tag) : Prop :=
  match t with
  | ByteArrayTag v => grants (Z.of_nat (length v)) 1 = true
  | IntArrayTag vs => grants (Z.of_nat (length vs)) 4 = true
  | ListTag _ vs =>
      (fix all (l : list Tag) : Prop :=
         match l with
         | [] => True
         | v :: l' => allocatable v /\ all l'
         end) vs
  | CompoundTag es =>
      (fix all (l : list (Utf8String * Tag)) : Prop :=
         match l with
         | [] => True
         | e :: l' => allocatable (snd e) /\ all l'
         end) es
  | _ => True
  end.

(** What the reader can decode on this host: a well-formed value whose
    arrays the host has storage for. *)
Definition decodable (t : Tag) : Prop := well_formed t /\ allocatable t.

(** [steps n e s e' s']: [n] iterations of the drive loop's body lead from
    the frame stack [e] at stream [s] to [e'] at [s'], none of them throwing. *)
Inductive steps : nat -> Engine -> MemoryInputStream -> Engine -> MemoryInputStream -> Prop :=
| steps_O (e : Engine) (s : MemoryInputStream) : steps 0 e s e s
| steps_S (n : nat) (top : TagReadState) (rest : IoReadState) (root_tag : RootTag)
    (s : MemoryInputStream) (e1 : Engine) (s1 : MemoryInputStream)
    (e2 : Engine) (s2 : MemoryInputStream) :
    continue_read top (top :: rest, root_tag) s = Ok e1 s1 ->
    steps n e1 s1 e2 s2 ->
    steps (S n) (top :: rest, root_tag) s e2 s2.

(** The mapping a compound frame builds from a sequence of entries. *)
Definition insert_all (es : list (Utf8String * Tag)) (acc : list (Utf8String * Tag))
  : list (Utf8String * Tag) :=
  fold_left (fun m e => map_insert (fst e) (snd e) m) es acc.

(** [delivers t]: once the frame for the container [t] is created at the
    start of [t]'s payload and pushed above a frame [parent], the drive loop
    consumes exactly the payload, hands [t] to [parent] through [add_tag] and
    pops the frame. *)
Definition delivers (t : Tag) : Prop :=
  forall (s : MemoryInputStream) (tail : list byte) (parent : TagReadState)
         (stk : IoReadState) (root_tag : RootTag)
         (parent' : TagReadState) (root_tag' : RootTag),
    remaining s = encode_payload t ++ tail ->
    (forall s0, add_tag parent t root_tag s0 = Ok (parent', root_tag') s0) ->
    exists (frame : TagReadState) (s1 : MemoryInputStream) (n : nat),
      new_read_state_for (kind_of t) s = Ok frame s1
      /\ steps n (frame :: parent :: stk, root_tag) s1
               (parent' :: stk, root_tag') (skip (length (encode_payload t)) s).

(** [consumes m lo]: whenever [m] returns, it has read at least [lo] bytes. *)
Definition consumes {A} (m : M A) (lo : nat) : Prop :=
  forall s a s', m s = Ok a s' ->
    (length (remaining s') + lo <= length (remaining s))%nat.

(** The measure that every iteration of the drive loop decreases: four per
    unread byte, two per frame, and three more unless a compound frame is on
    top. *)
Definition top_weight (stk : IoReadState) : nat :=
  match stk with
  | ReadCompoundTagState _ _ :: _ => 0
  | _ => 3
  end.

Definition potential (e : Engine) (s : MemoryInputStream) : nat :=
  4 * length (remaining s) + 2 * length (fst e) + top_weight (fst e).

(** Iterations of the drive loop that suffice for [read_nbt] on [s]. *)
Definition fuel_bound (s : MemoryInputStream) : nat :=
  4 * length (remaining s) + 8.

(** [reproduces root_name t]: reading the encoding of [t] under the root
    name [root_name] returns exactly that name and that tag. *)
Definition reproduces (root_name : Utf8String) (t : Tag) : Prop :=
  forall fuel,
    (fuel_bound (MemoryInputStream_new (encode_stream root_name t)) <= fuel)%nat ->
    exists s',
      read_nbt fuel (MemoryInputStream_new (encode_stream root_name t))
      = Some (Ok {| name := root_name; tag := Some t |} s').

(** The messages of the two [IoError]s the reader raises for a bad kind id,
    and of the one it raises for a list of End tags. *)
Definition unknown_tag_kind (id : Z) : exn :=
  IoError ("Unknown tag type in NBT: " ++ to_string id).

Definition unknown_list_tag_kind (id : Z) : exn :=
  IoError ("Unknown tag type in NBT for list: " ++ to_string id).

Definition invalid_list_element_kind : exn :=
  IoError ("List tag had a tag type of " ++ dquote ++ "TAG_End" ++ dquote ++ ".").

(** The [logic_error] of [ReadListTagState::add_tag]. *)
Definition list_type_mismatch : exn :=
  logic_error
    "add_tag called on ReadListTagState with a tag of a type different than the list.".

(** ** Homogeneous lists *)

(** Every list in the tree holds only elements of its element kind. *)
Fixpoint homogeneous (t : Tag) : Prop :=
  match t with
  | ListTag T vs =>
      (fix all (l : list Tag) : Prop :=
         match l with
         | [] => True
         | v :: l' => (elem_of_class T v /\ homogeneous v) /\ all l'
         end) vs
  | CompoundTag es =>
      (fix all (l : list (Utf8String * Tag)) : Prop :=
         match l with
         | [] => True
         | e :: l' => homogeneous (snd e) /\ all l'
         end) es
  | _ => True
  end.

(** The kind of the tag a frame hands to the frame beneath it. *)
Definition frame_kind (f : TagReadState) : Z :=
  match f with
  | ReadRootTagState => -1
  | ReadCompoundTagState _ _ => TAG_TYPE_COMPOUND
  | ReadListTagState _ _ _ _ => TAG_TYPE_LIST
  end.

(** The invariant of a frame: what it has collected is homogeneous, and a
    list frame's element class is the class of its type id. *)
Definition frame_ok (f : TagReadState) : Prop :=
  match f with
  | ReadRootTagState => True
  | ReadCompoundTagState m_tag _ => Forall (fun e => homogeneous (snd e)) m_tag
  | ReadListTagState T m_type_id m_list_tag _ =>
      m_type_id = kind_of_class T
      /\ Forall (fun v => elem_of_class T v /\ homogeneous v) m_list_tag
  end.

(** A list frame has above it only a frame that will hand it an element of
    its kind. *)
Definition accepts (parent child : TagReadState) : Prop :=
  match parent with
  | ReadListTagState _ m_type_id _ _ => frame_kind child = m_type_id
  | _ => True
  end.

Fixpoint stack_ok (stk : IoReadState) : Prop :=
  match stk with
  | [] => True
  | child :: rest =>
      frame_ok child
      /\ match rest with
         | parent :: _ => accepts parent child
         | [] => True
         end
      /\ stack_ok rest
  end.

Definition root_ok (root_tag : RootTag) : Prop :=
  forall t, tag root_tag = Some t -> homogeneous t.

Definition engine_ok (e : Engine) : Prop :=
  stack_ok (fst e) /\ root_ok (snd e).

(** ** Truncated streams *)

(** [prefix_of d ext short long]: [short] reads the buffer [d], [long] reads
    [d ++ ext], and both are at the same position, inside [d]. *)
Definition prefix_of (d ext : list byte) (short long : MemoryInputStream) : Prop :=
  m_data short = d /\ m_data long = d ++ ext
  /\ m_position short = m_position long
  /\ (m_position short <= length d)%nat.

(** How a computation on the truncated buffer relates to the same
    computation on the full one: it ran out of input, or it did the same. *)
Inductive sim (d ext : list byte) {A : Type} : outcome A -> outcome A -> Prop :=
| sim_eof (short : MemoryInputStream) (o : outcome A) :
    sim d ext (Throw PrematureEof short) o
| sim_ok (a : A) (short long : MemoryInputStream) :
    prefix_of d ext short long -> sim d ext (Ok a short) (Ok a long)
| sim_throw (x : exn) (short long : MemoryInputStream) :
    sim d ext (Throw x short) (Throw x long).

Definition prefix_sim {A} (m : M A) : Prop :=
  forall d ext short long, prefix_of d ext short long -> sim d ext (m short) (m long).

Inductive sim_loop (d ext : list byte) {A : Type}
  : option (outcome A) -> option (outcome A) -> Prop :=
| sim_loop_eof (short : MemoryInputStream) (o : option (outcome A)) :
    sim_loop d ext (Some (Throw PrematureEof short)) o
| sim_loop_none : sim_loop d ext None None
| sim_loop_some (o o' : outcome A) : sim d ext o o' -> sim_loop d ext (Some o) (Some o').

(** ** Hosts with less storage *)

(** The two exceptions of a vector that is refused storage. *)
Definition storage_error (x : exn) : Prop := x = length_error \/ x = bad_alloc.

(** How a computation on some host relates to the same computation on a
    host with more storage: it was refused storage, or it did the same. *)
Inductive hsim {A : Type} : outcome A -> outcome A -> Prop :=
| hsim_refused (x : exn) (s : MemoryInputStream) (o : outcome A) :
    storage_error x -> hsim (Throw x s) o
| hsim_same (o : outcome A) : hsim o o.

Inductive hsim_loop {A : Type} : option (outcome A) -> option (outcome A) -> Prop :=
| hsim_loop_refused (x : exn) (s : MemoryInputStream) (o : option (outcome A)) :
    storage_error x -> hsim_loop (Some (Throw x s)) o
| hsim_loop_same (o : option (outcome A)) : hsim_loop o o.

End Vocabulary.

(** Two hosts to evaluate the reader on: one with storage for every array a
    32-bit length can declare, and one that grants at most 64 bytes to an
    array. *)
Definition ample_host : Host :=
  {| max_bytes := 2 ^ 63 - 1; can_allocate := fun _ => true |}.

Definition small_host : Host :=
  {| max_bytes := 2 ^ 31 - 1; can_allocate := fun n => n <=? 64 |}.

(** ** Well-formed frames *)

Definition name_ok (n : Utf8String) : Prop := Z.of_nat (length (data n)) < 2 ^ 16.

Section Frames.

Context {host : Host}.

(** [refused x]: [x] is what a vector throws when the host has no storage
    for an array of a length declared in the input. *)
Definition refused (x : exn) : Prop :=
  (x = length_error \/ x = bad_alloc)
  /\ exists n size, 0 < n < 2 ^ 32 /\ (size = 1 \/ size = 4) /\ grants n size = false.

(** The exceptions that the input may cause, as opposed to the
    [logic_error]s and the unchecked vector access. *)
Definition input_error (x : exn) : Prop :=
  x = PrematureEof \/ (exists message, x = IoError message) \/ refused x.

(** What a frame has collected is well-formed and held in granted storage,
    and a list frame still has room for the elements it waits for;
    [pending] is 1 for a frame that has a child frame above it. *)
Definition frame_wf (pending : Z) (f : TagReadState) : Prop :=
  match f with
  | ReadRootTagState => True
  | ReadCompoundTagState m_tag m_next_tag_name =>
      NoDup (map fst m_tag)
      /\ Forall (fun e => name_ok (fst e) /\ decodable (snd e)) m_tag
      /\ name_ok m_next_tag_name
  | ReadListTagState T m_type_id m_list_tag m_remaining_reads =>
      m_type_id = kind_of_class T
      /\ Forall (fun v => elem_of_class T v /\ decodable v) m_list_tag
      /\ 0 <= m_remaining_reads
      /\ Z.of_nat (length m_list_tag) + m_remaining_reads + pending < 2 ^ 32
  end.

(** The root frame is at the bottom of the stack and nowhere else. *)
Fixpoint frames_wf (pending : Z) (stk : IoReadState) : Prop :=
  match stk with
  | [] => False
  | child :: rest =>
      match rest with
      | [] => child = ReadRootTagState
      | parent :: _ =>
          child <> ReadRootTagState /\ frame_wf pending child
          /\ accepts parent child /\ frames_wf 1 rest
      end
  end.

Definition root_wf (root_tag : RootTag) : Prop :=
  name_ok (name root_tag)
  /\ forall t, tag root_tag = Some t -> is_container t = true /\ decodable t.

Definition engine_wf (e : Engine) : Prop :=
  (fst e = [] \/ frames_wf 0 (fst e))
  /\ root_wf (snd e)
  /\ ((length (fst e) <= 1)%nat -> tag (snd e) <> None).

End Frames.

(** ** Hashing of names ([Utf8StringHash], kept with [src/nbt.h]) *)

Module Fnv.

(** [sizeof(size_t)]: the two sizes [FnvHash1AConstants] is specialised for. *)
Inductive size_t_size : Type := size_4 | size_8.

Definition size_t (w : size_t_size) : ctype :=
  match w with
  | size_4 => uint32_t
  | size_8 => uint64_t
  end.

Definition fnv_prime (w : size_t_size) : Z :=
  match w with
  | size_4 => 16777619
  | size_8 => 1099511628211
  end.

Definition fnv_offset_bias (w : size_t_size) : Z :=
  match w with
  | size_4 => 2166136261
  | size_8 => 14695981039346656037
  end.

(** One turn of the loop of [fnv_hash]: multiply, then xor the byte in. *)
Definition fnv_step (w : size_t_size) (hash_value : Z) (b : byte) : Z :=
  let hash_value := arith (size_t w) Z.mul hash_value (fnv_prime w) in
  arith (size_t w) Z.lxor hash_value (byte_val b).

Definition fnv_hash (w : size_t_size) (l : list byte) : Z :=
  fold_left (fnv_step w) l (fnv_offset_bias w).

(** [Utf8StringHash::operator()] *)
Definition Utf8StringHash (w : size_t_size) (s : Utf8String) : Z :=
  fnv_hash w (data s).

End Fnv.

(** ** [IStreamInputStream] *)

Module IStream.

(** A value or an exception, and the state the stream is left in. *)
Inductive result (S A : Type) : Type :=
| Returns (a : A) (st : S)
| Throws (x : exn) (st : S).
Arguments Returns {S A} a st.
Arguments Throws {S A} x st.

(** [IoError()], the default message. *)
Definition IoError_default : exn := IoError "I/O error while reading NBT stream.".

Section Generic.

(** A [std::istream], whatever it is backed by: [istream_read st n] is the
    state after [st.read(data, n)] with the bytes stored in [data], and
    [fail] is [basic_ios::fail()].  [operator!] of a stream is its [fail()]. *)
Variable istream : Type.
Variable istream_read : istream -> Z -> list byte * istream.
Variable fail : istream -> bool.

Definition operator_not (st : istream) : bool := fail st.

(** [IStreamInputStream::read] *)
Definition read (m_istream : istream) (size : Z) : result istream (list byte) :=
  let (bytes, st) := istream_read m_istream size in
  if operator_not st then
    if fail st then Throws IoError_default st
    else Throws PrematureEof st
  else Returns bytes st.

End Generic.

(** A [std::istream] over a byte buffer, with its [eofbit], [failbit] and
    [badbit]. *)
Record buffer_istream : Type := {
  buf : list byte;
  pos : nat;
  eofbit : bool;
  failbit : bool;
  badbit : bool
}.

Definition good (st : buffer_istream) : bool :=
  negb (eofbit st || failbit st || badbit st).

Definition buffer_fail (st : buffer_istream) : bool := failbit st || badbit st.

(** [istream::read]: on a stream that is not [good()] it sets [failbit] and
    extracts nothing; otherwise it extracts [n] bytes, or what is left and
    sets [eofbit] and [failbit] when the buffer ends first. *)
Definition buffer_read (st : buffer_istream) (n : Z) : list byte * buffer_istream :=
  if good st then
    let avail := skipn (pos st) (buf st) in
    if Z.of_nat (length avail) <? n then
      (avail, {| buf := buf st; pos := length (buf st);
                 eofbit := true; failbit := true; badbit := badbit st |})
    else
      (firstn (Z.to_nat n) avail,
       {| buf := buf st; pos := pos st + Z.to_nat n;
          eofbit := eofbit st; failbit := failbit st; badbit := badbit st |})
  else
    ([], {| buf := buf st; pos := pos st;
            eofbit := eofbit st; failbit := true; badbit := badbit st |}).

Definition open (d : list byte) : buffer_istream :=
  {| buf := d; pos := 0; eofbit := false; failbit := false; badbit := false |}.

End IStream.

(** ** The pretty printer ([src/utility.cxx]) *)

Module Utility.

(** What printing can raise: the [std::runtime_error] of [print_tag] and the
    [std::logic_error] of [Optional::value]. *)
Inductive print_exn : Type :=
| runtime_error (message : string)
| optional_logic_error (message : string).

(** [class PrettyPrinter]; [m_stream] is the text written so far. *)
Record PrettyPrinter : Type := {
  m_stream : string;
  m_indent_count : Z;
  m_indent : string
}.

Inductive printed (A : Type) : Type :=
| Printed (a : A) (p : PrettyPrinter)
| Raised (x : print_exn) (p : PrettyPrinter).
Arguments Printed {A} a p.
Arguments Raised {A} x p.

Definition P (A : Type) : Type := PrettyPrinter -> printed A.

Definition done : P unit := fun p => Printed tt p.
Definition raise {A} (x : print_exn) : P A := fun p => Raised x p.
Definition seq {A} (m : P unit) (k : P A) : P A :=
  fun p => match m p with
           | Printed _ p' => k p'
           | Raised x p' => Raised x p'
           end.

Notation "m ;;; k" := (seq m k) (at level 62, right associativity).

(** [m_stream << text] *)
Definition write (text : string) : P unit :=
  fun p => Printed tt {| m_stream := m_stream p ++ text;
                         m_indent_count := m_indent_count p;
                         m_indent := m_indent p |}.

Definition set_indent_count (f : Z -> Z) : P unit :=
  fun p => Printed tt {| m_stream := m_stream p;
                         m_indent_count := f (m_indent_count p);
                         m_indent := m_indent p |}.

Fixpoint repeat_string (n : nat) (text : string) : string :=
  match n with
  | O => EmptyString
  | S n' => (text ++ repeat_string n' text)%string
  end.

Definition print_indent : P unit :=
  fun p => write (repeat_string (Z.to_nat (m_indent_count p)) (m_indent p)) p.

Definition newline : string := String (ascii_of_nat 10) EmptyString.

(** [PrettyPrinter::to_string]: the bytes of a name as characters. *)
Definition to_string (s : Utf8String) : string :=
  string_of_list_ascii (map (fun b => ascii_of_N (Byte.to_N b)) (data s)).

(** Text of a value written with [operator<<]: an [int8_t] is a character
    type and is written as that character; the other integers in decimal. *)
Definition show_char (v : Z) : string :=
  String (ascii_of_N (Z.to_N (v mod 256))) EmptyString.

Definition show_int (v : Z) : string := NilZero.string_of_int (Z.to_int v).

(** [print_preamble<T>], [T] given by [TagNameLookup<T>::name]; [name] is the
    [Optional<Utf8String>]. *)
Definition print_preamble (T_name : string) (name : option Utf8String) : P unit :=
  print_indent ;;;
  write T_name ;;;
  match name with
  | Some n => write ("(" ++ dquote) ;;; write (to_string n) ;;; write (dquote ++ ")")
  | None => done
  end ;;;
  write ":".

Definition print_simple_tag (T_name : string) (value_text : string)
    (name : option Utf8String) : P unit :=
  print_preamble T_name name ;;;
  write " " ;;; write value_text ;;; write newline.

Definition print_string_tag (value : Utf8String) (name : option Utf8String) : P unit :=
  print_preamble "TAG_String" name ;;;
  write " " ;;; write (to_string value) ;;; write newline.

Section Entries.

Variable print_tag : Tag -> option Utf8String -> P unit.

(** The loop of [print_compound_tag] over the entries of the map.  The
    entries are visited in the order of the list, which is the order of
    insertion; the order in which a [std::unordered_map] hands them out is
    its own, so that a compound of several entries may be written with its
    entries in another order than here. *)
Fixpoint print_entries (l : list (Utf8String * Tag)) : P unit :=
  match l with
  | [] => done
  | entry :: l' => print_tag (snd entry) (Some (fst entry)) ;;; print_entries l'
  end.

(** [print_compound_tag], over the function that prints an entry. *)
Definition print_compound_tag (values : list (Utf8String * Tag))
    (name : option Utf8String) : P unit :=
  print_preamble "TAG_Compound" name ;;;
  write " " ;;; write (show_int (Z.of_nat (length values))) ;;; write (" entries" ++ newline) ;;;
  print_indent ;;;
  write ("{" ++ newline) ;;;
  set_indent_count (fun c => cast uint32_t (c + 1)) ;;;
  print_entries values ;;;
  set_indent_count (fun c => cast uint32_t (c - 1)) ;;;
  print_indent ;;;
  write ("}" ++ newline).

End Entries.

(** The tags [print_tag] has a case for, at every depth. *)
Fixpoint printable (t : Tag) : bool :=
  match t with
  | ByteArrayTag _ | ListTag _ _ | IntArrayTag _ => false
  | CompoundTag values => forallb (fun entry => printable (snd entry)) values
  | _ => true
  end.

(** [extends p p']: [p'] is [p] with more text on the stream, at the same
    indentation. *)
Definition extends (p p' : PrettyPrinter) : Prop :=
  m_indent_count p' = m_indent_count p
  /\ m_indent p' = m_indent p
  /\ exists out, m_stream p' = (m_stream p ++ out)%string.

Definition appends (m : P unit) : Prop :=
  forall p, exists p', m p = Printed tt p' /\ extends p p'.

Definition unknown_tag_class : print_exn :=
  runtime_error "Unknown tag class passed to print_tag!".

Section Printer.

(** The text [operator<<] writes for a [float] and for a [double], from the
    bytes of the value. *)
Variable show_float : list byte -> string.
Variable show_double : list byte -> string.

(** [PrettyPrinter::print_tag] *)
Fixpoint print_tag (t : Tag) (name : option Utf8String) : P unit :=
  match t with
  | ByteTag v => print_simple_tag "TAG_Byte" (show_char v) name
  | ShortTag v => print_simple_tag "TAG_Short" (show_int v) name
  | IntTag v => print_simple_tag "TAG_Int" (show_int v) name
  | LongTag v => print_simple_tag "TAG_Long" (show_int v) name
  | FloatTag v => print_simple_tag "TAG_Float" (show_float v) name
  | DoubleTag v => print_simple_tag "TAG_Double" (show_double v) name
  | StringTag v => print_string_tag v name
  | CompoundTag values => print_compound_tag print_tag values name
  | ByteArrayTag _ | ListTag _ _ | IntArrayTag _ =>
      raise (runtime_error "Unknown tag class passed to print_tag!")
  end.

(** [PrettyPrinter::pretty_print]: [print_tag] on the tag that
    [root_tag.tag] points to.  With a null [tag], [print_tag] is handed the
    object at the null address; each of its [dynamic_cast]s is then a cast
    of the null pointer, which yields the null pointer, and [print_tag]
    falls through to its final [throw]. *)
Definition PrettyPrinter_pretty_print (root_tag : RootTag) : P unit :=
  match tag root_tag with
  | Some t => print_tag t (Some (name root_tag))
  | None => raise (runtime_error "Unknown tag class passed to print_tag!")
  end.

(** [utility::pretty_print(os, root_tag)]; [os] is the text already on the
    stream. *)
Definition pretty_print (os : string) (root_tag : RootTag) : printed unit :=
  PrettyPrinter_pretty_print root_tag
    {| m_stream := os; m_indent_count := 0; m_indent := "    " |}.

(** The outcome of printing a tag, by whether every tag in it has a case in
    [print_tag]. *)
Definition print_outcome (t : Tag) : Prop :=
  forall name p,
    in_range uint32_t (m_indent_count p) ->
    if printable t
    then exists p', print_tag t name p = Printed tt p' /\ extends p p'
    else exists p', print_tag t name p = Raised unknown_tag_class p'.

End Printer.

End Utility.

(** * The pretty printer with lists (src/unnamed/part_000)

    The version of [utility.cxx] that prints byte arrays and lists.  It shares
    [print_indent], [to_string], [print_preamble], [print_simple_tag],
    [print_string_tag] and [print_compound_tag] with the version above. *)

Module UtilityLists.

Import Utility.

(** [print_byte_tag]: the value goes through [static_cast<int>] and is
    written in decimal. *)
Definition print_byte_tag (value : Z) (name : option Utf8String) : P unit :=
  print_preamble "TAG_Byte" name ;;;
  write " " ;;; write (show_int (cast int32_t value)) ;;; write newline.

(** [print_byte_array_tag] *)
Definition print_byte_array_tag (value : list byte) (name : option Utf8String) : P unit :=
  print_preamble "TAG_Byte_Array" name ;;;
  write " [" ;;; write (show_int (Z.of_nat (length value))) ;;; write (" bytes]" ++ newline).

(** The types that [print_list_tag] tries in turn, one per
    [INNER_LIST_TRY_TYPE(inner_type)]. *)
Inductive inner_type : Type :=
| I_ByteTag | I_ShortTag | I_IntTag | I_LongTag | I_FloatTag | I_DoubleTag
| I_StringTag | I_ListTagBase | I_CompoundTag | I_IntArrayTag.

Definition INNER_LIST_TRY_TYPES : list inner_type :=
  [I_ByteTag; I_ShortTag; I_IntTag; I_LongTag; I_FloatTag; I_DoubleTag;
   I_StringTag; I_ListTagBase; I_CompoundTag; I_IntArrayTag].

(** [TagNameLookup<inner_type>::name] *)
Definition TagNameLookup (i : inner_type) : string :=
  match i with
  | I_ByteTag => "TAG_Byte"
  | I_ShortTag => "TAG_Short"
  | I_IntTag => "TAG_Int"
  | I_LongTag => "TAG_Long"
  | I_FloatTag => "TAG_Float"
  | I_DoubleTag => "TAG_Double"
  | I_StringTag => "TAG_String"
  | I_ListTagBase => "TAG_List"
  | I_CompoundTag => "TAG_Compound"
  | I_IntArrayTag => "TAG_Int_Array"
  end.

(** [dynamic_cast<const ListTag<inner_type> *>(&tag) != nullptr] for a [tag]
    that is a [ListTag<T>]: the cast succeeds when the two are the same
    instantiation of [ListTag].  [T] ranges over the classes the reader
    instantiates [ListTag] with, and [ListTagBase] is not one of them: a
    list of lists is read as a [ListTag<Tag>], so the attempt with
    [ListTagBase] fails on every list the reader builds, and so does every
    attempt on a [ListTag<Tag>] or a [ListTag<ByteArrayTag>]. *)
Definition is_ListTag_of (i : inner_type) (T : TagClass) : bool :=
  match i, T with
  | I_ByteTag, T_ByteTag => true
  | I_ShortTag, T_ShortTag => true
  | I_IntTag, T_IntTag => true
  | I_LongTag, T_LongTag => true
  | I_FloatTag, T_FloatTag => true
  | I_DoubleTag, T_DoubleTag => true
  | I_StringTag, T_StringTag => true
  | I_CompoundTag, T_CompoundTag => true
  | I_IntArrayTag, T_IntArrayTag => true
  | _, _ => false
  end.

(** The first of the types tried whose cast succeeds. *)
Definition INNER_LIST_TRY_TYPE (T : TagClass) : option inner_type :=
  find (fun i => is_ListTag_of i T) INNER_LIST_TRY_TYPES.

Definition unknown_list_type : print_exn :=
  runtime_error "print_list_tag was passed a Tag of a type it didn't recognize.".

Definition unknown_tag_type : print_exn :=
  runtime_error "print_tag was passed a Tag of a type it didn't recognize.".

Section Elements.

Variable print_tag : Tag -> option Utf8String -> P unit.

(** The loop of [print_list_specific_tag] over the elements. *)
Fixpoint print_elements (l : list Tag) : P unit :=
  match l with
  | [] => done
  | entry :: l' => print_tag entry None ;;; print_elements l'
  end.

(** [print_list_specific_tag<T>], [T] given by [TagNameLookup<T>::name]. *)
Definition print_list_specific_tag (T_name : string) (values : list Tag)
    (name : option Utf8String) : P unit :=
  print_preamble "TAG_List" name ;;;
  write (show_int (Z.of_nat (length values))) ;;;
  write " entries of type " ;;; write T_name ;;; write newline ;;;
  print_indent ;;;
  write ("{" ++ newline) ;;;
  set_indent_count (fun c => cast uint32_t (c + 1)) ;;;
  print_elements values ;;;
  set_indent_count (fun c => cast uint32_t (c - 1)) ;;;
  print_indent ;;;
  write ("}" ++ newline).

(** [print_list_tag] *)
Definition print_list_tag (T : TagClass) (values : list Tag)
    (name : option Utf8String) : P unit :=
  match INNER_LIST_TRY_TYPE T with
  | Some i => print_list_specific_tag (TagNameLookup i) values name
  | None => raise unknown_list_type
  end.

End Elements.

(** The tags [print_tag] can print, at every depth. *)
Fixpoint printable (t : Tag) : bool :=
  match t with
  | IntArrayTag _ => false
  | ListTag T values =>
      match INNER_LIST_TRY_TYPE T with
      | Some _ => forallb printable values
      | None => false
      end
  | CompoundTag values => forallb (fun entry => printable (snd entry)) values
  | _ => true
  end.

(** [raises x]: one of the two errors of this printer. *)
Definition raises (x : print_exn) : Prop :=
  x = unknown_tag_type \/ x = unknown_list_type.

(** A loop that either appends or raises, by [ok]. *)
Definition loop_outcome (ok : bool) (loop : P unit) : Prop :=
  forall p, in_range uint32_t (m_indent_count p) ->
    if ok
    then exists p', loop p = Printed tt p' /\ extends p p'
    else exists x p', loop p = Raised x p' /\ raises x.

Section Printer.

Variable show_float : list byte -> string.
Variable show_double : list byte -> string.

(** [PrettyPrinter::print_tag] *)
Fixpoint print_tag (t : Tag) (name : option Utf8String) : P unit :=
  match t with
  | ByteTag v => print_byte_tag v name
  | ShortTag v => print_simple_tag "TAG_Short" (show_int v) name
  | IntTag v => print_simple_tag "TAG_Int" (show_int v) name
  | LongTag v => print_simple_tag "TAG_Long" (show_int v) name
  | FloatTag v => print_simple_tag "TAG_Float" (show_float v) name
  | DoubleTag v => print_simple_tag "TAG_Double" (show_double v) name
  | ByteArrayTag v => print_byte_array_tag v name
  | ListTag T values => print_list_tag print_tag T values name
  | StringTag v => print_string_tag v name
  | CompoundTag values => print_compound_tag print_tag values name
  | IntArrayTag _ => raise unknown_tag_type
  end.

(** [PrettyPrinter::pretty_print]; a null [tag] fails every [dynamic_cast]
    of [print_tag], as in the other version. *)
Definition PrettyPrinter_pretty_print (root_tag : RootTag) : P unit :=
  match tag root_tag with
  | Some t => print_tag t (Some (name root_tag))
  | None => raise unknown_tag_type
  end.

(** [utility::pretty_print(os, root_tag)] *)
Definition pretty_print (os : string) (root_tag : RootTag) : printed unit :=
  PrettyPrinter_pretty_print root_tag
    {| m_stream := os; m_indent_count := 0; m_indent := "    " |}.

(** The outcome of printing a tag, by whether [print_tag] and
    [print_list_tag] have a case for every tag in it. *)
Definition print_outcome (t : Tag) : Prop :=
  forall name p,
    in_range uint32_t (m_indent_count p) ->
    if printable t
    then exists p', print_tag t name p = Printed tt p' /\ extends p p'
    else exists x p', print_tag t name p = Raised x p' /\ raises x.

End Printer.

End UtilityLists.

(** * Properties *)

(** ** Integer conversions *)

Section Casts.

Lemma bits_pos (t : ctype) : 0 < bits t.
Proof. destruct t; reflexivity. Qed.

Lemma pow_bits_pos (t : ctype) : 0 < 2 ^ bits t.
Proof. apply Z.pow_pos_nonneg; [lia | pose proof (bits_pos t); lia]. Qed.

Lemma bits_promote (t : ctype) : bits t <= bits (promote t).
Proof. destruct t; simpl; lia. Qed.

(** A conversion changes a value by a multiple of [2^bits]. *)
Lemma cast_decomp (t : ctype) (z : Z) : exists q, cast t z = z + q * 2 ^ bits t.
Proof.
  pose proof (pow_bits_pos t) as Hm. unfold cast.
  destruct (is_signed t).
  - exists (- ((z + 2 ^ (bits t - 1)) / 2 ^ bits t)).
    rewrite Z.mod_eq by lia. lia.
  - exists (- (z / 2 ^ bits t)). rewrite Z.mod_eq by lia. lia.
Qed.

Lemma cast_mod_le (t t' : ctype) (z : Z) :
  bits t <= bits t' -> cast t' z mod 2 ^ bits t = z mod 2 ^ bits t.
Proof.
  intros Hle. destruct (cast_decomp t' z) as [q ->].
  pose proof (bits_pos t).
  replace (2 ^ bits t') with (2 ^ (bits t' - bits t) * 2 ^ bits t)
    by (rewrite <- Z.pow_add_r by lia; f_equal; lia).
  rewrite Z.mul_assoc. apply Z.mod_add. pose proof (pow_bits_pos t). lia.
Qed.

Lemma cast_ext (t : ctype) (a b : Z) :
  a mod 2 ^ bits t = b mod 2 ^ bits t -> cast t a = cast t b.
Proof.
  intros H. pose proof (pow_bits_pos t). unfold cast.
  destruct (is_signed t); [|assumption].
  f_equal. rewrite (Z.add_mod a), (Z.add_mod b), H by lia. reflexivity.
Qed.

Lemma cast_id (t : ctype) (z : Z) : in_range t z -> cast t z = z.
Proof.
  unfold in_range, cast. pose proof (bits_pos t).
  assert (E : 2 ^ bits t = 2 * 2 ^ (bits t - 1)).
  { rewrite <- Z.pow_succ_r by lia. f_equal. lia. }
  destruct (is_signed t); intros Hr.
  - rewrite Z.mod_small by lia. lia.
  - apply Z.mod_small. lia.
Qed.

Lemma cast_in_range (t : ctype) (z : Z) : in_range t (cast t z).
Proof.
  unfold in_range, cast. pose proof (bits_pos t). pose proof (pow_bits_pos t).
  assert (E : 2 ^ bits t = 2 * 2 ^ (bits t - 1)).
  { rewrite <- Z.pow_succ_r by lia. f_equal. lia. }
  destruct (is_signed t).
  - pose proof (Z.mod_pos_bound (z + 2 ^ (bits t - 1)) (2 ^ bits t)). lia.
  - apply Z.mod_pos_bound. lia.
Qed.

Lemma eqmod_cast (k : Z) (t : ctype) (z : Z) : k = bits t \/ k <= bits t -> 0 < k -> eqmod k (cast t z) z.
Proof.
  intros Hk Hpos. unfold eqmod. destruct (cast_decomp t z) as [q ->].
  replace (2 ^ bits t) with (2 ^ (bits t - k) * 2 ^ k)
    by (rewrite <- Z.pow_add_r by lia; f_equal; lia).
  rewrite Z.mul_assoc. apply Z.mod_add.
  assert (0 < 2 ^ k) by (apply Z.pow_pos_nonneg; lia). lia.
Qed.

Lemma eqmod_sub (k a a' b b' : Z) :
  eqmod k a a' -> eqmod k b b' -> eqmod k (a - b) (a' - b').
Proof. unfold eqmod. intros Ha Hb. rewrite (Zminus_mod a), (Zminus_mod a'), Ha, Hb. reflexivity. Qed.

Lemma eqmod_add (k a a' b b' : Z) :
  eqmod k a a' -> eqmod k b b' -> eqmod k (a + b) (a' + b').
Proof. unfold eqmod. intros Ha Hb. rewrite (Zplus_mod a), (Zplus_mod a'), Ha, Hb. reflexivity. Qed.

Lemma eqmod_opp (k a a' : Z) : eqmod k a a' -> eqmod k (- a) (- a').
Proof. intros H. apply (eqmod_sub k 0 0 a a'); [reflexivity | exact H]. Qed.

Lemma eqmod_trans (k a b c : Z) : eqmod k a b -> eqmod k b c -> eqmod k a c.
Proof. unfold eqmod. congruence. Qed.

Lemma eqmod_refl (k a : Z) : eqmod k a a.
Proof. reflexivity. Qed.

(** Strips the conversions from the left side of a congruence. *)
Ltac strip_casts Hc :=
  lazymatch goal with
  | |- eqmod _ (cast _ _) _ => eapply eqmod_trans; [apply Hc; lia | strip_casts Hc]
  | |- eqmod _ (_ - _) _ => apply eqmod_sub; strip_casts Hc
  | |- eqmod _ (_ + _) _ => apply eqmod_add; strip_casts Hc
  | |- eqmod _ (- _) _ => apply eqmod_opp; strip_casts Hc
  | |- eqmod _ _ _ => apply eqmod_refl
  end.

(** Whatever the sign test finds, [twos_complement_decode] returns its
    argument converted to the result type, as long as the result type is not
    wider than the argument type. *)
Lemma twos_complement_decode_cast (size : Z) (RT IT : ctype) (v : Z) :
  bits RT <= bits IT ->
  twos_complement_decode size RT IT v = cast RT v.
Proof.
  intros Hb. unfold twos_complement_decode.
  destruct (negb _); [|reflexivity].
  pose proof (bits_pos RT) as Hpos.
  pose proof (bits_promote RT) as HC. pose proof (bits_promote IT) as HP.
  apply cast_ext. fold (eqmod (bits RT)). unfold arith, arith1.
  assert (Hc : forall t z, bits RT <= bits t -> eqmod (bits RT) (cast t z) z)
    by (intros; apply eqmod_cast; [right; assumption | assumption]).
  unfold Z.lnot, Z.pred.
  eapply eqmod_trans; [strip_casts Hc|].
  unfold eqmod. f_equal. lia.
Qed.

End Casts.

(** ** The byte source *)

Section Stream.

Lemma byte_val_range (b : byte) : 0 <= byte_val b < 256.
Proof. unfold byte_val. pose proof (Byte.to_N_bounded b). lia. Qed.

Lemma remaining_length (s : MemoryInputStream) :
  length (remaining s) = (m_size s - m_position s)%nat.
Proof. unfold remaining, m_size. apply length_skipn. Qed.

Lemma remaining_skip (s : MemoryInputStream) (bs tail : list byte) :
  remaining s = bs ++ tail -> remaining (skip (length bs) s) = tail.
Proof.
  unfold remaining, skip. simpl. intros H.
  rewrite Nat.add_comm, <- skipn_skipn, H, skipn_app, skipn_all, Nat.sub_diag.
  reflexivity.
Qed.

Lemma skip_skip (n m : nat) (s : MemoryInputStream) :
  skip m (skip n s) = skip (n + m) s.
Proof. unfold skip. simpl. f_equal. lia. Qed.

Lemma skip_0 (s : MemoryInputStream) : skip 0 s = s.
Proof. destruct s. unfold skip. simpl. f_equal. lia. Qed.

(** A read of bytes that are there returns them and advances. *)
Lemma read_ok (s : MemoryInputStream) (bs tail : list byte) :
  remaining s = bs ++ tail ->
  read (Z.of_nat (length bs)) s = Ok bs (skip (length bs) s).
Proof.
  intros H. unfold read. rewrite <- remaining_length, H, length_app.
  destruct (Z.ltb_spec (Z.of_nat (length bs + length tail)) (Z.of_nat (length bs))); [lia|].
  rewrite Nat2Z.id. fold (remaining s). rewrite H.
  rewrite firstn_app, firstn_all, Nat.sub_diag. simpl. rewrite app_nil_r.
  reflexivity.
Qed.

(** A read of more bytes than are left throws [PrematureEof]. *)
Lemma read_eof (s : MemoryInputStream) (size : Z) :
  Z.of_nat (length (remaining s)) < size -> read size s = Throw PrematureEof s.
Proof.
  intros H. unfold read. rewrite <- remaining_length.
  destruct (Z.ltb_spec (Z.of_nat (length (remaining s))) size); [reflexivity | lia].
Qed.

Lemma bind_ok {A B} (m : M A) (f : A -> M B) (s s' : MemoryInputStream) (a : A) :
  m s = Ok a s' -> bind m f s = f a s'.
Proof. unfold bind. intros ->. reflexivity. Qed.

Lemma bind_throw {A B} (m : M A) (f : A -> M B) (s s' : MemoryInputStream) (e : exn) :
  m s = Throw e s' -> bind m f s = Throw e s'.
Proof. unfold bind. intros ->. reflexivity. Qed.

End Stream.

(** ** Storage *)

Section Storage.

Context {host : Host}.

Lemma allocate_granted (n size : Z) (s : MemoryInputStream) :
  grants n size = true -> allocate n size s = Ok tt s.
Proof.
  unfold grants, allocate. destruct (n =? 0); [reflexivity|]. cbn [orb].
  destruct (max_bytes <? n * size); [discriminate|]. cbn [negb andb].
  intros ->. reflexivity.
Qed.

Lemma allocate_refused (n size : Z) (s : MemoryInputStream) :
  grants n size = false ->
  exists x, (x = length_error \/ x = bad_alloc) /\ allocate n size s = Throw x s.
Proof.
  unfold grants, allocate. destruct (n =? 0); [discriminate|]. cbn [orb].
  destruct (max_bytes <? n * size); cbn [negb andb]; [eauto|].
  intros ->. eauto.
Qed.

(** [allocate] leaves the stream where it is, and returns exactly when the
    host grants the request. *)
Lemma allocate_cases (n size : Z) (s : MemoryInputStream) :
  (grants n size = true /\ allocate n size s = Ok tt s)
  \/ (grants n size = false
      /\ exists x, (x = length_error \/ x = bad_alloc) /\ allocate n size s = Throw x s).
Proof.
  destruct (grants n size) eqn:E; [left | right]; split; try reflexivity.
  - apply allocate_granted, E.
  - apply allocate_refused, E.
Qed.

Lemma allocate_ok (n size : Z) (s : MemoryInputStream) (u : unit) (s' : MemoryInputStream) :
  allocate n size s = Ok u s' -> grants n size = true /\ s' = s.
Proof.
  destruct (allocate_cases n size s) as [[Hg ->]|(_ & x & _ & ->)]; [|discriminate].
  intros [= _ <-]. split; [exact Hg | reflexivity].
Qed.

Lemma allocate_throw (n size : Z) (s : MemoryInputStream) (x : exn) (s' : MemoryInputStream) :
  allocate n size s = Throw x s' ->
  (x = length_error \/ x = bad_alloc) /\ grants n size = false /\ s' = s.
Proof.
  destruct (allocate_cases n size s) as [[_ ->]|(Hg & y & Hy & ->)]; [discriminate|].
  intros [= <- <-]. repeat split; assumption.
Qed.

End Storage.

(** ** Big-endian integers *)

Section BigEndian.

Lemma lor_add_byte (n d : Z) : 0 <= d < 256 -> Z.lor (n * 2 ^ 8) d = n * 2 ^ 8 + d.
Proof.
  intros Hd.
  assert (Hl : Z.land (n * 2 ^ 8) d = 0).
  { apply Z.bits_inj'. intros i Hi. rewrite Z.land_spec, Z.bits_0.
    destruct (Z.ltb_spec i 8).
    - rewrite Z.mul_pow2_bits_low by lia. reflexivity.
    - assert (Z.testbit d i = false) as ->; [|apply Bool.andb_false_r].
      destruct (Z.eq_dec d 0) as [->|]; [apply Z.bits_0|].
      apply Z.bits_above_log2; [lia|].
      assert (Z.log2 d < 8) by (apply Z.log2_lt_pow2; simpl; lia). lia. }
  rewrite <- Z.lxor_lor by assumption. symmetry. apply Z.add_nocarry_lxor. assumption.
Qed.

Lemma in_range_promote_unsigned (T : ctype) (x : Z) :
  is_signed T = false -> 0 <= x < 2 ^ bits T -> in_range (promote T) x.
Proof.
  destruct T; simpl; try discriminate; intros _ H; unfold in_range; simpl in *; lia.
Qed.

Lemma in_range_unsigned (T : ctype) (x : Z) :
  is_signed T = false -> 0 <= x < 2 ^ bits T -> in_range T x.
Proof. unfold in_range. intros ->. trivial. Qed.

Lemma pow_bits_ge_256 (T : ctype) : 256 <= 2 ^ bits T.
Proof. destruct T; simpl; lia. Qed.

Lemma be_step_add (T : ctype) (n : Z) (d : byte) :
  is_signed T = false -> 0 <= n -> n * 256 + 256 <= 2 ^ bits T ->
  be_step T n d = n * 256 + byte_val d.
Proof.
  intros HT Hn Hb. pose proof (byte_val_range d) as Hd.
  pose proof (pow_bits_ge_256 T) as H256.
  unfold be_step, arith.
  rewrite (cast_id T (byte_val d)) by (apply in_range_unsigned; [assumption | lia]).
  rewrite (cast_id (promote T) n) by (apply in_range_promote_unsigned; [assumption | lia]).
  rewrite (cast_id (promote T) 8) by (apply in_range_promote_unsigned; [assumption | lia]).
  rewrite Z.shiftl_mul_pow2 by lia.
  rewrite !(cast_id (promote T) (n * 2 ^ 8))
    by (apply in_range_promote_unsigned; [assumption | change (2 ^ 8) with 256; lia]).
  rewrite (cast_id (promote T) (byte_val d)) by (apply in_range_promote_unsigned; [assumption | lia]).
  rewrite lor_add_byte by assumption. change (2 ^ 8) with 256.
  rewrite (cast_id (promote T)) by (apply in_range_promote_unsigned; [assumption | lia]).
  apply cast_id, in_range_unsigned; [assumption | lia].
Qed.

Lemma be_fold_bound (l : list byte) (acc b : Z) :
  0 <= acc < b ->
  0 <= fold_left (fun n d => n * 256 + byte_val d) l acc < b * 256 ^ Z.of_nat (length l).
Proof.
  revert acc b. induction l as [|d l IH]; intros acc b Hacc.
  - simpl. lia.
  - cbn [fold_left length]. pose proof (byte_val_range d).
    rewrite Nat2Z.inj_succ, Z.pow_succ_r by lia.
    replace (b * (256 * 256 ^ Z.of_nat (length l))) with ((b * 256) * 256 ^ Z.of_nat (length l)) by lia.
    apply IH. lia.
Qed.

Lemma be_value_bound (l : list byte) : 0 <= be_value l < 256 ^ Z.of_nat (length l).
Proof.
  unfold be_value. pose proof (be_fold_bound l 0 1). lia.
Qed.

Lemma be_fold_steps (T : ctype) (l : list byte) (acc b : Z) :
  is_signed T = false -> 0 <= acc < b ->
  b * 256 ^ Z.of_nat (length l) <= 2 ^ bits T ->
  fold_left (be_step T) l acc = fold_left (fun n d => n * 256 + byte_val d) l acc.
Proof.
  intros HT. revert acc b. induction l as [|d l IH]; intros acc b Hacc Hb; [reflexivity|].
  cbn [fold_left length] in *. pose proof (byte_val_range d).
  rewrite Nat2Z.inj_succ, Z.pow_succ_r in Hb by lia.
  assert (0 < 256 ^ Z.of_nat (length l)) by (apply Z.pow_pos_nonneg; lia).
  rewrite be_step_add; [| assumption | lia | nia].
  apply (IH _ (b * 256)); [lia | lia].
Qed.

(** Reading [size] bytes that are there yields the number they denote, when
    they fit the unsigned type [T]. *)
Lemma read_big_endian_ok (T : ctype) (s : MemoryInputStream) (bs tail : list byte) :
  is_signed T = false -> 256 ^ Z.of_nat (length bs) <= 2 ^ bits T ->
  remaining s = bs ++ tail ->
  read_big_endian_unsigned_int T (Z.of_nat (length bs)) s
  = Ok (be_value bs) (skip (length bs) s).
Proof.
  intros HT Hb H. unfold read_big_endian_unsigned_int.
  rewrite (bind_ok _ _ _ _ _ (read_ok s bs tail H)). unfold ret. f_equal.
  pose proof (pow_bits_ge_256 T).
  rewrite (cast_id T 0) by (apply in_range_unsigned; [assumption | lia]).
  apply (be_fold_steps T bs 0 1); [assumption | lia | lia].
Qed.

Lemma read_be_ok (T : ctype) (size : Z) (s : MemoryInputStream) (bs tail : list byte) :
  is_signed T = false -> Z.of_nat (length bs) = size -> 256 ^ size <= 2 ^ bits T ->
  remaining s = bs ++ tail ->
  read_big_endian_unsigned_int T size s = Ok (be_value bs) (skip (length bs) s).
Proof.
  intros HT <- Hb H. apply (read_big_endian_ok T s bs tail); assumption.
Qed.

Lemma read_length (size : Z) (s : MemoryInputStream) (bs : list byte) (s' : MemoryInputStream) :
  read size s = Ok bs s' -> length bs = Z.to_nat size.
Proof.
  unfold read, m_size.
  destruct (Z.ltb_spec (Z.of_nat (length (m_data s) - m_position s)) size); [discriminate|].
  intros [= <- _]. rewrite length_firstn, length_skipn. lia.
Qed.

Lemma be_fold_in_range (T : ctype) (l : list byte) (acc : Z) :
  in_range T acc -> in_range T (fold_left (be_step T) l acc).
Proof.
  revert acc. induction l as [|d l IH]; intros acc Hacc; [exact Hacc|].
  simpl. apply IH. unfold be_step. apply cast_in_range.
Qed.

Lemma read_be_range (T : ctype) (size : Z) (s : MemoryInputStream) (v : Z)
    (s' : MemoryInputStream) :
  read_big_endian_unsigned_int T size s = Ok v s' -> in_range T v.
Proof.
  unfold read_big_endian_unsigned_int, bind, ret.
  destruct (read size s); [|discriminate]. intros [= <- _].
  apply be_fold_in_range, cast_in_range.
Qed.

End BigEndian.

(** ** Two's-complement decoding *)

Section TwosComplement.

Context {host : Host}.

Lemma testbit_top (k raw : Z) :
  0 <= k -> 0 <= raw < 2 ^ (k + 1) -> Z.testbit raw k = (2 ^ k <=? raw).
Proof.
  intros Hk Hr.
  assert (Hp : 0 < 2 ^ k) by (apply Z.pow_pos_nonneg; lia).
  rewrite Z.pow_add_r, Z.pow_1_r in Hr by lia.
  destruct (Z.leb_spec (2 ^ k) raw) as [Hle|Hlt].
  - apply Z.testbit_true; [lia|].
    assert (raw / 2 ^ k = 1) as ->; [|reflexivity].
    symmetry. apply Z.div_unique with (r := raw - 2 ^ k); lia.
  - apply Bool.not_true_is_false. intros Ht.
    apply Z.testbit_true in Ht; [|lia].
    rewrite Z.div_small in Ht by lia. discriminate.
Qed.

Lemma cast_signed_value (width : Z) (RT : ctype) (raw : Z) :
  is_signed RT = true -> bits RT = width * 8 ->
  0 <= raw < 2 ^ (width * 8) ->
  cast RT raw = signed_value width raw.
Proof.
  intros Hs Hb Hr. pose proof (bits_pos RT) as Hpos.
  unfold cast, signed_value. rewrite Hs, Hb.
  assert (E : 2 ^ (width * 8) = 2 * 2 ^ (width * 8 - 1)).
  { rewrite <- Z.pow_succ_r by lia. f_equal. lia. }
  destruct (Z.ltb_spec raw (2 ^ (width * 8 - 1))).
  - rewrite Z.mod_small by lia. lia.
  - rewrite <- (Z.mod_add _ (-1)) by lia. rewrite Z.mod_small by lia. lia.
Qed.

Lemma signed_value_complement (width raw : Z) :
  0 < width -> 0 <= raw < 2 ^ (width * 8) ->
  signed_value width raw
  = if Z.testbit raw (width * 8 - 1) then - (bitwise_complement width raw + 1) else raw.
Proof.
  intros Hw Hr. unfold signed_value, bitwise_complement.
  rewrite testbit_top by (try lia; replace (width * 8 - 1 + 1) with (width * 8) by lia; lia).
  assert (E : 2 ^ (width * 8) = 2 * 2 ^ (width * 8 - 1)).
  { rewrite <- Z.pow_succ_r by lia. f_equal. lia. }
  destruct (Z.ltb_spec raw (2 ^ (width * 8 - 1))) as [Hlt|Hge];
    destruct (Z.leb_spec (2 ^ (width * 8 - 1)) raw); try lia.
  unfold Z.lnot, Z.pred.
  rewrite <- (Z.mod_add _ 1) by lia. rewrite Z.mod_small by lia. lia.
Qed.

Lemma simple_int_kinds_bits (k width : Z) (RT IT : ctype) (ctor : Z -> Tag) :
  In (k, width, RT, IT, ctor) simple_int_kinds ->
  0 < width /\ bits RT = width * 8 /\ bits IT = width * 8
  /\ is_signed RT = true /\ is_signed IT = false.
Proof.
  unfold simple_int_kinds. simpl.
  intros [H|[H|[H|[H|[]]]]]; inversion H; subst; simpl; repeat split; lia.
Qed.

Lemma decode_simple_int (k width : Z) (RT IT : ctype) (ctor : Z -> Tag) (raw : Z) :
  In (k, width, RT, IT, ctor) simple_int_kinds ->
  0 <= raw < 2 ^ (width * 8) ->
  twos_complement_decode width RT IT raw = signed_value width raw.
Proof.
  intros Hin Hr. destruct (simple_int_kinds_bits _ _ _ _ _ Hin) as (Hw & HR & HI & Hs & _).
  rewrite twos_complement_decode_cast by lia.
  apply cast_signed_value; assumption.
Qed.

(** An element of an int array: the swapped instantiation still yields the
    signed reading of the four bytes. *)
Lemma decode_int_array_element (encoded_int : Z) :
  0 <= encoded_int < 2 ^ 32 ->
  cast int32_t (twos_complement_decode 4 uint32_t int32_t (cast int32_t encoded_int))
  = signed_value 4 encoded_int.
Proof.
  intros Hr. rewrite twos_complement_decode_cast by (simpl; lia).
  rewrite <- (cast_signed_value 4 int32_t) by (try reflexivity; assumption).
  apply cast_ext.
  rewrite (cast_mod_le int32_t uint32_t) by (simpl; lia).
  apply (cast_mod_le int32_t int32_t). simpl. lia.
Qed.

(** At the most negative value of the 4-byte width, the subtraction in
    [(RT) abs_value - 1] leaves the range of [RT]: the result above rests on
    the wrap-around of [cast]. *)
Lemma decode_min_value_wraps :
  ~ in_range int32_t (cast int32_t (2 ^ 31) - 1)
  /\ twos_complement_decode 4 int32_t uint32_t (2 ^ 31) = - 2 ^ 31.
Proof.
  split; [unfold in_range; vm_compute; intros [H _]; apply H; reflexivity | reflexivity].
Qed.

Lemma pow256_of_nat (n : nat) : 256 ^ Z.of_nat n = 2 ^ (Z.of_nat n * 8).
Proof.
  change 256 with (2 ^ 8). rewrite <- Z.pow_mul_r by lia. f_equal. lia.
Qed.

Lemma read_int_array_loop_ok (elems : list (list byte)) (values : list Z)
    (s : MemoryInputStream) (tail : list byte) :
  Forall (fun e => length e = 4%nat) elems ->
  remaining s = concat elems ++ tail ->
  read_int_array_loop (length elems) values s
  = Ok (values ++ map (fun e => signed_value 4 (be_value e)) elems)
       (skip (length (concat elems)) s).
Proof.
  intros Hall. revert values s. induction Hall as [|e elems He Hall IH]; intros values s Hrem.
  - simpl. rewrite app_nil_r, skip_0. reflexivity.
  - cbn [length read_int_array_loop concat map] in *. rewrite <- app_assoc in Hrem.
    rewrite (bind_ok _ _ _ _ _ (read_be_ok uint32_t 4 s e _ eq_refl
               ltac:(rewrite He; reflexivity) ltac:(simpl; lia) Hrem)).
    rewrite decode_int_array_element
      by (pose proof (be_value_bound e) as Hb; rewrite He in Hb; simpl in Hb; simpl; lia).
    rewrite IH by (apply (remaining_skip s e); assumption).
    rewrite skip_skip, <- length_app, <- app_assoc. reflexivity.
Qed.

(** The storage for the elements is asked for before the first of them is
    read: when it is refused the reader throws at once, having read the
    length and nothing else. *)
Lemma read_int_array_tag_refused (lenb : list byte) (n : Z) (s : MemoryInputStream)
    (tail : list byte) :
  length lenb = 4%nat -> be_value lenb = n ->
  remaining s = lenb ++ tail ->
  grants n 4 = false ->
  exists x, (x = length_error \/ x = bad_alloc)
            /\ read_int_array_tag s = Throw x (skip 4 s).
Proof.
  intros Hl Hv Hrem Hgr. unfold read_int_array_tag.
  rewrite (bind_ok _ _ _ _ _ (read_be_ok uint32_t 4 s lenb _ eq_refl
             ltac:(rewrite Hl; reflexivity) ltac:(simpl; lia) Hrem)).
  rewrite Hv, Hl.
  destruct (allocate_refused n 4 (skip 4 s) Hgr) as (x & Hx & E).
  exists x. split; [exact Hx|]. apply bind_throw. exact E.
Qed.

Lemma read_int_array_tag_ok (lenb : list byte) (elems : list (list byte))
    (s : MemoryInputStream) (tail : list byte) :
  length lenb = 4%nat -> be_value lenb = Z.of_nat (length elems) ->
  Forall (fun e => length e = 4%nat) elems ->
  remaining s = lenb ++ concat elems ++ tail ->
  grants (Z.of_nat (length elems)) 4 = true ->
  read_int_array_tag s
  = Ok (IntArrayTag (map (fun e => signed_value 4 (be_value e)) elems))
       (skip (length (lenb ++ concat elems)) s).
Proof.
  intros Hl Hv Hall Hrem Hgr. unfold read_int_array_tag.
  rewrite (bind_ok _ _ _ _ _ (read_be_ok uint32_t 4 s lenb _ eq_refl
             ltac:(rewrite Hl; reflexivity) ltac:(simpl; lia) Hrem)).
  rewrite Hv, (bind_ok _ _ _ _ _ (allocate_granted _ _ _ Hgr)), Nat2Z.id.
  rewrite (bind_ok _ _ _ _ _ (read_int_array_loop_ok elems [] _ tail Hall
             (remaining_skip s lenb _ Hrem))).
  unfold ret. rewrite skip_skip, <- length_app. reflexivity.
Qed.

End TwosComplement.

(** C7. For each width 1, 2, 4 and 8 (the instantiations of
    [read_simple_payload]) and each raw unsigned value of that width,
    [twos_complement_decode] returns minus (the bitwise complement of the raw
    value plus one) when bit [width*8-1] is set, and the raw value otherwise;
    byte [0xFF] read as a Byte is -1, bytes [0x80 0x00] read as a Short are
    -32768, bytes [0x7F 0xFF] read as a Short are 32767; and every element
    of an int array decodes to the big-endian two's-complement reading of its
    four bytes.  The array is read on a host that has storage for its
    elements; on any other host the reader throws [length_error] or
    [bad_alloc] right after the length. *)
Theorem twos_complement_decode_correct {host : Host}
    (k width : Z) (RT IT : ctype) (ctor : Z -> Tag) (raw : Z)
    (lenb : list byte) (elems : list (list byte)) (s : MemoryInputStream)
    (tail : list byte) :
  In (k, width, RT, IT, ctor) simple_int_kinds ->
  0 <= raw < 2 ^ (width * 8) ->
  length lenb = 4%nat -> be_value lenb = Z.of_nat (length elems) ->
  Forall (fun e => length e = 4%nat) elems ->
  remaining s = lenb ++ concat elems ++ tail ->
  twos_complement_decode width RT IT raw
  = (if Z.testbit raw (width * 8 - 1)
     then - (bitwise_complement width raw + 1) else raw)
  /\ - 2 ^ (width * 8 - 1) <= twos_complement_decode width RT IT raw < 2 ^ (width * 8 - 1)
  /\ read_simple_tag TAG_TYPE_BYTE (stream_of [255])
     = Ok (ByteTag (-1)) (skip 1 (stream_of [255]))
  /\ read_simple_tag TAG_TYPE_SHORT (stream_of [128; 0])
     = Ok (ShortTag (-32768)) (skip 2 (stream_of [128; 0]))
  /\ read_simple_tag TAG_TYPE_SHORT (stream_of [127; 255])
     = Ok (ShortTag 32767) (skip 2 (stream_of [127; 255]))
  /\ (if grants (Z.of_nat (length elems)) 4
      then read_int_array_tag s
           = Ok (IntArrayTag (map (fun e => signed_value 4 (be_value e)) elems))
                (skip (length (lenb ++ concat elems)) s)
      else exists x, (x = length_error \/ x = bad_alloc)
                     /\ read_int_array_tag s = Throw x (skip 4 s)).
Proof.
  intros Hin Hr Hl Hv Hall Hrem.
  destruct (simple_int_kinds_bits _ _ _ _ _ Hin) as (Hw & HR & HI & Hs & Hu).
  rewrite (decode_simple_int _ _ _ _ _ _ Hin Hr).
  split; [apply signed_value_complement; assumption|].
  split.
  { rewrite <- (cast_signed_value width RT) by assumption.
    pose proof (cast_in_range RT raw) as Hc. unfold in_range in Hc.
    rewrite Hs, HR in Hc. exact Hc. }
  repeat split; try reflexivity.
  destruct (grants (Z.of_nat (length elems)) 4) eqn:Hgr.
  - apply (read_int_array_tag_ok lenb elems s tail); assumption.
  - apply (read_int_array_tag_refused lenb (Z.of_nat (length elems)) s (concat elems ++ tail));
      assumption.
Qed.

Lemma twos_complement_decode_correct_witness :
  twos_complement_decode 4 int32_t uint32_t 4294967295 = -1
  /\ read_int_array_tag (host := ample_host)
       (stream_of [0; 0; 0; 2; 128; 0; 0; 0; 0; 0; 1; 0; 7])
     = Ok (IntArrayTag [-2147483648; 256])
          (skip 12 (stream_of [0; 0; 0; 2; 128; 0; 0; 0; 0; 0; 1; 0; 7])).
Proof.
  pose proof (twos_complement_decode_correct (host := ample_host)
                TAG_TYPE_INT 4 int32_t uint32_t IntTag 4294967295
                (map byte_of_Z [0; 0; 0; 2])
                [map byte_of_Z [128; 0; 0; 0]; map byte_of_Z [0; 0; 1; 0]]
                (stream_of [0; 0; 0; 2; 128; 0; 0; 0; 0; 0; 1; 0; 7])
                [byte_of_Z 7]) as H.
  destruct H as (H1 & _ & _ & _ & _ & H2).
  - simpl. auto.
  - simpl. lia.
  - reflexivity.
  - reflexivity.
  - repeat constructor.
  - reflexivity.
  - split; [exact H1 | exact H2].
Defined.

(** ** Decoding the simple kinds *)


Section Wire.

Context {host : Host}.

Lemma byte_val_of_Z (x : Z) : 0 <= x < 256 -> byte_val (byte_of_Z x) = x.
Proof.
  intros Hx. unfold byte_val, byte_of_Z.
  destruct (Byte.of_N (Z.to_N x)) as [b|] eqn:E.
  - apply Byte.to_of_N in E. rewrite E. lia.
  - apply Byte.of_N_None_iff in E. lia.
Qed.

Lemma encode_be_length (width : nat) (z : Z) : length (encode_be width z) = width.
Proof.
  revert z. induction width as [|w IH]; intros z; [reflexivity|].
  simpl. rewrite length_app, IH. simpl. lia.
Qed.

Lemma be_value_snoc (l : list byte) (b : byte) :
  be_value (l ++ [b]) = be_value l * 256 + byte_val b.
Proof. unfold be_value. rewrite fold_left_app. reflexivity. Qed.

Lemma be_value_encode_be (width : nat) (z : Z) :
  be_value (encode_be width z) = z mod 256 ^ Z.of_nat width.
Proof.
  revert z. induction width as [|w IH]; intros z.
  - simpl. rewrite Z.mod_1_r. reflexivity.
  - cbn [encode_be]. rewrite be_value_snoc, IH.
    rewrite byte_val_of_Z by (apply Z.mod_pos_bound; lia).
    rewrite Nat2Z.inj_succ, Z.pow_succ_r by lia.
    rewrite Z.rem_mul_r by (try lia; apply Z.pow_nonzero; lia). lia.
Qed.

Lemma be_value_encode_be_small (width : nat) (z : Z) :
  0 <= z < 256 ^ Z.of_nat width -> be_value (encode_be width z) = z.
Proof. intros H. rewrite be_value_encode_be. apply Z.mod_small. assumption. Qed.

(** A value in the signed range of [width] bytes is recovered from its
    encoding. *)
Lemma signed_value_encode_be (width : nat) (RT : ctype) (z : Z) :
  is_signed RT = true -> bits RT = Z.of_nat width * 8 -> in_range RT z ->
  signed_value (Z.of_nat width) (be_value (encode_be width z)) = z.
Proof.
  intros Hs Hb Hr. rewrite be_value_encode_be, pow256_of_nat.
  rewrite <- (cast_signed_value (Z.of_nat width) RT) by
    (try assumption; apply Z.mod_pos_bound; apply Z.pow_pos_nonneg; pose proof (bits_pos RT); lia).
  rewrite <- (cast_id RT z) at 2 by assumption.
  apply cast_ext. rewrite Hb. apply Z.mod_mod.
  apply Z.pow_nonzero; pose proof (bits_pos RT); lia.
Qed.

Lemma read_string_ok (str : Utf8String) (s : MemoryInputStream) (tail : list byte) :
  Z.of_nat (length (data str)) < 2 ^ 16 ->
  remaining s = encode_string str ++ tail ->
  read_string s = Ok str (skip (length (encode_string str)) s).
Proof.
  intros Hlen Hrem. unfold read_string, encode_string in *.
  rewrite <- app_assoc in Hrem.
  rewrite (bind_ok _ _ _ _ _ (read_be_ok uint16_t 2 s (encode_be 2 _) _ eq_refl
             ltac:(rewrite encode_be_length; reflexivity) ltac:(simpl; lia) Hrem)).
  rewrite be_value_encode_be_small by (simpl; lia).
  apply remaining_skip in Hrem.
  rewrite (bind_ok _ _ _ _ _ (read_ok _ _ _ Hrem)).
  unfold ret. rewrite skip_skip, <- length_app. destruct str. reflexivity.
Qed.

Lemma read_simple_payload_ok (k : Z) (width : nat) (RT IT : ctype) (ctor : Z -> Tag)
    (v : Z) (s : MemoryInputStream) (tail : list byte) :
  In (k, Z.of_nat width, RT, IT, ctor) simple_int_kinds ->
  in_range RT v ->
  remaining s = encode_be width v ++ tail ->
  read_simple_payload ctor RT IT (Z.of_nat width) s = Ok (ctor v) (skip width s).
Proof.
  intros Hin Hr Hrem.
  destruct (simple_int_kinds_bits _ _ _ _ _ Hin) as (Hw & HR & HI & Hs & Hu).
  unfold read_simple_payload.
  rewrite (bind_ok _ _ _ _ _ (read_be_ok IT (Z.of_nat width) s (encode_be width _) _ Hu
             ltac:(rewrite encode_be_length; reflexivity)
             ltac:(rewrite pow256_of_nat, HI; lia) Hrem)).
  unfold ret. rewrite encode_be_length. f_equal. f_equal.
  rewrite (decode_simple_int _ _ _ _ _ _ Hin)
    by (pose proof (be_value_bound (encode_be width v)) as Hbv;
        rewrite encode_be_length, pow256_of_nat in Hbv; exact Hbv).
  apply (signed_value_encode_be width RT); assumption.
Qed.

Lemma concat_encode_be_4 (vs : list Z) :
  Forall (fun e => length e = 4%nat) (map (encode_be 4) vs).
Proof.
  induction vs; simpl; constructor; [apply (encode_be_length 4) | assumption].
Qed.

(** A well-formed value of a simple kind is read back from its encoding, on
    a host that has storage for it. *)
Lemma read_simple_tag_ok (t : Tag) (s : MemoryInputStream) (tail : list byte) :
  is_container t = false -> decodable t ->
  remaining s = encode_payload t ++ tail ->
  read_simple_tag (kind_of t) s = Ok t (skip (length (encode_payload t)) s).
Proof.
  intros Hc [Hwf Hal] Hrem. destruct t; try discriminate; cbn [kind_of encode_payload] in *.
  - apply (read_simple_payload_ok TAG_TYPE_BYTE 1 int8_t uint8_t ByteTag value s tail);
      [simpl; auto | assumption | assumption].
  - apply (read_simple_payload_ok TAG_TYPE_SHORT 2 int16_t uint16_t ShortTag value s tail);
      [simpl; auto | assumption | assumption].
  - apply (read_simple_payload_ok TAG_TYPE_INT 4 int32_t uint32_t IntTag value s tail);
      [simpl; auto | assumption | assumption].
  - apply (read_simple_payload_ok TAG_TYPE_LONG 8 int64_t uint64_t LongTag value s tail);
      [simpl; auto 6 | assumption | assumption].
  - simpl in Hwf. unfold read_simple_tag, TAG_TYPE_FLOAT, read_float_tag.
    change 4 with (Z.of_nat 4). rewrite <- Hwf.
    rewrite (bind_ok _ _ _ _ _ (read_ok _ _ _ Hrem)). reflexivity.
  - simpl in Hwf. unfold read_simple_tag, TAG_TYPE_DOUBLE, read_float_tag.
    change 8 with (Z.of_nat 8). rewrite <- Hwf.
    rewrite (bind_ok _ _ _ _ _ (read_ok _ _ _ Hrem)). reflexivity.
  - simpl in Hwf. unfold read_simple_tag, TAG_TYPE_BYTE_ARRAY, read_byte_array_tag.
    rewrite <- app_assoc in Hrem.
    rewrite (bind_ok _ _ _ _ _ (read_be_ok uint32_t 4 s (encode_be 4 _) _ eq_refl
               ltac:(rewrite encode_be_length; reflexivity) ltac:(simpl; lia) Hrem)).
    rewrite be_value_encode_be_small by (simpl; lia).
    rewrite (bind_ok _ _ _ _ _ (allocate_granted _ _ _ Hal)).
    apply remaining_skip in Hrem.
    rewrite (bind_ok _ _ _ _ _ (read_ok _ _ _ Hrem)).
    unfold ret. rewrite skip_skip, <- length_app. reflexivity.
  - simpl in Hwf. unfold read_simple_tag, TAG_TYPE_STRING, read_string_tag.
    rewrite (bind_ok _ _ _ _ _ (read_string_ok _ _ _ Hwf Hrem)). reflexivity.
  - simpl in Hwf. destruct Hwf as [Hlen Hall].
    unfold read_simple_tag, TAG_TYPE_INT_ARRAY.
    rewrite <- app_assoc in Hrem.
    rewrite (read_int_array_tag_ok (encode_be 4 (Z.of_nat (length values)))
               (map (encode_be 4) values) s tail); try assumption.
    + f_equal. f_equal. rewrite map_map.
      rewrite <- (map_id values) at 2. apply map_ext_in. intros a Ha.
      apply (signed_value_encode_be 4 int32_t); [reflexivity | reflexivity |].
      rewrite Forall_forall in Hall. apply Hall. assumption.
    + apply encode_be_length.
    + rewrite length_map. apply be_value_encode_be_small. simpl. lia.
    + apply concat_encode_be_4.
    + rewrite length_map. exact Hal.
Qed.

End Wire.

(** ** The drive loop on well-formed input *)

Section Steps.

Context {host : Host}.

Lemma steps_process (n : nat) (e : Engine) (s : MemoryInputStream)
    (e' : Engine) (s' : MemoryInputStream) :
  steps n e s e' s' ->
  forall fuel, process_read_state (n + fuel) e s = process_read_state fuel e' s'.
Proof.
  induction 1 as [|n top rest root_tag s e1 s1 e2 s2 Hstep _ IH]; intros fuel.
  - reflexivity.
  - cbn [Nat.add process_read_state fst]. rewrite Hstep. apply IH.
Qed.

Lemma steps_trans (n m : nat) (e1 e2 e3 : Engine) (s1 s2 s3 : MemoryInputStream) :
  steps n e1 s1 e2 s2 -> steps m e2 s2 e3 s3 -> steps (n + m) e1 s1 e3 s3.
Proof.
  induction 1; intros H2; [exact H2|].
  cbn [Nat.add]. eapply steps_S; eauto.
Qed.

Lemma steps_one (top : TagReadState) (rest : IoReadState) (root_tag : RootTag)
    (s : MemoryInputStream) (e1 : Engine) (s1 : MemoryInputStream) :
  continue_read top (top :: rest, root_tag) s = Ok e1 s1 ->
  steps 1 (top :: rest, root_tag) s e1 s1.
Proof. intros H. eapply steps_S; [exact H | constructor]. Qed.

Lemma process_read_state_nil (fuel : nat) (root_tag : RootTag) (s : MemoryInputStream) :
  process_read_state fuel ([], root_tag) s = Some (Ok root_tag s).
Proof. destruct fuel; reflexivity. Qed.

(** More fuel does not change a result. *)
Lemma process_read_state_more (fuel extra : nat) (e : Engine) (s : MemoryInputStream)
    (r : outcome RootTag) :
  process_read_state fuel e s = Some r ->
  process_read_state (fuel + extra) e s = Some r.
Proof.
  revert e s. induction fuel as [|fuel IH]; intros [stk root_tag] s; destruct stk as [|top rest];
    cbn [process_read_state fst Nat.add]; try discriminate.
  - destruct extra; trivial.
  - trivial.
  - match goal with |- context [continue_read ?f ?e ?s0] =>
      destruct (continue_read f e s0) as [e' s'|x s'] end; [apply IH | trivial].
Qed.

End Steps.

Section Kinds.

Context {host : Host}.

Lemma kind_of_range (t : Tag) : 1 <= kind_of t <= 11.
Proof. destruct t; cbv; split; discriminate. Qed.

Lemma kind_of_class_range (T : TagClass) : 1 <= kind_of_class T <= 11.
Proof. destruct T; cbv; split; discriminate. Qed.

Lemma is_container_kind (t : Tag) :
  is_container t = ((kind_of t =? TAG_TYPE_COMPOUND) || (kind_of t =? TAG_TYPE_LIST)).
Proof. destruct t; reflexivity. Qed.

Lemma dynamic_cast_of_kind (T : TagClass) (t : Tag) :
  kind_of t = kind_of_class T -> dynamic_cast T t = true.
Proof. destruct T, t; try reflexivity; discriminate. Qed.

Lemma new_list_read_state_class (T : TagClass) (length : Z) :
  new_list_read_state (kind_of_class T) length
  = ret (ReadListTagState T (kind_of_class T) [] length).
Proof. destruct T; reflexivity. Qed.

Lemma read_kind_ok (k : Z) (s : MemoryInputStream) (tail : list byte) :
  0 <= k < 256 -> remaining s = encode_be 1 k ++ tail ->
  read_big_endian_unsigned_int uint8_t 1 s = Ok k (skip 1 s).
Proof.
  intros Hk Hrem.
  rewrite (read_be_ok uint8_t 1 s (encode_be 1 k) tail eq_refl eq_refl ltac:(simpl; lia) Hrem).
  rewrite be_value_encode_be_small by (simpl; lia). reflexivity.
Qed.

Lemma read_count_ok (n : nat) (s : MemoryInputStream) (tail : list byte) :
  Z.of_nat n < 2 ^ 32 -> remaining s = encode_be 4 (Z.of_nat n) ++ tail ->
  read_big_endian_unsigned_int uint32_t 4 s = Ok (Z.of_nat n) (skip 4 s).
Proof.
  intros Hn Hrem.
  rewrite (read_be_ok uint32_t 4 s (encode_be 4 (Z.of_nat n)) tail eq_refl eq_refl
             ltac:(simpl; lia) Hrem).
  rewrite be_value_encode_be_small by (simpl; lia). reflexivity.
Qed.

Lemma well_formed_list (T : TagClass) (vs : list Tag) :
  well_formed (ListTag T vs) ->
  Z.of_nat (length vs) < 2 ^ 32
  /\ Forall (fun v => elem_of_class T v /\ well_formed v) vs.
Proof.
  cbn [well_formed]. intros [Hlen Hall]. split; [exact Hlen|].
  induction vs as [|v vs IH]; constructor; [apply Hall | apply IH; [simpl in Hlen; lia | apply Hall]].
Qed.

Lemma well_formed_compound (es : list (Utf8String * Tag)) :
  well_formed (CompoundTag es) ->
  NoDup (map fst es)
  /\ Forall (fun e => Z.of_nat (length (data (fst e))) < 2 ^ 16 /\ well_formed (snd e)) es.
Proof.
  cbn [well_formed]. intros [Hnd Hall]. split; [exact Hnd|]. clear Hnd.
  induction es as [|e es IH]; constructor; [apply Hall | apply IH; apply Hall].
Qed.

Lemma allocatable_list (T : TagClass) (vs : list Tag) :
  allocatable (ListTag T vs) <-> Forall allocatable vs.
Proof.
  cbn [allocatable]. induction vs as [|v vs IH].
  - split; [constructor | trivial].
  - split.
    + intros [Hv Hvs]. constructor; [exact Hv | apply IH, Hvs].
    + intros H. inversion H; subst. split; [assumption | apply IH; assumption].
Qed.

Lemma allocatable_compound (es : list (Utf8String * Tag)) :
  allocatable (CompoundTag es) <-> Forall (fun e => allocatable (snd e)) es.
Proof.
  cbn [allocatable]. induction es as [|e es IH].
  - split; [constructor | trivial].
  - split.
    + intros [He Hes]. constructor; [exact He | apply IH, Hes].
    + intros H. inversion H; subst. split; [assumption | apply IH; assumption].
Qed.

Lemma decodable_list (T : TagClass) (vs : list Tag) :
  decodable (ListTag T vs) ->
  Z.of_nat (length vs) < 2 ^ 32
  /\ Forall (fun v => elem_of_class T v /\ decodable v) vs.
Proof.
  intros [Hwf Hal]. apply well_formed_list in Hwf. apply allocatable_list in Hal.
  destruct Hwf as [Hlen Hall]. split; [exact Hlen|]. clear Hlen.
  induction Hall as [|v vs [Hk Hv] _ IH]; constructor; inversion Hal; subst.
  - split; [exact Hk | split; assumption].
  - apply IH. assumption.
Qed.

Lemma decodable_compound (es : list (Utf8String * Tag)) :
  decodable (CompoundTag es) ->
  NoDup (map fst es)
  /\ Forall (fun e => Z.of_nat (length (data (fst e))) < 2 ^ 16 /\ decodable (snd e)) es.
Proof.
  intros [Hwf Hal]. apply well_formed_compound in Hwf. apply allocatable_compound in Hal.
  destruct Hwf as [Hnd Hall]. split; [exact Hnd|]. clear Hnd.
  induction Hall as [|e es [Hk He] _ IH]; constructor; inversion Hal; subst.
  - split; [exact Hk | split; assumption].
  - apply IH. assumption.
Qed.

End Kinds.

Section Maps.

Context {V : Type}.

Lemma map_find_app (k : Utf8String) (m m' : list (Utf8String * V)) :
  map_find k (m ++ m') = match map_find k m with Some v => Some v | None => map_find k m' end.
Proof.
  induction m as [|[k' v] m IH]; [reflexivity|]. simpl.
  destruct (Utf8String_eq_dec k k'); [reflexivity | exact IH].
Qed.

Lemma map_find_None (k : Utf8String) (m : list (Utf8String * V)) :
  map_find k m = None <-> ~ In k (map fst m).
Proof.
  induction m as [|[k' v] m IH]; simpl.
  - tauto.
  - destruct (Utf8String_eq_dec k k') as [->|Hne].
    + split; [discriminate | intros H; exfalso; apply H; left; reflexivity].
    + rewrite IH. split; [intros H [E|E]; [congruence | tauto] | tauto].
Qed.

Lemma map_find_Some_In (k : Utf8String) (v : V) (m : list (Utf8String * V)) :
  map_find k m = Some v -> In (k, v) m.
Proof.
  induction m as [|[k' v'] m IH]; simpl; [discriminate|].
  destruct (Utf8String_eq_dec k k') as [->|Hne].
  - intros [= ->]. left. reflexivity.
  - intros H. right. apply IH. exact H.
Qed.

(** An insert under a name that is already bound changes nothing. *)
Lemma map_insert_present (k : Utf8String) (v v0 : V) (m : list (Utf8String * V)) :
  map_find k m = Some v0 -> map_insert k v m = m.
Proof. unfold map_insert. intros ->. reflexivity. Qed.

Lemma map_insert_fresh (k : Utf8String) (v : V) (m : list (Utf8String * V)) :
  map_find k m = None -> map_insert k v m = m ++ [(k, v)].
Proof. unfold map_insert. intros ->. reflexivity. Qed.

Lemma map_find_insert_same (k : Utf8String) (v : V) (m : list (Utf8String * V)) :
  map_find k (map_insert k v m)
  = match map_find k m with Some v0 => Some v0 | None => Some v end.
Proof.
  unfold map_insert. destruct (map_find k m) as [v0|] eqn:E.
  - exact E.
  - rewrite map_find_app, E. simpl. destruct (Utf8String_eq_dec k k); congruence.
Qed.

Lemma map_find_insert_other (k k' : Utf8String) (v : V) (m : list (Utf8String * V)) :
  k <> k' -> map_find k (map_insert k' v m) = map_find k m.
Proof.
  intros Hne. unfold map_insert. destruct (map_find k' m); [reflexivity|].
  rewrite map_find_app. simpl. destruct (Utf8String_eq_dec k k'); [congruence|].
  destruct (map_find k m); reflexivity.
Qed.

Lemma map_insert_keys_NoDup (k : Utf8String) (v : V) (m : list (Utf8String * V)) :
  NoDup (map fst m) -> NoDup (map fst (map_insert k v m)).
Proof.
  intros Hnd. unfold map_insert. destruct (map_find k m) eqn:E; [exact Hnd|].
  rewrite map_app. simpl. apply map_find_None in E.
  apply NoDup_app; [exact Hnd | repeat constructor; simpl; tauto |].
  intros a Ha [<-|[]]. contradiction.
Qed.

End Maps.

Lemma insert_all_distinct (es acc : list (Utf8String * Tag)) :
  NoDup (map fst (acc ++ es)) -> insert_all es acc = acc ++ es.
Proof.
  revert acc. induction es as [|[k v] es IH]; intros acc Hnd.
  - simpl. rewrite app_nil_r. reflexivity.
  - unfold insert_all in *. cbn [fold_left fst snd].
    assert (Hfresh : map_find k acc = None).
    { apply map_find_None. rewrite map_app in Hnd. simpl in Hnd.
      apply NoDup_remove_2 in Hnd. intros Hin. apply Hnd. apply in_or_app. left. exact Hin. }
    rewrite (map_insert_fresh _ _ _ Hfresh), IH, <- app_assoc; [reflexivity|].
    rewrite <- app_assoc. exact Hnd.
Qed.

Section RoundTrip.

Context {host : Host}.

Lemma skip_eq (n m : nat) (s : MemoryInputStream) : n = m -> skip n s = skip m s.
Proof. intros ->. reflexivity. Qed.

Lemma encode_payload_compound (es : list (Utf8String * Tag)) :
  encode_payload (CompoundTag es)
  = concat (map encode_entry es) ++ encode_be 1 TAG_TYPE_END.
Proof.
  cbn [encode_payload]. f_equal. f_equal. apply map_ext. intros [n v]. reflexivity.
Qed.

(** The inline pass of a list frame over well-formed simple elements. *)
Lemma read_list_loop_ok (T : TagClass) (rest acc : list Tag)
    (s : MemoryInputStream) (tail : list byte) :
  kind_of_class T <> TAG_TYPE_LIST -> kind_of_class T <> TAG_TYPE_COMPOUND ->
  Forall (fun v => elem_of_class T v /\ decodable v) rest ->
  remaining s = concat (map encode_payload rest) ++ tail ->
  read_list_loop (length rest) T (kind_of_class T) acc s
  = Ok (acc ++ rest) (skip (length (concat (map encode_payload rest))) s).
Proof.
  intros HnL HnC Hall. revert acc s.
  induction Hall as [|v rest [Hk Hwf] Hall IH]; intros acc s Hrem.
  - simpl. rewrite app_nil_r, skip_0. reflexivity.
  - cbn [length read_list_loop map concat] in *. rewrite <- app_assoc in Hrem.
    unfold elem_of_class in Hk. rewrite <- Hk.
    assert (Hc : is_container v = false).
    { rewrite is_container_kind, Hk.
      destruct (Z.eqb_spec (kind_of_class T) TAG_TYPE_COMPOUND); [contradiction|].
      destruct (Z.eqb_spec (kind_of_class T) TAG_TYPE_LIST); [contradiction|]. reflexivity. }
    rewrite (bind_ok _ _ _ _ _ (read_simple_tag_ok v s _ Hc Hwf Hrem)).
    unfold list_add_tag at 1. rewrite (dynamic_cast_of_kind T v Hk).
    unfold bind at 1, ret at 1. rewrite Hk.
    rewrite IH by (apply (remaining_skip s _ _ Hrem)).
    rewrite skip_skip, <- length_app, <- app_assoc. reflexivity.
Qed.

(** The element-by-element cycle of a list frame over containers. *)
Lemma list_container_steps (T : TagClass) (rest : list Tag) :
  T = T_Tag \/ T = T_CompoundTag ->
  Forall (fun v => is_container v = true -> decodable v -> delivers v) rest ->
  Forall (fun v => elem_of_class T v /\ decodable v) rest ->
  forall (acc : list Tag) (s : MemoryInputStream) (tail : list byte)
         (parent : TagReadState) (stk : IoReadState) (root_tag : RootTag)
         (parent' : TagReadState) (root_tag' : RootTag),
    remaining s = concat (map encode_payload rest) ++ tail ->
    (forall s0, add_tag parent (ListTag T (acc ++ rest)) root_tag s0
                = Ok (parent', root_tag') s0) ->
    exists n,
      steps n (ReadListTagState T (kind_of_class T) acc (Z.of_nat (length rest))
                 :: parent :: stk, root_tag) s
              (parent' :: stk, root_tag')
              (skip (length (concat (map encode_payload rest))) s).
Proof.
  intros HT HIH Hall.
  assert (Hcont : (kind_of_class T =? TAG_TYPE_COMPOUND) || (kind_of_class T =? TAG_TYPE_LIST) = true)
    by (destruct HT as [-> | ->]; reflexivity).
  revert HIH. induction Hall as [|v rest [Hk Hwf] Hall IH]; intros HIH acc s tail parent stk
    root_tag parent' root_tag' Hrem Hadd.
  - exists 1%nat. simpl. rewrite skip_0. apply steps_one.
    cbn [continue_read]. rewrite Hcont. cbn [Z.eqb].
    unfold finish_tag. cbn [fst snd].
    rewrite app_nil_r in Hadd.
    rewrite (bind_ok _ _ _ _ _ (Hadd s)). reflexivity.
  - inversion HIH as [|v' rest' HIHv HIHrest]; subst.
    cbn [map concat length] in *. rewrite <- app_assoc in Hrem.
    unfold elem_of_class in Hk.
    assert (Hc : is_container v = true) by (rewrite is_container_kind, Hk; exact Hcont).
    set (self := ReadListTagState T (kind_of_class T) acc (Z.of_nat (S (length rest)) - 1)).
    destruct (HIHv Hc Hwf s _ self (parent :: stk) root_tag
                (ReadListTagState T (kind_of_class T) (acc ++ [v]) (Z.of_nat (S (length rest)) - 1))
                root_tag Hrem) as (frame & s1 & n1 & Hnew & Hsteps).
    { intros s0. unfold self. cbn [add_tag]. unfold list_add_tag.
      rewrite (dynamic_cast_of_kind T v Hk). reflexivity. }
    subst self.
    replace (Z.of_nat (S (length rest)) - 1) with (Z.of_nat (length rest)) in * by lia.
    destruct (IH HIHrest (acc ++ [v]) (skip (length (encode_payload v)) s) tail parent stk
                root_tag parent' root_tag' (remaining_skip s _ _ Hrem)) as (n2 & Hsteps2).
    { intros s0. rewrite <- app_assoc. apply Hadd. }
    exists (1 + (n1 + n2))%nat.
    eapply steps_S.
    + cbn [continue_read]. rewrite Hcont.
      destruct (Z.eqb_spec (Z.of_nat (S (length rest))) 0) as [E|_]; [lia|].
      rewrite <- Hk. rewrite (bind_ok _ _ _ _ _ Hnew). rewrite Hk. reflexivity.
    + cbn [fst snd tl].
      replace (Z.of_nat (S (length rest)) - 1) with (Z.of_nat (length rest)) by lia.
      eapply steps_trans; [exact Hsteps|].
      rewrite skip_skip, <- length_app in Hsteps2. exact Hsteps2.
Qed.

(** The entry-by-entry cycle of a compound frame. *)
Lemma compound_steps (rest : list (Utf8String * Tag)) :
  Forall (fun e => is_container (snd e) = true -> decodable (snd e) -> delivers (snd e)) rest ->
  Forall (fun e => Z.of_nat (length (data (fst e))) < 2 ^ 16 /\ decodable (snd e)) rest ->
  forall (acc : list (Utf8String * Tag)) (nm : Utf8String)
         (s : MemoryInputStream) (tail : list byte)
         (parent : TagReadState) (stk : IoReadState) (root_tag : RootTag)
         (parent' : TagReadState) (root_tag' : RootTag),
    remaining s = (concat (map encode_entry rest) ++ encode_be 1 TAG_TYPE_END) ++ tail ->
    (forall s0, add_tag parent (CompoundTag (insert_all rest acc)) root_tag s0
                = Ok (parent', root_tag') s0) ->
    exists n,
      steps n (ReadCompoundTagState acc nm :: parent :: stk, root_tag) s
              (parent' :: stk, root_tag')
              (skip (length (concat (map encode_entry rest) ++ encode_be 1 TAG_TYPE_END)) s).
Proof.
  intros HIH Hall. revert HIH.
  induction Hall as [|[k v] rest [Hlen Hwf] Hall IH]; intros HIH acc nm s tail parent stk
    root_tag parent' root_tag' Hrem Hadd.
  - exists 1%nat. cbn [map concat app] in *. apply steps_one.
    cbn [continue_read].
    rewrite (bind_ok _ _ _ _ _ (read_kind_ok TAG_TYPE_END s tail ltac:(cbv; split; congruence) Hrem)).
    cbn [Z.eqb TAG_TYPE_END]. unfold finish_tag. cbn [fst snd].
    rewrite (bind_ok _ _ _ _ _ (Hadd _)). reflexivity.
  - inversion HIH as [|e' rest' HIHv HIHrest]; subst. cbn [fst snd] in *.
    cbn [map concat] in *. unfold encode_entry at 1 in Hrem. cbn [fst snd] in Hrem.
    rewrite <- !app_assoc in Hrem.
    pose proof (kind_of_range v) as Hkr.
    pose proof (read_kind_ok (kind_of v) s _ ltac:(lia) Hrem) as Hkind.
    pose proof (remaining_skip s _ _ Hrem) as Hrem1. rewrite encode_be_length in Hrem1.
    pose proof (read_string_ok k _ _ Hlen Hrem1) as Hname.
    pose proof (remaining_skip _ _ _ Hrem1) as Hrem2.
    assert (Hne : (kind_of v =? TAG_TYPE_END) = false)
      by (apply Z.eqb_neq; unfold TAG_TYPE_END; lia).
    set (s2 := skip (length (encode_string k)) (skip 1 s)) in *.
    assert (Hfinal : skip (length ((encode_entry (k, v) ++ concat (map encode_entry rest))
                                   ++ encode_be 1 TAG_TYPE_END)) s
                     = skip (length (concat (map encode_entry rest) ++ encode_be 1 TAG_TYPE_END))
                            (skip (length (encode_payload v)) s2)).
    { unfold s2. rewrite !skip_skip. apply skip_eq.
      unfold encode_entry at 1. cbn [fst snd]. rewrite !length_app, encode_be_length. lia. }
    rewrite Hfinal.
    destruct (is_container v) eqn:Hc.
    + destruct (HIHv eq_refl Hwf s2 _ (ReadCompoundTagState acc k) (parent :: stk) root_tag
                  (ReadCompoundTagState (map_insert k v acc) k) root_tag Hrem2
                  ltac:(intros; reflexivity)) as (frame & s3 & n1 & Hnew & Hsteps).
      destruct (IH HIHrest (map_insert k v acc) k (skip (length (encode_payload v)) s2) tail
                  parent stk root_tag parent' root_tag'
                  ltac:(rewrite <- app_assoc; apply (remaining_skip s2 _ _ Hrem2)) Hadd)
        as (n2 & Hsteps2).
      exists (1 + (n1 + n2))%nat. eapply steps_S.
      * cbn [continue_read]. rewrite (bind_ok _ _ _ _ _ Hkind), Hne.
        rewrite (bind_ok _ _ _ _ _ Hname).
        rewrite <- is_container_kind, Hc.
        rewrite (bind_ok _ _ _ _ _ Hnew). reflexivity.
      * cbn [fst snd tl]. eapply steps_trans; [exact Hsteps | exact Hsteps2].
    + destruct (IH HIHrest (map_insert k v acc) k (skip (length (encode_payload v)) s2) tail
                  parent stk root_tag parent' root_tag'
                  ltac:(rewrite <- app_assoc; apply (remaining_skip s2 _ _ Hrem2)) Hadd)
        as (n2 & Hsteps2).
      exists (1 + n2)%nat. eapply steps_S.
      * cbn [continue_read]. rewrite (bind_ok _ _ _ _ _ Hkind), Hne.
        rewrite (bind_ok _ _ _ _ _ Hname).
        rewrite <- is_container_kind, Hc.
        rewrite (bind_ok _ _ _ _ _ (read_simple_tag_ok v s2 _ Hc Hwf Hrem2)). reflexivity.
      * cbn [fst snd tl]. exact Hsteps2.
Qed.

(** Every well-formed container the host has storage for is delivered to
    the frame beneath it. *)
Lemma deliver_all (t : Tag) : is_container t = true -> decodable t -> delivers t.
Proof.
  induction t as [| | | | | | | |T vs IH|es IH|] using Tag_nested_ind; try discriminate;
    intros _ Hwf s tail parent stk root_tag parent' root_tag' Hrem Hadd.
  - apply decodable_list in Hwf. destruct Hwf as [Hlen Hall].
    cbn [encode_payload kind_of] in *. rewrite <- !app_assoc in Hrem.
    pose proof (kind_of_class_range T) as Hkr.
    pose proof (read_kind_ok (kind_of_class T) s _ ltac:(lia) Hrem) as Hkind.
    pose proof (remaining_skip s _ _ Hrem) as Hrem1. rewrite encode_be_length in Hrem1.
    pose proof (read_count_ok _ _ _ Hlen Hrem1) as Hcount.
    pose proof (remaining_skip _ _ _ Hrem1) as Hrem2. rewrite encode_be_length, skip_skip in Hrem2.
    rewrite skip_skip in Hcount.
    assert (Hnew : new_read_state_for TAG_TYPE_LIST s
                   = Ok (ReadListTagState T (kind_of_class T) [] (Z.of_nat (length vs)))
                        (skip (1 + 4) s)).
    { unfold new_read_state_for. cbn [Z.eqb TAG_TYPE_LIST TAG_TYPE_COMPOUND Pos.eqb].
      rewrite (bind_ok _ _ _ _ _ Hkind), (bind_ok _ _ _ _ _ Hcount).
      rewrite new_list_read_state_class. reflexivity. }
    assert (Hskip : forall n, skip n (skip (1 + 4) s) = skip (1 + 4 + n) s)
      by (intros; apply skip_skip).
    assert (Hfinal : skip (length (encode_be 1 (kind_of_class T)
                                   ++ encode_be 4 (Z.of_nat (length vs))
                                   ++ concat (map encode_payload vs))) s
                     = skip (length (concat (map encode_payload vs))) (skip (1 + 4) s)).
    { rewrite skip_skip. apply skip_eq. rewrite !length_app, !encode_be_length. lia. }
    rewrite Hfinal.
    destruct (Z.eq_dec (kind_of_class T) TAG_TYPE_LIST) as [EL|NL];
      [|destruct (Z.eq_dec (kind_of_class T) TAG_TYPE_COMPOUND) as [EC|NC]].
    + destruct (list_container_steps T vs ltac:(left; destruct T; try discriminate; reflexivity)
                  IH Hall [] _ tail parent stk root_tag parent' root_tag' Hrem2 Hadd)
        as (n & Hsteps).
      eauto 6.
    + destruct (list_container_steps T vs ltac:(right; destruct T; try discriminate; reflexivity)
                  IH Hall [] _ tail parent stk root_tag parent' root_tag' Hrem2 Hadd)
        as (n & Hsteps).
      eauto 6.
    + exists (ReadListTagState T (kind_of_class T) [] (Z.of_nat (length vs))), (skip (1 + 4) s), 1%nat.
      split; [exact Hnew|]. apply steps_one. cbn [continue_read].
      destruct (Z.eqb_spec (kind_of_class T) TAG_TYPE_COMPOUND); [contradiction|].
      destruct (Z.eqb_spec (kind_of_class T) TAG_TYPE_LIST); [contradiction|].
      cbn [orb]. rewrite Nat2Z.id.
      rewrite (bind_ok _ _ _ _ _ (read_list_loop_ok T vs [] _ tail NL NC Hall Hrem2)).
      unfold finish_tag. cbn [fst snd app].
      rewrite (bind_ok _ _ _ _ _ (Hadd _)). reflexivity.
  - apply decodable_compound in Hwf. destruct Hwf as [Hnd Hall].
    rewrite encode_payload_compound in *.
    assert (Hins : insert_all es [] = es) by (apply insert_all_distinct; exact Hnd).
    destruct (compound_steps es IH Hall [] {| data := [] |} s tail parent stk root_tag
                parent' root_tag' Hrem ltac:(rewrite Hins; exact Hadd)) as (n & Hsteps).
    exists (ReadCompoundTagState [] {| data := [] |}), s, n. split; [reflexivity | exact Hsteps].
Qed.

End RoundTrip.

(** ** Termination of the drive loop *)

Section Consumption.

Context {host : Host}.

Lemma consumes_weaken {A} (m : M A) (lo lo' : nat) :
  (lo' <= lo)%nat -> consumes m lo -> consumes m lo'.
Proof. intros Hle H s a s' E. specialize (H s a s' E). lia. Qed.

Lemma consumes_ret {A} (a : A) : consumes (ret a) 0.
Proof. intros s a' s' [= _ <-]. lia. Qed.

Lemma consumes_throw {A} (e : exn) (lo : nat) : consumes (@throw A e) lo.
Proof. intros s a s' E. discriminate. Qed.

Lemma consumes_bind {A B} (m : M A) (f : A -> M B) (a b : nat) :
  consumes m a -> (forall x, consumes (f x) b) -> consumes (bind m f) (a + b).
Proof.
  intros Hm Hf s y s' E. unfold bind in E.
  destruct (m s) as [x s1|] eqn:E1; [|discriminate].
  specialize (Hm _ _ _ E1). specialize (Hf x _ _ _ E). lia.
Qed.

Lemma consumes_read (size : Z) : consumes (read size) (Z.to_nat size).
Proof.
  intros s a s'. unfold read. rewrite <- remaining_length.
  destruct (Z.ltb_spec (Z.of_nat (length (remaining s))) size); [discriminate|].
  intros [= _ <-]. rewrite !remaining_length. unfold m_size. simpl.
  rewrite remaining_length in *. unfold m_size in *. lia.
Qed.

Lemma consumes_read_be (T : ctype) (size : Z) :
  consumes (read_big_endian_unsigned_int T size) (Z.to_nat size).
Proof.
  unfold read_big_endian_unsigned_int.
  replace (Z.to_nat size) with (Z.to_nat size + 0)%nat by lia.
  apply consumes_bind; [apply consumes_read | intros; apply consumes_ret].
Qed.

Lemma consumes_read_string : consumes read_string 2.
Proof.
  unfold read_string. change 2%nat with (Z.to_nat 2 + 0)%nat.
  apply consumes_bind; [apply consumes_read_be|].
  intros x. change 0%nat with (0 + 0)%nat.
  apply consumes_bind; [eapply consumes_weaken; [|apply consumes_read]; lia|].
  intros; apply consumes_ret.
Qed.

Lemma consumes_0 {A} (m : M A) (lo : nat) : consumes m lo -> consumes m 0.
Proof. apply consumes_weaken. lia. Qed.

Lemma consumes_bind_0 {A B} (m : M A) (f : A -> M B) :
  consumes m 0 -> (forall x, consumes (f x) 0) -> consumes (bind m f) 0.
Proof. intros. change 0%nat with (0 + 0)%nat. apply consumes_bind; assumption. Qed.

Lemma consumes_read_int_array_loop (n : nat) (values : list Z) :
  consumes (read_int_array_loop n values) 0.
Proof.
  revert values. induction n as [|n IH]; intros values; simpl.
  - apply consumes_ret.
  - apply consumes_bind_0; [eapply consumes_0, consumes_read_be | intros; apply IH].
Qed.

Lemma consumes_allocate (n size : Z) : consumes (allocate n size) 0.
Proof.
  intros s a s' E. unfold allocate in E.
  destruct (n =? 0); [injection E as _ <-; lia|].
  destruct (max_bytes <? n * size); [discriminate|].
  destruct (can_allocate (n * size)); [injection E as _ <-; lia | discriminate].
Qed.

Lemma consumes_read_simple_tag (tag_type : Z) : consumes (read_simple_tag tag_type) 0.
Proof.
  unfold read_simple_tag.
  repeat match goal with
         | |- consumes (match ?x with _ => _ end) _ => destruct x
         end;
    try apply consumes_throw;
    unfold read_simple_payload, read_float_tag, read_byte_array_tag, read_string_tag,
      read_int_array_tag;
    repeat first [ apply consumes_bind_0; [|intros]
                 | apply consumes_ret
                 | eapply consumes_0, consumes_read_be
                 | eapply consumes_0, consumes_read
                 | eapply consumes_0, consumes_read_string
                 | apply consumes_allocate
                 | apply consumes_read_int_array_loop ].
Qed.

Lemma consumes_list_add_tag (T : TagClass) (l : list Tag) (t : Tag) :
  consumes (list_add_tag T l t) 0.
Proof.
  unfold list_add_tag. destruct (dynamic_cast T t); [apply consumes_ret | apply consumes_throw].
Qed.

Lemma consumes_read_list_loop (n : nat) (T : TagClass) (k : Z) (l : list Tag) :
  consumes (read_list_loop n T k l) 0.
Proof.
  revert l. induction n as [|n IH]; intros l; simpl.
  - apply consumes_ret.
  - apply consumes_bind_0; [apply consumes_read_simple_tag | intros t].
    apply consumes_bind_0; [apply consumes_list_add_tag | intros; apply IH].
Qed.

(** [add_tag] does not touch the stream. *)
Lemma add_tag_stream (frame : TagReadState) (t : Tag) (root_tag : RootTag)
    (s : MemoryInputStream) (r : TagReadState * RootTag) (s' : MemoryInputStream) :
  add_tag frame t root_tag s = Ok r s' -> s' = s.
Proof.
  destruct frame; cbn [add_tag]; unfold ret, bind, list_add_tag, throw.
  - intros [= _ <-]. reflexivity.
  - intros [= _ <-]. reflexivity.
  - destruct (dynamic_cast T t); [intros [= _ <-]; reflexivity | discriminate].
Qed.

(** What [finish_tag] returns: the stack without its top frame, over the
    same stream. *)
Lemma finish_tag_inv (t : Tag) (top : TagReadState) (rest : IoReadState)
    (root_tag : RootTag) (s : MemoryInputStream) (e' : Engine) (s' : MemoryInputStream) :
  finish_tag t (top :: rest, root_tag) s = Ok e' s' ->
  s' = s /\ length (fst e') = length rest.
Proof.
  unfold finish_tag. cbn [fst snd]. destruct rest as [|below rest']; [discriminate|].
  unfold bind. destruct (add_tag below t root_tag s) as [r s1|] eqn:E; [|discriminate].
  apply add_tag_stream in E. subst s1. intros [= <- <-]. split; reflexivity.
Qed.

(** What [new_read_state_for] returns: a compound frame for free, or a list
    frame for five bytes. *)
Lemma new_read_state_for_inv (tag_type : Z) (s : MemoryInputStream)
    (frame : TagReadState) (s' : MemoryInputStream) :
  new_read_state_for tag_type s = Ok frame s' ->
  (s' = s /\ exists m nm, frame = ReadCompoundTagState m nm)
  \/ (length (remaining s') + 5 <= length (remaining s))%nat.
Proof.
  unfold new_read_state_for.
  destruct (tag_type =? TAG_TYPE_COMPOUND).
  - intros [= <- <-]. left. eauto.
  - destruct (tag_type =? TAG_TYPE_LIST); [|discriminate].
    intros H. right. revert H.
    apply (consumes_bind _ _ 1 4 (consumes_read_be uint8_t 1)).
    intros x. change 4%nat with (4 + 0)%nat.
    apply consumes_bind; [apply (consumes_read_be uint32_t 4)|].
    intros y. unfold new_list_read_state.
    repeat match goal with
           | |- consumes (match ?x with _ => _ end) _ => destruct x
           end; first [apply consumes_ret | apply consumes_throw].
Qed.

End Consumption.

Section Termination.

Context {host : Host}.

Lemma top_weight_le (stk : IoReadState) : (top_weight stk <= 3)%nat.
Proof. destruct stk as [|[] ?]; simpl; lia. Qed.

Lemma potential_after_finish (t : Tag) (top : TagReadState) (rest : IoReadState)
    (root_tag : RootTag) (s : MemoryInputStream) (e' : Engine) (s' : MemoryInputStream) :
  finish_tag t (top :: rest, root_tag) s = Ok e' s' ->
  (potential e' s' + 2 <= 4 * length (remaining s) + 2 * length (top :: rest) + 3)%nat.
Proof.
  intros H. apply finish_tag_inv in H. destruct H as [-> Hlen].
  unfold potential. rewrite Hlen. pose proof (top_weight_le (fst e')). simpl. lia.
Qed.

(** One iteration of the drive loop lowers the measure. *)
Lemma continue_read_potential (top : TagReadState) (rest : IoReadState)
    (root_tag : RootTag) (s : MemoryInputStream) (e' : Engine) (s' : MemoryInputStream) :
  continue_read top (top :: rest, root_tag) s = Ok e' s' ->
  (potential e' s' < potential (top :: rest, root_tag) s)%nat.
Proof.
  destruct top as [|m_tag nm|T k l r]; cbn [continue_read].
  - intros [= <- <-]. unfold potential. cbn [fst snd tl length top_weight].
    pose proof (top_weight_le rest). lia.
  - unfold bind at 1.
    destruct (read_big_endian_unsigned_int uint8_t 1 s) as [id s1|] eqn:E1; [|discriminate].
    apply (consumes_read_be uint8_t 1) in E1. change (Z.to_nat 1) with 1%nat in E1.
    destruct (id =? TAG_TYPE_END).
    + intros H. apply potential_after_finish in H.
      unfold potential at 2. cbn [fst top_weight length] in *. lia.
    + unfold bind at 1.
      destruct (read_string s1) as [next_name s2|] eqn:E2; [|discriminate].
      apply consumes_read_string in E2.
      destruct ((id =? TAG_TYPE_COMPOUND) || (id =? TAG_TYPE_LIST)).
      * unfold bind at 1.
        destruct (new_read_state_for id s2) as [child s3|] eqn:E3; [|discriminate].
        intros [= <- <-].
        assert (length (remaining s3) <= length (remaining s2))%nat
          by (apply new_read_state_for_inv in E3; destruct E3 as [[-> _]|]; lia).
        unfold potential. cbn [fst snd tl length].
        pose proof (top_weight_le (child :: ReadCompoundTagState m_tag next_name :: rest)) as Hw.
        revert Hw. generalize (top_weight (child :: ReadCompoundTagState m_tag next_name :: rest)).
        intros w Hw. cbn [top_weight]. lia.
      * unfold bind at 1.
        destruct (read_simple_tag id s2) as [t s3|] eqn:E3; [|discriminate].
        apply consumes_read_simple_tag in E3.
        intros [= <- <-]. unfold potential. cbn [fst snd tl length top_weight]. lia.
  - destruct ((k =? TAG_TYPE_COMPOUND) || (k =? TAG_TYPE_LIST)).
    + destruct (r =? 0).
      * intros H. apply potential_after_finish in H.
        unfold potential at 2. cbn [fst top_weight length] in *. lia.
      * unfold bind at 1.
        destruct (new_read_state_for k s) as [child s1|] eqn:E1; [|discriminate].
        intros [= <- <-]. unfold potential. cbn [fst snd tl length].
        apply new_read_state_for_inv in E1.
        destruct E1 as [[-> (m & nm & ->)]|Hfive].
        -- cbn [top_weight]. lia.
        -- pose proof (top_weight_le (child :: ReadListTagState T k l (r - 1) :: rest)) as Hw.
           revert Hw. generalize (top_weight (child :: ReadListTagState T k l (r - 1) :: rest)).
           intros w Hw. cbn [top_weight]. lia.
    + unfold bind at 1.
      destruct (read_list_loop (Z.to_nat r) T k l s) as [values s1|] eqn:E1; [|discriminate].
      apply consumes_read_list_loop in E1.
      intros H. apply potential_after_finish in H.
      unfold potential at 2. cbn [fst top_weight length] in *. lia.
Qed.

(** With fuel for the measure, the drive loop returns or throws. *)
Lemma process_read_state_terminates (fuel : nat) (e : Engine) (s : MemoryInputStream) :
  (potential e s <= fuel)%nat -> exists r, process_read_state fuel e s = Some r.
Proof.
  revert e s. induction fuel as [|fuel IH]; intros [stk root_tag] s Hpot;
    destruct stk as [|top rest]; cbn [process_read_state fst]; eauto.
  - unfold potential in Hpot. cbn [fst length] in Hpot. lia.
  - match goal with |- context [continue_read ?f ?e ?s0] =>
      destruct (continue_read f e s0) as [e' s'|x] eqn:E end; [|eauto].
    apply IH. apply continue_read_potential in E.
    unfold potential in *. cbn [fst] in *. lia.
Qed.

Lemma process_read_state_stable (e : Engine) (s : MemoryInputStream) :
  exists r, forall fuel, (potential e s <= fuel)%nat -> process_read_state fuel e s = Some r.
Proof.
  destruct (process_read_state_terminates (potential e s) e s (le_n _)) as [r Hr].
  exists r. intros fuel Hle.
  replace fuel with (potential e s + (fuel - potential e s))%nat by lia.
  apply process_read_state_more. exact Hr.
Qed.

Lemma read_nbt_terminates (s : MemoryInputStream) (fuel : nat) :
  (fuel_bound s <= fuel)%nat -> exists r, read_nbt fuel s = Some r.
Proof.
  intros Hfuel. unfold read_nbt, fuel_bound in *.
  unfold bind at 1.
  destruct (read_big_endian_unsigned_int uint8_t 1 s) as [id s1|] eqn:E1; [|eauto].
  apply (consumes_read_be uint8_t 1) in E1.
  unfold bind at 1.
  destruct (read_string s1) as [nm s2|] eqn:E2; [|eauto].
  apply consumes_read_string in E2. unfold ret.
  destruct ((id =? TAG_TYPE_LIST) || (id =? TAG_TYPE_COMPOUND)); [|eauto].
  destruct (new_read_state_for id s2) as [frame s3|] eqn:E3; [|eauto].
  assert (length (remaining s3) <= length (remaining s2))%nat
    by (apply new_read_state_for_inv in E3; destruct E3 as [[-> _]|]; lia).
  apply process_read_state_terminates.
  unfold potential. cbn [fst length].
  pose proof (top_weight_le [frame; ReadRootTagState]). lia.
Qed.

Lemma read_nbt_more (fuel extra : nat) (s : MemoryInputStream) (r : outcome RootTag) :
  read_nbt fuel s = Some r -> read_nbt (fuel + extra) s = Some r.
Proof.
  unfold read_nbt.
  destruct ((tag_type_id <- read_big_endian_unsigned_int uint8_t 1 ;;
             root_name <- read_string ;; ret (tag_type_id, root_name)) s)
    as [[id nm] s1|]; [|trivial].
  destruct ((id =? TAG_TYPE_LIST) || (id =? TAG_TYPE_COMPOUND)); [|trivial].
  destruct (new_read_state_for id s1); [|trivial].
  apply process_read_state_more.
Qed.

(** With at least [fuel_bound] iterations allowed, the result of [read_nbt]
    does not depend on the allowance. *)
Lemma read_nbt_stable (s : MemoryInputStream) :
  exists r, forall fuel, (fuel_bound s <= fuel)%nat -> read_nbt fuel s = Some r.
Proof.
  destruct (read_nbt_terminates s (fuel_bound s) (le_n _)) as [r Hr].
  exists r. intros fuel Hle.
  replace fuel with (fuel_bound s + (fuel - fuel_bound s))%nat by lia.
  apply read_nbt_more. exact Hr.
Qed.

Lemma read_nbt_eventually (s : MemoryInputStream) (n : nat) (r : outcome RootTag) :
  (forall fuel, (n <= fuel)%nat -> read_nbt fuel s = Some r) ->
  forall fuel, (fuel_bound s <= fuel)%nat -> read_nbt fuel s = Some r.
Proof.
  intros Hn fuel Hle.
  destruct (read_nbt_stable s) as [r' Hr'].
  pose proof (Hr' fuel Hle) as H1.
  pose proof (Hr' (Nat.max n (fuel_bound s)) ltac:(lia)) as H2.
  rewrite (Hn (Nat.max n (fuel_bound s)) ltac:(lia)) in H2.
  congruence.
Qed.

End Termination.

(** C10. On every finite input, well-formed or not, [read_nbt] terminates:
    within [fuel_bound] iterations the drive loop has emptied the stack or
    thrown, and a larger allowance gives the same result.  The same holds for
    the drive loop started on any frame stack, with [potential] as the bound. *)
Theorem read_nbt_total {host : Host} (data0 : list byte) (e : Engine) (s : MemoryInputStream) :
  (exists r : outcome RootTag,
     forall fuel, (fuel_bound (MemoryInputStream_new data0) <= fuel)%nat ->
       read_nbt fuel (MemoryInputStream_new data0) = Some r)
  /\ (exists r : outcome RootTag,
        forall fuel, (potential e s <= fuel)%nat -> process_read_state fuel e s = Some r).
Proof.
  split; [apply read_nbt_stable | apply process_read_state_stable].
Qed.

Lemma read_nbt_total_witness :
  exists r : outcome RootTag,
    read_nbt (host := small_host) 64
      (stream_of [10; 0; 0; 9; 0; 1; 97; 10; 255; 255; 255; 255; 0; 0]) = Some r.
Proof.
  destruct (read_nbt_total (host := small_host) (map byte_of_Z [10; 0; 0; 9; 0; 1; 97; 10; 255; 255; 255; 255; 0; 0])
              ([], {| name := {| data := [] |}; tag := None |}) (stream_of []))
    as [[r Hr] _].
  exists r. apply Hr. vm_compute. lia.
Defined.

(** ** Reading back an encoded stream *)

Section ReadBack.

Context {host : Host}.

Lemma remaining_new (data0 : list byte) : remaining (MemoryInputStream_new data0) = data0.
Proof. reflexivity. Qed.

Lemma read_root_header (k : Z) (root_name : Utf8String) (s : MemoryInputStream)
    (tail : list byte) :
  0 <= k < 256 -> Z.of_nat (length (data root_name)) < 2 ^ 16 ->
  remaining s = encode_be 1 k ++ encode_string root_name ++ tail ->
  (tag_type_id <- read_big_endian_unsigned_int uint8_t 1 ;;
   nm <- read_string ;; ret (tag_type_id, nm)) s
  = Ok (k, root_name) (skip (1 + length (encode_string root_name)) s)
  /\ remaining (skip (1 + length (encode_string root_name)) s) = tail.
Proof.
  intros Hk Hlen Hrem.
  pose proof (read_kind_ok k s _ Hk Hrem) as Hkind.
  pose proof (remaining_skip s _ _ Hrem) as Hrem1. rewrite encode_be_length in Hrem1.
  pose proof (read_string_ok root_name _ _ Hlen Hrem1) as Hname.
  pose proof (remaining_skip _ _ _ Hrem1) as Hrem2. rewrite skip_skip in *.
  split; [|exact Hrem2].
  rewrite (bind_ok _ _ _ _ _ Hkind), (bind_ok _ _ _ _ _ Hname). reflexivity.
Qed.

(** A root of a kind other than List and Compound: the header is read and
    nothing else. *)
Lemma read_nbt_other_root (k : Z) (root_name : Utf8String) (s : MemoryInputStream)
    (tail : list byte) (fuel : nat) :
  0 <= k < 256 -> k <> TAG_TYPE_LIST -> k <> TAG_TYPE_COMPOUND ->
  Z.of_nat (length (data root_name)) < 2 ^ 16 ->
  remaining s = encode_be 1 k ++ encode_string root_name ++ tail ->
  read_nbt fuel s
  = Some (Ok {| name := root_name; tag := None |}
             (skip (1 + length (encode_string root_name)) s)).
Proof.
  intros Hk HnL HnC Hlen Hrem. unfold read_nbt.
  destruct (read_root_header k root_name s tail Hk Hlen Hrem) as [-> _].
  destruct (Z.eqb_spec k TAG_TYPE_LIST); [contradiction|].
  destruct (Z.eqb_spec k TAG_TYPE_COMPOUND); [contradiction|]. reflexivity.
Qed.

(** A root container whose frame is delivered to the root frame: the drive
    loop stores it in the root tag and empties the stack. *)
Lemma read_nbt_steps (k : Z) (root_name : Utf8String) (s : MemoryInputStream)
    (tail : list byte) (t : Tag) (frame : TagReadState) (s1 s_end : MemoryInputStream)
    (n : nat) :
  k = TAG_TYPE_LIST \/ k = TAG_TYPE_COMPOUND ->
  Z.of_nat (length (data root_name)) < 2 ^ 16 ->
  remaining s = encode_be 1 k ++ encode_string root_name ++ tail ->
  new_read_state_for k (skip (1 + length (encode_string root_name)) s) = Ok frame s1 ->
  steps n ([frame; ReadRootTagState], {| name := root_name; tag := None |}) s1
          ([ReadRootTagState], {| name := root_name; tag := Some t |}) s_end ->
  forall fuel, (fuel_bound s <= fuel)%nat ->
    read_nbt fuel s = Some (Ok {| name := root_name; tag := Some t |} s_end).
Proof.
  intros Hk Hlen Hrem Hnew Hsteps.
  destruct (read_root_header k root_name s _
              ltac:(destruct Hk as [-> | ->]; cbv; split; congruence) Hlen Hrem) as [Hhead _].
  apply read_nbt_eventually with (n := (n + 1)%nat).
  intros fuel Hfuel.
  replace fuel with (n + S (fuel - n - 1))%nat by lia.
  unfold read_nbt. rewrite Hhead.
  assert ((k =? TAG_TYPE_LIST) || (k =? TAG_TYPE_COMPOUND) = true) as ->
    by (destruct Hk as [-> | ->]; reflexivity).
  rewrite Hnew, (steps_process _ _ _ _ _ Hsteps).
  cbn [process_read_state fst continue_read ret snd tl]. apply process_read_state_nil.
Qed.

Lemma read_nbt_delivered (t : Tag) (root_name : Utf8String) (s : MemoryInputStream)
    (tail : list byte) :
  is_container t = true -> delivers t ->
  Z.of_nat (length (data root_name)) < 2 ^ 16 ->
  remaining s = encode_stream root_name t ++ tail ->
  forall fuel, (fuel_bound s <= fuel)%nat ->
    read_nbt fuel s
    = Some (Ok {| name := root_name; tag := Some t |}
               (skip (length (encode_stream root_name t)) s)).
Proof.
  intros Hc Hdel Hlen Hrem.
  unfold encode_stream in *. rewrite <- !app_assoc in Hrem.
  pose proof (kind_of_range t) as Hkr.
  destruct (read_root_header (kind_of t) root_name s _ ltac:(lia) Hlen Hrem) as [_ Hrem2].
  destruct (Hdel _ tail ReadRootTagState [] {| name := root_name; tag := None |}
              ReadRootTagState {| name := root_name; tag := Some t |} Hrem2
              ltac:(intros; reflexivity)) as (frame & s1 & n & Hnew & Hsteps).
  rewrite skip_skip in Hsteps.
  replace (skip _ s) with (skip (1 + length (encode_string root_name)
                                 + length (encode_payload t)) s)
    by (apply skip_eq; rewrite !length_app, encode_be_length; lia).
  apply (read_nbt_steps (kind_of t) root_name s (encode_payload t ++ tail) t frame s1 _ n);
    try assumption.
  rewrite is_container_kind in Hc. apply Bool.orb_true_iff in Hc.
  destruct Hc as [Hc|Hc]; apply Z.eqb_eq in Hc; auto.
Qed.

Lemma read_nbt_container_ok (t : Tag) (root_name : Utf8String) (s : MemoryInputStream)
    (tail : list byte) :
  is_container t = true -> decodable t ->
  Z.of_nat (length (data root_name)) < 2 ^ 16 ->
  remaining s = encode_stream root_name t ++ tail ->
  forall fuel, (fuel_bound s <= fuel)%nat ->
    read_nbt fuel s
    = Some (Ok {| name := root_name; tag := Some t |}
               (skip (length (encode_stream root_name t)) s)).
Proof.
  intros Hc Hwf. apply read_nbt_delivered; [exact Hc | apply deliver_all; assumption].
Qed.

End ReadBack.

(** ** The same input on a host with less storage *)

Section Hosts.

Context {host : Host}.

(** [ample_host] grants every array that a 32-bit length can declare. *)
Lemma ample_host_grants (n size : Z) :
  in_range uint32_t n -> size = 1 \/ size = 4 -> grants (host := ample_host) n size = true.
Proof.
  unfold in_range, grants. cbn [is_signed bits max_bytes can_allocate ample_host].
  intros Hn Hsize. destruct (n =? 0); [reflexivity|]. cbn [orb].
  destruct (Z.ltb_spec (2 ^ 63 - 1) (n * size)) as [Hlt|_]; [|reflexivity].
  destruct Hsize as [-> | ->]; lia.
Qed.

Lemma well_formed_allocatable (t : Tag) : well_formed t -> allocatable (host := ample_host) t.
Proof.
  induction t as [| | | | | | | |T vs IH|es IH|] using Tag_nested_ind; intros Hwf;
    try exact I.
  - cbn [well_formed allocatable] in *. apply ample_host_grants; [|auto].
    unfold in_range. simpl. lia.
  - apply allocatable_list. apply well_formed_list in Hwf. destruct Hwf as [_ Hall].
    induction Hall as [|v vs [_ Hv] _ IHvs]; constructor; inversion IH; subst; auto.
  - apply allocatable_compound. apply well_formed_compound in Hwf. destruct Hwf as [_ Hall].
    induction Hall as [|e es [_ He] _ IHes]; constructor; inversion IH; subst; auto.
  - cbn [well_formed allocatable] in *. apply ample_host_grants; [|auto].
    unfold in_range. simpl. lia.
Qed.

Lemma hsim_bind_same {A B} (m : M A) (f1 f2 : A -> M B) (s : MemoryInputStream) :
  (forall a s1, m s = Ok a s1 -> hsim (f1 a s1) (f2 a s1)) ->
  hsim (bind m f1 s) (bind m f2 s).
Proof.
  intros Hf. unfold bind. destruct (m s) as [a s1|x s1]; [apply Hf; reflexivity | apply hsim_same].
Qed.

Lemma hsim_bind {A B} (m1 m2 : M A) (f1 f2 : A -> M B) (s : MemoryInputStream) :
  hsim (m1 s) (m2 s) ->
  (forall a s1, hsim (f1 a s1) (f2 a s1)) ->
  hsim (bind m1 f1 s) (bind m2 f2 s).
Proof.
  intros Hm Hf. unfold bind.
  destruct (m1 s) as [a1 s1|x1 s1]; destruct (m2 s) as [a2 s2|x2 s2];
    inversion Hm; subst;
    first [ apply Hf | apply hsim_refused; assumption | apply hsim_same ].
Qed.

(** Storage for an array of a declared length: refused, or granted as on
    the ample host. *)
Lemma hsim_allocate (n size : Z) (s : MemoryInputStream) :
  in_range uint32_t n -> size = 1 \/ size = 4 ->
  hsim (allocate n size s) (allocate (host := ample_host) n size s).
Proof.
  intros Hn Hsize.
  rewrite (allocate_granted (host := ample_host) n size s (ample_host_grants n size Hn Hsize)).
  destruct (allocate_cases n size s) as [[_ ->]|(_ & x & Hx & ->)].
  - apply hsim_same.
  - apply hsim_refused. exact Hx.
Qed.

Lemma hsim_read_byte_array_tag (s : MemoryInputStream) :
  hsim (read_byte_array_tag s) (read_byte_array_tag (host := ample_host) s).
Proof.
  unfold read_byte_array_tag. apply hsim_bind_same. intros n s1 Hn.
  apply read_be_range in Hn.
  apply hsim_bind; [apply hsim_allocate; auto | intros; apply hsim_same].
Qed.

Lemma hsim_read_int_array_tag (s : MemoryInputStream) :
  hsim (read_int_array_tag s) (read_int_array_tag (host := ample_host) s).
Proof.
  unfold read_int_array_tag. apply hsim_bind_same. intros n s1 Hn.
  apply read_be_range in Hn.
  apply hsim_bind; [apply hsim_allocate; auto | intros; apply hsim_same].
Qed.

Lemma hsim_read_simple_tag (k : Z) (s : MemoryInputStream) :
  hsim (read_simple_tag k s) (read_simple_tag (host := ample_host) k s).
Proof.
  unfold read_simple_tag.
  repeat match goal with
         | |- context [match ?x with _ => _ end] => is_var x; destruct x
         end;
    first [ apply hsim_read_byte_array_tag | apply hsim_read_int_array_tag | apply hsim_same ].
Qed.

Lemma hsim_read_list_loop (n : nat) (T : TagClass) (k : Z) (l : list Tag)
    (s : MemoryInputStream) :
  hsim (read_list_loop n T k l s) (read_list_loop (host := ample_host) n T k l s).
Proof.
  revert l s. induction n as [|n IH]; intros l s; cbn [read_list_loop]; [apply hsim_same|].
  apply hsim_bind; [apply hsim_read_simple_tag | intros t s1].
  apply hsim_bind_same. intros values s2 _. apply IH.
Qed.

Lemma hsim_continue_read (top : TagReadState) (e : Engine) (s : MemoryInputStream) :
  hsim (continue_read top e s) (continue_read (host := ample_host) top e s).
Proof.
  destruct top as [|m nm|T k l r]; cbn [continue_read].
  - apply hsim_same.
  - apply hsim_bind_same. intros id s1 _.
    destruct (id =? TAG_TYPE_END); [apply hsim_same|].
    apply hsim_bind_same. intros next_name s2 _.
    destruct ((id =? TAG_TYPE_COMPOUND) || (id =? TAG_TYPE_LIST)); [apply hsim_same|].
    apply hsim_bind; [apply hsim_read_simple_tag | intros; apply hsim_same].
  - destruct ((k =? TAG_TYPE_COMPOUND) || (k =? TAG_TYPE_LIST)); [apply hsim_same|].
    apply hsim_bind; [apply hsim_read_list_loop | intros; apply hsim_same].
Qed.

Lemma hsim_process_read_state (fuel : nat) (e : Engine) (s : MemoryInputStream) :
  hsim_loop (process_read_state fuel e s) (process_read_state (host := ample_host) fuel e s).
Proof.
  revert e s. induction fuel as [|fuel IH]; intros [stk r] s;
    destruct stk as [|top rest]; cbn [process_read_state fst snd]; try apply hsim_loop_same.
  match goal with |- context [@continue_read host ?f ?e0 s] =>
    pose proof (hsim_continue_read f e0 s) as Hs;
    destruct (@continue_read host f e0 s) as [e1 s1|x1 s1];
    destruct (@continue_read ample_host f e0 s) as [e2 s2|x2 s2]
  end; inversion Hs; subst;
    first [ apply IH | apply hsim_loop_same | apply hsim_loop_refused; assumption ].
Qed.

(** [read_nbt] on any host is refused storage or does what it does on the
    ample host. *)
Lemma hsim_read_nbt (fuel : nat) (s : MemoryInputStream) :
  hsim_loop (read_nbt fuel s) (read_nbt (host := ample_host) fuel s).
Proof.
  unfold read_nbt.
  destruct ((tag_type_id <- read_big_endian_unsigned_int uint8_t 1 ;;
             root_name <- read_string ;; ret (tag_type_id, root_name)) s)
    as [[id nm] s1|x s1]; [|apply hsim_loop_same].
  destruct ((id =? TAG_TYPE_LIST) || (id =? TAG_TYPE_COMPOUND)); [|apply hsim_loop_same].
  destruct (new_read_state_for id s1) as [frame s2|x s2]; [|apply hsim_loop_same].
  apply hsim_process_read_state.
Qed.

(** On any host, the encoding of a well-formed container is read back
    exactly or the reader is refused storage. *)
Lemma read_nbt_container_any_host (t : Tag) (root_name : Utf8String) (fuel : nat) :
  is_container t = true -> well_formed t ->
  Z.of_nat (length (data root_name)) < 2 ^ 16 ->
  (fuel_bound (MemoryInputStream_new (encode_stream root_name t)) <= fuel)%nat ->
  read_nbt fuel (MemoryInputStream_new (encode_stream root_name t))
  = Some (Ok {| name := root_name; tag := Some t |}
             {| m_data := encode_stream root_name t;
                m_position := length (encode_stream root_name t) |})
  \/ exists x s', storage_error x
                  /\ read_nbt fuel (MemoryInputStream_new (encode_stream root_name t))
                     = Some (Throw x s').
Proof.
  intros Hc Hwf Hlen Hfuel.
  pose proof (hsim_read_nbt fuel (MemoryInputStream_new (encode_stream root_name t))) as Hs.
  rewrite (read_nbt_container_ok (host := ample_host) t root_name
             (MemoryInputStream_new (encode_stream root_name t)) [] Hc
             (conj Hwf (well_formed_allocatable t Hwf)) Hlen
             ltac:(rewrite app_nil_r; reflexivity) fuel Hfuel) in Hs.
  destruct (read_nbt fuel (MemoryInputStream_new (encode_stream root_name t)))
    as [[r s1|x s1]|]; inversion Hs as [x' s' o Hx Ho1 Ho2|o Ho1 Ho2]; subst.
  - left. reflexivity.
  - right. eauto.
Qed.

End Hosts.

(** ** What [read_nbt] returns *)

Section Errors.

Context {host : Host}.

(** The primitive readers throw nothing but [PrematureEof]. *)
Lemma read_throws (size : Z) (s s' : MemoryInputStream) (x : exn) :
  read size s = Throw x s' -> x = PrematureEof.
Proof. unfold read. destruct (_ <? _); [intros [= <- _]; reflexivity | discriminate]. Qed.

Lemma read_be_throws (T : ctype) (size : Z) (s s' : MemoryInputStream) (x : exn) :
  read_big_endian_unsigned_int T size s = Throw x s' -> x = PrematureEof.
Proof.
  unfold read_big_endian_unsigned_int, bind.
  destruct (read size s) eqn:E; [discriminate|]. intros [= <- _]. eapply read_throws, E.
Qed.

Lemma read_string_throws (s s' : MemoryInputStream) (x : exn) :
  read_string s = Throw x s' -> x = PrematureEof.
Proof.
  unfold read_string, bind.
  destruct (read_big_endian_unsigned_int uint16_t 2 s) as [n s1|] eqn:E1.
  - destruct (read n s1) eqn:E2; [discriminate|]. intros [= <- _]. eapply read_throws, E2.
  - intros [= <- _]. eapply read_be_throws, E1.
Qed.

Lemma read_kind_byte (b : byte) (s : MemoryInputStream) (tail : list byte) :
  remaining s = b :: tail ->
  read_big_endian_unsigned_int uint8_t 1 s = Ok (byte_val b) (skip 1 s).
Proof.
  intros Hrem.
  rewrite (read_be_ok uint8_t 1 s [b] tail eq_refl eq_refl ltac:(simpl; lia) Hrem).
  unfold be_value. simpl. reflexivity.
Qed.

(** A kind id above 11 is refused by the simple-tag reader. *)
Lemma read_simple_tag_unknown (id : Z) (s : MemoryInputStream) :
  12 <= id -> read_simple_tag id s = Throw (unknown_tag_kind id) s.
Proof.
  intros Hid. unfold read_simple_tag, unknown_tag_kind.
  destruct id as [|p|p]; try lia.
  destruct p as [p|p|]; try lia;
    destruct p as [p|p|]; try lia;
      destruct p as [p|p|]; try lia;
        try (destruct p as [p|p|]); try lia; reflexivity.
Qed.

Lemma new_list_read_state_unknown (id length : Z) (s : MemoryInputStream) :
  12 <= id -> new_list_read_state id length s = Throw (unknown_list_tag_kind id) s.
Proof.
  intros Hid. unfold new_list_read_state, unknown_list_tag_kind.
  destruct id as [|p|p]; try lia.
  destruct p as [p|p|]; try lia;
    destruct p as [p|p|]; try lia;
      destruct p as [p|p|]; try lia;
        try (destruct p as [p|p|]); try lia; reflexivity.
Qed.

Lemma encode_be_1 (k : Z) : 0 <= k < 256 -> encode_be 1 k = [byte_of_Z k].
Proof. intros Hk. simpl. rewrite Z.mod_small by lia. reflexivity. Qed.

End Errors.

(** C1 (as amended). For every well-formed value whose root kind is List or
    Compound, [read_nbt] on its encoding returns a [RootTag] with the encoded
    name and exactly the encoded tag, having read the whole stream, on every
    host that has storage for the byte arrays and int arrays of the value.
    On any other host it does the same or throws [length_error] or
    [bad_alloc]; it never returns another tree.  Lists are encoded with the
    kind of their element class, never End. *)
Theorem read_nbt_reproduces_containers {host : Host} (root_name : Utf8String) (t : Tag)
    (fuel : nat) :
  is_container t = true ->
  well_formed t ->
  Z.of_nat (length (data root_name)) < 2 ^ 16 ->
  (fuel_bound (MemoryInputStream_new (encode_stream root_name t)) <= fuel)%nat ->
  let decoded :=
    Some (Ok {| name := root_name; tag := Some t |}
             {| m_data := encode_stream root_name t;
                m_position := length (encode_stream root_name t) |}) in
  (allocatable t ->
   read_nbt fuel (MemoryInputStream_new (encode_stream root_name t)) = decoded)
  /\ (read_nbt fuel (MemoryInputStream_new (encode_stream root_name t)) = decoded
      \/ exists x s',
           (x = length_error \/ x = bad_alloc)
           /\ read_nbt fuel (MemoryInputStream_new (encode_stream root_name t))
              = Some (Throw x s')).
Proof.
  intros Hc Hwf Hlen Hfuel decoded. split.
  - intros Hal.
    rewrite (read_nbt_container_ok t root_name
               (MemoryInputStream_new (encode_stream root_name t)) [] Hc (conj Hwf Hal) Hlen
               ltac:(rewrite app_nil_r; reflexivity) fuel Hfuel).
    reflexivity.
  - apply read_nbt_container_any_host; assumption.
Qed.

Lemma read_nbt_reproduces_containers_witness :
  read_nbt (host := small_host) 300
    (MemoryInputStream_new
       (encode_stream {| data := [byte_of_Z 114] |}
          (CompoundTag
             [({| data := [byte_of_Z 97] |}, ListTag T_ShortTag [ShortTag (-2); ShortTag 7]);
              ({| data := [byte_of_Z 98] |}, ListTag T_CompoundTag [CompoundTag []]);
              ({| data := [byte_of_Z 99] |}, ByteArrayTag (map byte_of_Z [1; 2; 3]));
              ({| data := [byte_of_Z 100] |}, IntArrayTag [5; -6]);
              ({| data := [] |}, LongTag (-1))])))
  = Some (Ok {| name := {| data := [byte_of_Z 114] |};
                tag := Some
                  (CompoundTag
                     [({| data := [byte_of_Z 97] |},
                       ListTag T_ShortTag [ShortTag (-2); ShortTag 7]);
                      ({| data := [byte_of_Z 98] |}, ListTag T_CompoundTag [CompoundTag []]);
                      ({| data := [byte_of_Z 99] |}, ByteArrayTag (map byte_of_Z [1; 2; 3]));
                      ({| data := [byte_of_Z 100] |}, IntArrayTag [5; -6]);
                      ({| data := [] |}, LongTag (-1))]) |}
             {| m_data :=
                  encode_stream {| data := [byte_of_Z 114] |}
                    (CompoundTag
                       [({| data := [byte_of_Z 97] |},
                         ListTag T_ShortTag [ShortTag (-2); ShortTag 7]);
                        ({| data := [byte_of_Z 98] |}, ListTag T_CompoundTag [CompoundTag []]);
                        ({| data := [byte_of_Z 99] |}, ByteArrayTag (map byte_of_Z [1; 2; 3]));
                        ({| data := [byte_of_Z 100] |}, IntArrayTag [5; -6]);
                        ({| data := [] |}, LongTag (-1))]);
                m_position := 66 |}).
Proof.
  destruct (read_nbt_reproduces_containers (host := small_host)
              {| data := [byte_of_Z 114] |}
              (CompoundTag
                 [({| data := [byte_of_Z 97] |}, ListTag T_ShortTag [ShortTag (-2); ShortTag 7]);
                  ({| data := [byte_of_Z 98] |}, ListTag T_CompoundTag [CompoundTag []]);
                  ({| data := [byte_of_Z 99] |}, ByteArrayTag (map byte_of_Z [1; 2; 3]));
                  ({| data := [byte_of_Z 100] |}, IntArrayTag [5; -6]);
                  ({| data := [] |}, LongTag (-1))]) 300) as [H _].
  - reflexivity.
  - simpl. unfold elem_of_class, in_range. simpl.
    repeat split; try lia; repeat constructor; simpl; try lia; intuition discriminate.
  - simpl. lia.
  - vm_compute. repeat constructor.
  - apply H. simpl. tauto.
Defined.

(** C1, counterexample.  The encoding of a Byte root is read without its
    payload and yields a null tag; and a stream the specification counts as
    valid, a compound holding an empty list of element kind End, is refused.
    Neither depends on the host: no array is involved. *)
Lemma read_nbt_reproduces_counterexample :
  well_formed (ByteTag 42)
  /\ ~ reproduces (host := ample_host) {| data := [] |} (ByteTag 42)
  /\ read_nbt (host := ample_host) 100
       (MemoryInputStream_new (encode_stream {| data := [] |} (ByteTag 42)))
     = Some (Ok {| name := {| data := [] |}; tag := None |}
                {| m_data := encode_stream {| data := [] |} (ByteTag 42); m_position := 3 |})
  /\ read_nbt (host := ample_host) 100 (stream_of [10; 0; 0; 9; 0; 1; 97; 0; 0; 0; 0; 0; 0])
     = Some (Throw invalid_list_element_kind
               (skip 12 (stream_of [10; 0; 0; 9; 0; 1; 97; 0; 0; 0; 0; 0; 0]))).
Proof.
  split; [cbv; split; congruence|].
  split; [|split; reflexivity].
  intros H. destruct (H 100%nat) as [s' Hs'].
  - vm_compute. repeat constructor.
  - vm_compute in Hs'. discriminate.
Qed.

(** C2. When the first byte of the stream, the root kind id, is neither 9
    nor 10, [read_nbt] reads that byte and the length-prefixed root name and
    nothing more, raises no error for the kind id, and returns a [RootTag]
    whose tag is null. *)
Theorem read_nbt_non_container_root {host : Host} (k : Z) (root_name : Utf8String)
    (s : MemoryInputStream) (tail : list byte) (fuel : nat) :
  0 <= k < 256 -> k <> TAG_TYPE_LIST -> k <> TAG_TYPE_COMPOUND ->
  Z.of_nat (length (data root_name)) < 2 ^ 16 ->
  remaining s = encode_be 1 k ++ encode_string root_name ++ tail ->
  read_nbt fuel s
  = Some (Ok {| name := root_name; tag := None |}
             (skip (1 + (2 + length (data root_name))) s))
  /\ remaining (skip (1 + (2 + length (data root_name))) s) = tail
  /\ forall (s0 : MemoryInputStream) (b : byte) (rest : list byte),
       remaining s0 = b :: rest -> byte_val b = k ->
       (exists s', read_nbt fuel s0 = Some (Throw PrematureEof s'))
       \/ exists nm s', read_nbt fuel s0 = Some (Ok {| name := nm; tag := None |} s').
Proof.
  intros Hk HnL HnC Hlen Hrem.
  assert (Hl : length (encode_string root_name) = (2 + length (data root_name))%nat)
    by (unfold encode_string; rewrite length_app, encode_be_length; reflexivity).
  split; [|split].
  - rewrite (read_nbt_other_root k root_name s tail fuel Hk HnL HnC Hlen Hrem), Hl. reflexivity.
  - destruct (read_root_header k root_name s tail Hk Hlen Hrem) as [_ H].
    rewrite Hl in H. exact H.
  - intros s0 b rest Hrem0 Hb. unfold read_nbt, bind.
    rewrite (read_kind_byte b s0 rest Hrem0), Hb.
    destruct (read_string (skip 1 s0)) as [nm s1|x s1] eqn:E.
    + right. unfold ret.
      destruct (Z.eqb_spec k TAG_TYPE_LIST); [contradiction|].
      destruct (Z.eqb_spec k TAG_TYPE_COMPOUND); [contradiction|]. simpl.
      exists nm, s1. reflexivity.
    + left. apply read_string_throws in E. subst x. exists s1. reflexivity.
Qed.

Lemma read_nbt_non_container_root_witness :
  read_nbt (host := small_host) 0 (stream_of [200; 0; 2; 104; 105; 1; 2; 3])
  = Some (Ok {| name := {| data := [byte_of_Z 104; byte_of_Z 105] |}; tag := None |}
             (skip 5 (stream_of [200; 0; 2; 104; 105; 1; 2; 3]))).
Proof.
  apply (read_nbt_non_container_root (host := small_host) 200 {| data := [byte_of_Z 104; byte_of_Z 105] |}
           (stream_of [200; 0; 2; 104; 105; 1; 2; 3]) (map byte_of_Z [1; 2; 3]) 0).
  - lia.
  - discriminate.
  - discriminate.
  - simpl. lia.
  - reflexivity.
Defined.

(** ** Lists of End tags *)

Lemma new_read_state_for_list_of_end (s : MemoryInputStream) (length_bytes tail : list byte) :
  length length_bytes = 4%nat ->
  remaining s = encode_be 1 TAG_TYPE_END ++ length_bytes ++ tail ->
  new_read_state_for TAG_TYPE_LIST s = Throw invalid_list_element_kind (skip 5 s).
Proof.
  intros Hl Hrem. unfold new_read_state_for. cbn [Z.eqb TAG_TYPE_LIST TAG_TYPE_COMPOUND Pos.eqb].
  rewrite (bind_ok _ _ _ _ _ (read_kind_ok TAG_TYPE_END s _ ltac:(cbv; split; congruence) Hrem)).
  apply remaining_skip in Hrem. rewrite encode_be_length in Hrem.
  rewrite (bind_ok _ _ _ _ _ (read_be_ok uint32_t 4 _ length_bytes tail eq_refl
             ltac:(rewrite Hl; reflexivity) ltac:(simpl; lia) Hrem)).
  rewrite Hl, skip_skip. reflexivity.
Qed.

(** C3 (as amended). When the engine begins a List whose declared element
    kind is End, the decode fails with the "List tag had a tag type of
    TAG_End" error whatever the declared count, zero included: at the root,
    as a compound entry and as an element of a list of lists.  The error is
    thrown once the element kind and the count have been read. *)
Theorem list_of_end_refused {host : Host} (length_bytes tail : list byte)
    (entry_name : Utf8String) (s : MemoryInputStream) :
  length length_bytes = 4%nat ->
  Z.of_nat (length (data entry_name)) < 2 ^ 16 ->
  remaining s = encode_be 1 TAG_TYPE_LIST ++ encode_string entry_name
                ++ encode_be 1 TAG_TYPE_END ++ length_bytes ++ tail ->
  let s' := skip (1 + length (encode_string entry_name)) s in
  (forall count s0,
     new_list_read_state TAG_TYPE_END count s0 = Throw invalid_list_element_kind s0)
  /\ (forall fuel, read_nbt fuel s = Some (Throw invalid_list_element_kind (skip 5 s')))
  /\ (forall m_tag nm e,
        continue_read (ReadCompoundTagState m_tag nm) e s
        = Throw invalid_list_element_kind (skip 5 s'))
  /\ (forall T l r e,
        r <> 0 ->
        continue_read (ReadListTagState T TAG_TYPE_LIST l r) e s'
        = Throw invalid_list_element_kind (skip 5 s')).
Proof.
  intros Hl Hlen Hrem s'. subst s'.
  destruct (read_root_header TAG_TYPE_LIST entry_name s _ ltac:(cbv; split; congruence) Hlen Hrem)
    as [Hhead Hrem2].
  pose proof (new_read_state_for_list_of_end _ length_bytes tail Hl Hrem2) as Hnew.
  split; [reflexivity|]. split; [|split].
  - intros fuel. unfold read_nbt. rewrite Hhead. cbn [Z.eqb TAG_TYPE_LIST Pos.eqb orb].
    rewrite Hnew. reflexivity.
  - intros m_tag nm e. cbn [continue_read].
    pose proof (read_kind_ok TAG_TYPE_LIST s _ ltac:(cbv; split; congruence) Hrem) as Hkind.
    pose proof (remaining_skip s _ _ Hrem) as Hrem1. rewrite encode_be_length in Hrem1.
    pose proof (read_string_ok entry_name _ _ Hlen Hrem1) as Hname.
    rewrite (bind_ok _ _ _ _ _ Hkind). cbn [Z.eqb TAG_TYPE_LIST TAG_TYPE_END].
    rewrite (bind_ok _ _ _ _ _ Hname). cbn [Z.eqb TAG_TYPE_COMPOUND Pos.eqb orb].
    rewrite skip_skip. apply bind_throw. exact Hnew.
  - intros T l r e Hr. cbn [continue_read]. cbn [Z.eqb TAG_TYPE_LIST TAG_TYPE_COMPOUND Pos.eqb orb].
    destruct (Z.eqb_spec r 0); [contradiction|].
    apply bind_throw. exact Hnew.
Qed.

Lemma list_of_end_refused_witness :
  read_nbt (host := small_host) 10 (stream_of [9; 0; 1; 120; 0; 0; 0; 0; 0])
  = Some (Throw invalid_list_element_kind (skip 9 (stream_of [9; 0; 1; 120; 0; 0; 0; 0; 0]))).
Proof.
  destruct (list_of_end_refused (host := small_host) (map byte_of_Z [0; 0; 0; 0]) []
              {| data := [byte_of_Z 120] |}
              (stream_of [9; 0; 1; 120; 0; 0; 0; 0; 0])) as (_ & H & _).
  - reflexivity.
  - simpl. lia.
  - reflexivity.
  - apply H.
Defined.

(** C3, counterexample.  A root List with element kind End and count 0 does
    not decode to an empty list: the reader throws. *)
Lemma list_of_end_count_zero_counterexample :
  read_nbt (host := ample_host) 10 (stream_of [9; 0; 0; 0; 0; 0; 0; 0])
  = Some (Throw invalid_list_element_kind (skip 8 (stream_of [9; 0; 0; 0; 0; 0; 0; 0])))
  /\ ~ (exists r s', read_nbt (host := ample_host) 10 (stream_of [9; 0; 0; 0; 0; 0; 0; 0])
                     = Some (Ok r s')).
Proof.
  split; [reflexivity|]. intros (r & s' & H). vm_compute in H. discriminate.
Qed.

(** ** Repeated names in a compound *)

Lemma map_find_insert_all (k : Utf8String) (es acc : list (Utf8String * Tag)) :
  map_find k (insert_all es acc)
  = match map_find k acc with Some v => Some v | None => map_find k es end.
Proof.
  revert acc. induction es as [|[k' v'] es IH]; intros acc.
  - simpl. destruct (map_find k acc); reflexivity.
  - unfold insert_all in *. cbn [fold_left fst snd map_find]. rewrite IH.
    destruct (Utf8String_eq_dec k k') as [->|Hne].
    + rewrite map_find_insert_same. destruct (map_find k' acc); reflexivity.
    + rewrite map_find_insert_other by assumption. reflexivity.
Qed.

(** C5 (as amended). When a compound body holds several entries with the
    same name, the decoded mapping keeps the value of the first of them; the
    later ones are read and dropped.  The entries are well-formed values
    that the host has storage for. *)
Theorem compound_keeps_first_entry {host : Host} (root_name : Utf8String)
    (es : list (Utf8String * Tag)) (fuel : nat) :
  Forall (fun e => Z.of_nat (length (data (fst e))) < 2 ^ 16
                   /\ well_formed (snd e) /\ allocatable (snd e)) es ->
  Z.of_nat (length (data root_name)) < 2 ^ 16 ->
  (fuel_bound (MemoryInputStream_new
                 (encode_be 1 TAG_TYPE_COMPOUND ++ encode_string root_name
                  ++ concat (map encode_entry es) ++ encode_be 1 TAG_TYPE_END)) <= fuel)%nat ->
  (exists s', read_nbt fuel
     (MemoryInputStream_new
        (encode_be 1 TAG_TYPE_COMPOUND ++ encode_string root_name
         ++ concat (map encode_entry es) ++ encode_be 1 TAG_TYPE_END))
   = Some (Ok {| name := root_name; tag := Some (CompoundTag (insert_all es [])) |} s'))
  /\ (forall k, map_find k (insert_all es []) = map_find k es)
  /\ (forall m_tag nm t v0 root_tag s0,
        map_find nm m_tag = Some v0 ->
        map_insert nm t m_tag = m_tag
        /\ add_tag (ReadCompoundTagState m_tag nm) t root_tag s0
           = Ok (ReadCompoundTagState m_tag nm, root_tag) s0).
Proof.
  intros Hall Hlen Hfuel. split; [|split; [intros k; apply map_find_insert_all|]].
  2:{ intros m_tag nm t v0 root_tag s0 Hfind. cbn [add_tag].
      rewrite (map_insert_present nm t v0 m_tag Hfind). split; reflexivity. }
  set (s := MemoryInputStream_new _) in *.
  assert (Hrem : remaining s = encode_be 1 TAG_TYPE_COMPOUND ++ encode_string root_name
                   ++ (concat (map encode_entry es) ++ encode_be 1 TAG_TYPE_END) ++ []).
  { unfold s. rewrite remaining_new, app_nil_r. reflexivity. }
  destruct (read_root_header TAG_TYPE_COMPOUND root_name s _ ltac:(cbv; split; congruence)
              Hlen Hrem) as [_ Hrem2].
  assert (HIH : Forall (fun e => is_container (snd e) = true -> decodable (snd e)
                                 -> delivers (snd e)) es).
  { apply Forall_forall. intros e _. apply deliver_all. }
  destruct (compound_steps es HIH Hall [] {| data := [] |} _ [] ReadRootTagState []
              {| name := root_name; tag := None |} ReadRootTagState
              {| name := root_name; tag := Some (CompoundTag (insert_all es [])) |} Hrem2
              ltac:(intros; reflexivity)) as (n & Hsteps).
  eexists.
  apply (read_nbt_steps TAG_TYPE_COMPOUND root_name s _ _ _ _ _ n (or_intror eq_refl) Hlen Hrem
           eq_refl Hsteps fuel Hfuel).
Qed.

Lemma compound_keeps_first_entry_witness :
  map_find {| data := [byte_of_Z 120] |}
    (insert_all [({| data := [byte_of_Z 120] |}, IntTag 1);
                 ({| data := [byte_of_Z 121] |}, ByteTag 5);
                 ({| data := [byte_of_Z 120] |}, IntTag 2)] [])
  = Some (IntTag 1).
Proof.
  destruct (compound_keeps_first_entry (host := small_host) {| data := [] |}
              [({| data := [byte_of_Z 120] |}, IntTag 1);
               ({| data := [byte_of_Z 121] |}, ByteTag 5);
               ({| data := [byte_of_Z 120] |}, IntTag 2)] 200) as (_ & H & _).
  - repeat constructor; simpl; unfold in_range; simpl; lia.
  - simpl. lia.
  - vm_compute. repeat constructor.
  - rewrite H. reflexivity.
Defined.

(** C5, counterexample.  A compound with two entries named "x", Int 1 then
    Int 2, decodes to a mapping in which "x" is Int 1, not the value of the
    last occurrence. *)
Lemma compound_last_entry_counterexample :
  exists m s',
    read_nbt (host := ample_host) 100 (stream_of [10; 0; 0; 3; 0; 1; 120; 0; 0; 0; 1;
                             3; 0; 1; 120; 0; 0; 0; 2; 0])
    = Some (Ok {| name := {| data := [] |}; tag := Some (CompoundTag m) |} s')
    /\ map_find {| data := [byte_of_Z 120] |} m = Some (IntTag 1)
    /\ map_find {| data := [byte_of_Z 120] |} m <> Some (IntTag 2).
Proof.
  eexists. eexists. split; [vm_compute; reflexivity|].
  split; [reflexivity | discriminate].
Qed.

(** ** Kind ids outside 0..11 *)

(** C6, at the failing input.  A root kind id above 11 raises no error:
    [read_nbt] returns a [RootTag] with a null tag.  The same id is refused
    where a compound entry or a list element kind is read. *)
Theorem unknown_root_kind_accepted {host : Host} (k : Z) (entry_name : Utf8String)
    (length_bytes tail : list byte) (s1 s2 : MemoryInputStream) (fuel : nat) :
  12 <= k < 256 ->
  Z.of_nat (length (data entry_name)) < 2 ^ 16 ->
  length length_bytes = 4%nat ->
  remaining s1 = encode_be 1 k ++ encode_string entry_name ++ tail ->
  remaining s2 = encode_be 1 k ++ length_bytes ++ tail ->
  read_nbt fuel (stream_of [k; 0; 0])
  = Some (Ok {| name := {| data := [] |}; tag := None |} (skip 3 (stream_of [k; 0; 0])))
  /\ (forall m_tag nm e,
        continue_read (ReadCompoundTagState m_tag nm) e s1
        = Throw (unknown_tag_kind k) (skip (1 + length (encode_string entry_name)) s1))
  /\ new_read_state_for TAG_TYPE_LIST s2 = Throw (unknown_list_tag_kind k) (skip 5 s2).
Proof.
  intros Hk Hlen Hl Hrem1 Hrem2. split; [|split].
  - apply (read_nbt_other_root k {| data := [] |} (stream_of [k; 0; 0]) [] fuel);
      [lia | unfold TAG_TYPE_LIST; lia | unfold TAG_TYPE_COMPOUND; lia | simpl; lia |].
    rewrite encode_be_1 by lia. reflexivity.
  - intros m_tag nm e. cbn [continue_read].
    pose proof (read_kind_ok k s1 _ ltac:(lia) Hrem1) as Hkind.
    pose proof (remaining_skip s1 _ _ Hrem1) as Hrem. rewrite encode_be_length in Hrem.
    pose proof (read_string_ok entry_name _ _ Hlen Hrem) as Hname.
    rewrite (bind_ok _ _ _ _ _ Hkind).
    destruct (Z.eqb_spec k TAG_TYPE_END); [unfold TAG_TYPE_END in *; lia|].
    rewrite (bind_ok _ _ _ _ _ Hname).
    destruct (Z.eqb_spec k TAG_TYPE_COMPOUND); [unfold TAG_TYPE_COMPOUND in *; lia|].
    destruct (Z.eqb_spec k TAG_TYPE_LIST); [unfold TAG_TYPE_LIST in *; lia|].
    cbn [orb]. rewrite skip_skip. apply bind_throw. apply read_simple_tag_unknown. lia.
  - unfold new_read_state_for. cbn [Z.eqb TAG_TYPE_LIST TAG_TYPE_COMPOUND Pos.eqb].
    rewrite (bind_ok _ _ _ _ _ (read_kind_ok k s2 _ ltac:(lia) Hrem2)).
    apply remaining_skip in Hrem2. rewrite encode_be_length in Hrem2.
    rewrite (bind_ok _ _ _ _ _ (read_be_ok uint32_t 4 _ length_bytes tail eq_refl
               ltac:(rewrite Hl; reflexivity) ltac:(simpl; lia) Hrem2)).
    rewrite Hl, skip_skip. apply new_list_read_state_unknown. lia.
Qed.

Lemma unknown_root_kind_accepted_witness :
  read_nbt (host := small_host) 0 (stream_of [12; 0; 0])
  = Some (Ok {| name := {| data := [] |}; tag := None |} (skip 3 (stream_of [12; 0; 0])))
  /\ read_nbt (host := small_host) 10 (stream_of [10; 0; 0; 12; 0; 0; 1])
     = Some (Throw (unknown_tag_kind 12) (skip 6 (stream_of [10; 0; 0; 12; 0; 0; 1]))).
Proof.
  destruct (unknown_root_kind_accepted (host := small_host) 12 {| data := [] |} (map byte_of_Z [0; 0; 0; 0]) []
              (stream_of [12; 0; 0]) (stream_of [12; 0; 0; 0; 0]) 0) as (H & _ & _).
  - lia.
  - simpl. lia.
  - reflexivity.
  - reflexivity.
  - reflexivity.
  - split; [exact H | reflexivity].
Defined.

(** ** One activation of a compound frame *)

Section Activation.

Context {host : Host}.

(** A list frame is created for the element kind and the count that follow
    in the stream, with no element in it. *)
Lemma new_read_state_for_list (T : TagClass) (count : nat) (s : MemoryInputStream)
    (tail : list byte) :
  Z.of_nat count < 2 ^ 32 ->
  remaining s = encode_be 1 (kind_of_class T) ++ encode_be 4 (Z.of_nat count) ++ tail ->
  new_read_state_for TAG_TYPE_LIST s
  = Ok (ReadListTagState T (kind_of_class T) [] (Z.of_nat count)) (skip 5 s).
Proof.
  intros Hcount Hrem. pose proof (kind_of_class_range T) as Hkr.
  pose proof (read_kind_ok (kind_of_class T) s _ ltac:(lia) Hrem) as Hkind.
  pose proof (remaining_skip s _ _ Hrem) as Hrem1. rewrite encode_be_length in Hrem1.
  pose proof (read_count_ok _ _ _ Hcount Hrem1) as Hc. rewrite skip_skip in Hc.
  unfold new_read_state_for. cbn [Z.eqb TAG_TYPE_LIST TAG_TYPE_COMPOUND Pos.eqb].
  rewrite (bind_ok _ _ _ _ _ Hkind), (bind_ok _ _ _ _ _ Hc).
  rewrite new_list_read_state_class. reflexivity.
Qed.

End Activation.

(** C8. An activation of a compound frame reads one kind-id byte.  On End
    the mapping goes to the frame beneath and the frame is popped: the root
    frame stores it in the root tag, a compound frame inserts it under its
    pending name, a list frame of compounds (or of any tag) appends it, and
    a list frame of another class throws the [logic_error] of [add_tag].
    Otherwise the entry name is read; for kind Compound an empty compound
    frame, and for kind List a list frame with the element kind and count
    that follow, is pushed above the frame, which remembers the name; for a
    simple kind the value is read inline and inserted under the name, the
    stack keeping its height.  A compound whose first kind byte is End
    decodes to the empty mapping. *)
Theorem compound_frame_activation {host : Host} (m_tag : list (Utf8String * Tag))
    (nm : Utf8String) (below : TagReadState) (rest : IoReadState) (root_tag : RootTag)
    (k : Z) (entry_name root_name : Utf8String) (s : MemoryInputStream)
    (tail : list byte) (fuel : nat) :
  0 <= k < 256 ->
  Z.of_nat (length (data entry_name)) < 2 ^ 16 ->
  Z.of_nat (length (data root_name)) < 2 ^ 16 ->
  remaining s = encode_be 1 k ++ (if k =? TAG_TYPE_END then tail
                                  else encode_string entry_name ++ tail) ->
  (fuel_bound (MemoryInputStream_new (encode_stream root_name (CompoundTag []))) <= fuel)%nat ->
  let frame := ReadCompoundTagState m_tag nm in
  let e := (frame :: below :: rest, root_tag) in
  let s' := skip (1 + length (encode_string entry_name)) s in
  let waiting := ReadCompoundTagState m_tag entry_name in
  (k = TAG_TYPE_END ->
   continue_read frame e s
   = match below with
     | ReadRootTagState =>
         Ok (ReadRootTagState :: rest,
             {| name := name root_tag; tag := Some (CompoundTag m_tag) |}) (skip 1 s)
     | ReadCompoundTagState m_tag' nm' =>
         Ok (ReadCompoundTagState (map_insert nm' (CompoundTag m_tag) m_tag') nm' :: rest,
             root_tag) (skip 1 s)
     | ReadListTagState T m_type_id m_list_tag m_remaining_reads =>
         match T with
         | T_CompoundTag | T_Tag =>
             Ok (ReadListTagState T m_type_id (m_list_tag ++ [CompoundTag m_tag])
                   m_remaining_reads :: rest, root_tag) (skip 1 s)
         | _ => Throw list_type_mismatch (skip 1 s)
         end
     end)
  /\ (k = TAG_TYPE_COMPOUND ->
      continue_read frame e s
      = Ok (ReadCompoundTagState [] {| data := [] |} :: waiting :: below :: rest, root_tag) s')
  /\ (k = TAG_TYPE_LIST ->
      forall (T : TagClass) (count : nat) (tail' : list byte),
        Z.of_nat count < 2 ^ 32 ->
        tail = encode_be 1 (kind_of_class T) ++ encode_be 4 (Z.of_nat count) ++ tail' ->
        continue_read frame e s
        = Ok (ReadListTagState T (kind_of_class T) [] (Z.of_nat count)
                :: waiting :: below :: rest, root_tag) (skip 5 s'))
  /\ (forall (t : Tag) (tail' : list byte),
        k = kind_of t -> is_container t = false ->
        well_formed t -> allocatable t ->
        tail = encode_payload t ++ tail' ->
        continue_read frame e s
        = Ok (ReadCompoundTagState (map_insert entry_name t m_tag) entry_name
                :: below :: rest, root_tag) (skip (length (encode_payload t)) s'))
  /\ (forall t, map_find entry_name m_tag = None ->
                map_insert entry_name t m_tag = m_tag ++ [(entry_name, t)]
                /\ map_find entry_name (map_insert entry_name t m_tag) = Some t)
  /\ read_nbt fuel (MemoryInputStream_new (encode_stream root_name (CompoundTag [])))
     = Some (Ok {| name := root_name; tag := Some (CompoundTag []) |}
                (skip (length (encode_stream root_name (CompoundTag [])))
                   (MemoryInputStream_new (encode_stream root_name (CompoundTag []))))).
Proof.
  intros Hk Hlen Hrlen Hrem Hfuel frame e s' waiting.
  pose proof (read_kind_ok k s _ Hk Hrem) as Hkind.
  pose proof (remaining_skip s _ _ Hrem) as Hrem1. rewrite encode_be_length in Hrem1.
  assert (Hentry : (k =? TAG_TYPE_END) = false ->
              continue_read frame e s
              = (if (k =? TAG_TYPE_COMPOUND) || (k =? TAG_TYPE_LIST)
                 then child <- new_read_state_for k ;;
                      ret (child :: waiting :: below :: rest, root_tag)
                 else t <- read_simple_tag k ;;
                      ret (ReadCompoundTagState (map_insert entry_name t m_tag) entry_name
                             :: below :: rest, root_tag)) s'
              /\ remaining s' = tail).
  { intros Hne. rewrite Hne in Hrem1.
    pose proof (read_string_ok entry_name _ _ Hlen Hrem1) as Hname.
    pose proof (remaining_skip _ _ _ Hrem1) as Hrem2. rewrite skip_skip in Hname, Hrem2.
    split; [|exact Hrem2].
    unfold frame, e. cbn [continue_read].
    rewrite (bind_ok _ _ _ _ _ Hkind), Hne, (bind_ok _ _ _ _ _ Hname).
    reflexivity. }
  split; [|split; [|split; [|split; [|split]]]].
  - intros ->. unfold frame, e. cbn [continue_read].
    rewrite (bind_ok _ _ _ _ _ Hkind). cbn [Z.eqb TAG_TYPE_END].
    unfold finish_tag, bind, ret. cbn [fst snd].
    destruct below as [|m_tag' nm'|T m_type_id m_list_tag m_remaining_reads];
      cbn [add_tag]; try reflexivity.
    destruct T; reflexivity.
  - intros ->. destruct (Hentry eq_refl) as [-> _]. reflexivity.
  - intros -> T count tail' Hcount ->.
    destruct (Hentry eq_refl) as [-> Hrem2].
    cbn [Z.eqb TAG_TYPE_LIST TAG_TYPE_COMPOUND Pos.eqb orb].
    rewrite (bind_ok _ _ _ _ _ (new_read_state_for_list T count s' tail' Hcount Hrem2)).
    reflexivity.
  - intros t tail' -> Hc Hwf Hal ->.
    pose proof (kind_of_range t) as Hkr.
    assert (Hne : (kind_of t =? TAG_TYPE_END) = false)
      by (apply Z.eqb_neq; unfold TAG_TYPE_END; lia).
    destruct (Hentry Hne) as [-> Hrem2].
    rewrite <- is_container_kind, Hc.
    rewrite (bind_ok _ _ _ _ _ (read_simple_tag_ok t s' tail' Hc (conj Hwf Hal) Hrem2)).
    reflexivity.
  - intros t Hfresh. split; [apply map_insert_fresh, Hfresh|].
    rewrite map_find_insert_same, Hfresh. reflexivity.
  - apply (read_nbt_container_ok (CompoundTag []) root_name _ []);
      [reflexivity | split; simpl; [split; [constructor | exact I] | exact I] | exact Hrlen
      | rewrite app_nil_r; reflexivity | exact Hfuel].
Qed.

Lemma compound_frame_activation_witness :
  continue_read (host := small_host) (ReadCompoundTagState [] {| data := [] |})
    ([ReadCompoundTagState [] {| data := [] |}; ReadRootTagState],
     {| name := {| data := [] |}; tag := None |})
    (stream_of [3; 0; 1; 120; 0; 0; 0; 42; 0])
  = Ok ([ReadCompoundTagState [({| data := [byte_of_Z 120] |}, IntTag 42)]
           {| data := [byte_of_Z 120] |}; ReadRootTagState],
        {| name := {| data := [] |}; tag := None |})
       (skip 8 (stream_of [3; 0; 1; 120; 0; 0; 0; 42; 0])).
Proof.
  destruct (compound_frame_activation (host := small_host) [] {| data := [] |}
              ReadRootTagState []
              {| name := {| data := [] |}; tag := None |} 3 {| data := [byte_of_Z 120] |}
              {| data := [] |} (stream_of [3; 0; 1; 120; 0; 0; 0; 42; 0])
              (map byte_of_Z [0; 0; 0; 42; 0]) 24) as (_ & _ & _ & H & _).
  - lia.
  - simpl. lia.
  - simpl. lia.
  - reflexivity.
  - vm_compute. repeat constructor.
  - rewrite (H (IntTag 42) [byte_of_Z 0]); try reflexivity.
    unfold well_formed, in_range. simpl. lia.
Defined.

(** ** Homogeneity of lists *)

Section Homogeneous.

Context {host : Host}.

Lemma homogeneous_list (T : TagClass) (vs : list Tag) :
  homogeneous (ListTag T vs) <-> Forall (fun v => elem_of_class T v /\ homogeneous v) vs.
Proof.
  cbn [homogeneous]. induction vs as [|v vs IH].
  - split; [constructor | trivial].
  - split.
    + intros [Hv Hvs]. constructor; [exact Hv | apply IH; exact Hvs].
    + intros H. inversion H; subst. split; [assumption | apply IH; assumption].
Qed.

Lemma homogeneous_compound (es : list (Utf8String * Tag)) :
  homogeneous (CompoundTag es) <-> Forall (fun e => homogeneous (snd e)) es.
Proof.
  cbn [homogeneous]. induction es as [|e es IH].
  - split; [constructor | trivial].
  - split.
    + intros [He Hes]. constructor; [exact He | apply IH; exact Hes].
    + intros H. inversion H; subst. split; [assumption | apply IH; assumption].
Qed.

Lemma map_insert_homogeneous (k : Utf8String) (t : Tag) (m : list (Utf8String * Tag)) :
  homogeneous t -> Forall (fun e => homogeneous (snd e)) m ->
  Forall (fun e => homogeneous (snd e)) (map_insert k t m).
Proof.
  intros Ht Hm. unfold map_insert. destruct (map_find k m); [exact Hm|].
  apply Forall_app. split; [exact Hm | constructor; [exact Ht | constructor]].
Qed.

(** A tag read by [read_simple_tag] is of the kind asked for and holds no
    list. *)
Lemma read_simple_tag_kind (k : Z) (s : MemoryInputStream) (t : Tag) (s' : MemoryInputStream) :
  read_simple_tag k s = Ok t s' -> kind_of t = k /\ homogeneous t.
Proof.
  unfold read_simple_tag.
  repeat match goal with
         | |- context [match ?x with _ => _ end] => is_var x; destruct x
         end; try discriminate;
    unfold read_simple_payload, read_float_tag, read_byte_array_tag, read_string_tag,
      read_int_array_tag, bind, ret;
    repeat match goal with
           | |- context [match ?m s with _ => _ end] => destruct (m s); try discriminate
           | |- context [match ?m ?s0 with Ok _ _ => _ | Throw _ _ => _ end] =>
               destruct (m s0); try discriminate
           end;
    intros [= <- _]; split; reflexivity.
Qed.

Lemma read_list_loop_homogeneous (n : nat) (T : TagClass) (l : list Tag)
    (s : MemoryInputStream) (values : list Tag) (s' : MemoryInputStream) :
  Forall (fun v => elem_of_class T v /\ homogeneous v) l ->
  read_list_loop n T (kind_of_class T) l s = Ok values s' ->
  Forall (fun v => elem_of_class T v /\ homogeneous v) values.
Proof.
  revert l s. induction n as [|n IH]; intros l s Hl; cbn [read_list_loop].
  - intros [= <- _]. exact Hl.
  - unfold bind at 1.
    destruct (read_simple_tag (kind_of_class T) s) as [t s1|] eqn:E; [|discriminate].
    apply read_simple_tag_kind in E. destruct E as [Hk Ht].
    unfold list_add_tag, bind at 1.
    destruct (dynamic_cast T t); [|discriminate]. unfold ret.
    apply IH. apply Forall_app. split; [exact Hl|].
    constructor; [split; assumption | constructor].
Qed.

Lemma new_list_read_state_inv (k length : Z) (s : MemoryInputStream)
    (f : TagReadState) (s' : MemoryInputStream) :
  new_list_read_state k length s = Ok f s' ->
  exists T, f = ReadListTagState T k [] length /\ k = kind_of_class T.
Proof.
  unfold new_list_read_state.
  repeat match goal with
         | |- context [match ?x with _ => _ end] => is_var x; destruct x
         end; try discriminate;
    intros [= <- _]; eexists; split; reflexivity.
Qed.

(** A new frame satisfies its invariant and will deliver a tag of the kind
    it was created for. *)
Lemma new_read_state_for_ok (k : Z) (s : MemoryInputStream)
    (f : TagReadState) (s' : MemoryInputStream) :
  new_read_state_for k s = Ok f s' -> frame_ok f /\ frame_kind f = k.
Proof.
  unfold new_read_state_for.
  destruct (Z.eqb_spec k TAG_TYPE_COMPOUND) as [->|_].
  - intros [= <- _]. split; [constructor | reflexivity].
  - destruct (Z.eqb_spec k TAG_TYPE_LIST) as [->|_]; [|discriminate].
    unfold bind.
    destruct (read_big_endian_unsigned_int uint8_t 1 s) as [inner s1|]; [|discriminate].
    destruct (read_big_endian_unsigned_int uint32_t 4 s1) as [n s2|]; [|discriminate].
    intros H. apply new_list_read_state_inv in H. destruct H as (T & -> & ->).
    split; [split; [reflexivity | constructor] | reflexivity].
Qed.

(** Handing a homogeneous tag of the expected kind to a frame keeps the
    frame's invariant. *)
Lemma add_tag_ok (below : TagReadState) (t : Tag) (root_tag : RootTag)
    (s : MemoryInputStream) (r : TagReadState * RootTag) (s' : MemoryInputStream) :
  frame_ok below -> homogeneous t -> root_ok root_tag ->
  (forall T k l n, below = ReadListTagState T k l n -> kind_of t = k) ->
  add_tag below t root_tag s = Ok r s' ->
  frame_ok (fst r) /\ root_ok (snd r) /\ frame_kind (fst r) = frame_kind below.
Proof.
  intros Hf Ht Hroot Hkind. destruct below as [|m nm|T k l n]; cbn [add_tag].
  - intros [= <- _]. cbn [fst snd]. repeat split.
    intros t' [= <-]. exact Ht.
  - intros [= <- _]. cbn [fst snd frame_ok]. repeat split; [|exact Hroot].
    apply map_insert_homogeneous; assumption.
  - unfold list_add_tag, bind, ret. destruct (dynamic_cast T t); [|discriminate].
    intros [= <- _]. cbn [fst snd frame_ok]. destruct Hf as [Hk Hl].
    repeat split; [exact Hk | | exact Hroot].
    apply Forall_app. split; [exact Hl|].
    constructor; [|constructor]. split; [|exact Ht].
    unfold elem_of_class. rewrite <- Hk. eapply Hkind. reflexivity.
Qed.

Lemma finish_tag_ok (t : Tag) (top : TagReadState) (rest : IoReadState)
    (root_tag : RootTag) (s : MemoryInputStream) (e' : Engine) (s' : MemoryInputStream) :
  engine_ok (top :: rest, root_tag) -> homogeneous t -> kind_of t = frame_kind top ->
  finish_tag t (top :: rest, root_tag) s = Ok e' s' ->
  engine_ok e'.
Proof.
  intros [Hstk Hroot] Ht Hk. unfold finish_tag. cbn [fst snd] in *.
  destruct rest as [|below rest']; [discriminate|].
  destruct Hstk as (Htop & Hacc & Hbelow & Hacc' & Hrest).
  unfold bind. destruct (add_tag below t root_tag s) as [r s1|] eqn:E; [|discriminate].
  intros [= <- _].
  apply add_tag_ok in E; try assumption.
  - destruct E as (Hf & Hr & Hfk). split; [|exact Hr]. cbn [fst stack_ok].
    split; [exact Hf|]. split; [|exact Hrest].
    destruct rest' as [|p rest'']; [exact I|].
    destruct p; cbn [accepts] in *; congruence.
  - intros T k l n ->. cbn [accepts] in Hacc. congruence.
Qed.

(** One iteration of the drive loop keeps the invariant of the engine. *)
Lemma continue_read_ok (top : TagReadState) (rest : IoReadState) (root_tag : RootTag)
    (s : MemoryInputStream) (e' : Engine) (s' : MemoryInputStream) :
  engine_ok (top :: rest, root_tag) ->
  continue_read top (top :: rest, root_tag) s = Ok e' s' ->
  engine_ok e'.
Proof.
  intros Hok. pose proof Hok as [Hstk Hroot]. cbn [fst snd] in Hstk, Hroot.
  destruct Hstk as (Htop & Hacc & Hrest).
  destruct top as [|m_tag nm|T k l r]; cbn [continue_read].
  - intros [= <- _]. split; assumption.
  - unfold bind at 1.
    destruct (read_big_endian_unsigned_int uint8_t 1 s) as [id s1|]; [|discriminate].
    destruct (id =? TAG_TYPE_END).
    + apply finish_tag_ok; [exact Hok | apply homogeneous_compound; exact Htop | reflexivity].
    + unfold bind at 1. destruct (read_string s1) as [next_name s2|]; [|discriminate].
      destruct ((id =? TAG_TYPE_COMPOUND) || (id =? TAG_TYPE_LIST)).
      * unfold bind at 1.
        destruct (new_read_state_for id s2) as [child s3|] eqn:E; [|discriminate].
        apply new_read_state_for_ok in E. destruct E as [Hchild _].
        intros [= <- _]. split; [|exact Hroot]. cbn [fst snd tl stack_ok].
        repeat split; try assumption.
        all: try (destruct rest as [|p rest']; [exact I|]; destruct p; exact Hacc).
      * unfold bind at 1.
        destruct (read_simple_tag id s2) as [t s3|] eqn:E; [|discriminate].
        apply read_simple_tag_kind in E. destruct E as [_ Ht].
        intros [= <- _]. split; [|exact Hroot]. cbn [fst snd tl stack_ok].
        repeat split; try assumption.
        all: try (apply map_insert_homogeneous; assumption).
        all: try (destruct rest as [|p rest']; [exact I|]; destruct p; exact Hacc).
  - destruct Htop as [Hk Hl].
    destruct ((k =? TAG_TYPE_COMPOUND) || (k =? TAG_TYPE_LIST)).
    + destruct (r =? 0).
      * apply finish_tag_ok; [exact Hok | apply homogeneous_list; exact Hl | reflexivity].
      * unfold bind at 1.
        destruct (new_read_state_for k s) as [child s1|] eqn:E; [|discriminate].
        apply new_read_state_for_ok in E. destruct E as [Hchild Hck].
        intros [= <- _]. split; [|exact Hroot]. cbn [fst snd tl stack_ok frame_ok accepts].
        repeat split; try assumption.
        all: try (destruct rest as [|p rest']; [exact I|]; destruct p; exact Hacc).
    + unfold bind at 1. subst k.
      destruct (read_list_loop (Z.to_nat r) T (kind_of_class T) l s) as [values s1|] eqn:E;
        [|discriminate].
      apply read_list_loop_homogeneous in E; [|exact Hl].
      apply finish_tag_ok; [exact Hok | apply homogeneous_list; exact E | reflexivity].
Qed.

Lemma process_read_state_ok (fuel : nat) (e : Engine) (s : MemoryInputStream)
    (root_tag : RootTag) (s' : MemoryInputStream) :
  engine_ok e -> process_read_state fuel e s = Some (Ok root_tag s') -> root_ok root_tag.
Proof.
  revert e s. induction fuel as [|fuel IH]; intros [stk r] s Hok;
    destruct stk as [|top rest]; cbn [process_read_state fst snd]; try discriminate.
  - intros [= <- _]. apply Hok.
  - intros [= <- _]. apply Hok.
  - match goal with |- context [continue_read ?f ?e ?s0] =>
      destruct (continue_read f e s0) as [e' s1|x] eqn:E end; [|discriminate].
    apply IH. eapply continue_read_ok; [exact Hok | exact E].
Qed.

Lemma read_nbt_root_ok (fuel : nat) (s : MemoryInputStream) (root_tag : RootTag)
    (s' : MemoryInputStream) :
  read_nbt fuel s = Some (Ok root_tag s') -> root_ok root_tag.
Proof.
  unfold read_nbt.
  destruct ((tag_type_id <- read_big_endian_unsigned_int uint8_t 1 ;;
             root_name <- read_string ;; ret (tag_type_id, root_name)) s)
    as [[id nm] s1|]; [|discriminate].
  destruct ((id =? TAG_TYPE_LIST) || (id =? TAG_TYPE_COMPOUND)).
  - destruct (new_read_state_for id s1) as [frame s2|] eqn:E; [|discriminate].
    apply new_read_state_for_ok in E. destruct E as [Hf _].
    apply process_read_state_ok. split; [|intros t; discriminate].
    cbn [fst stack_ok accepts]. repeat split; assumption.
  - intros [= <- _] t. discriminate.
Qed.

End Homogeneous.

(** C9. Every list in a tree that [read_nbt] returns is homogeneous: each
    element of a [ListTag<T>] is of the element kind the list declared, at
    every depth; and every iteration of the drive loop, the only code that
    appends to a list, keeps that invariant on the frames. *)
Theorem read_nbt_lists_homogeneous {host : Host} (fuel : nat) (s : MemoryInputStream)
    (root_tag : RootTag) (s' : MemoryInputStream) (t : Tag) :
  read_nbt fuel s = Some (Ok root_tag s') ->
  tag root_tag = Some t ->
  homogeneous t
  /\ (forall T vs, t = ListTag T vs -> Forall (fun v => kind_of v = kind_of_class T) vs)
  /\ (forall top rest r s0 e' s1,
        engine_ok (top :: rest, r) ->
        continue_read top (top :: rest, r) s0 = Ok e' s1 ->
        engine_ok e').
Proof.
  intros Hread Htag.
  pose proof (read_nbt_root_ok fuel s root_tag s' Hread t Htag) as Hh.
  split; [exact Hh|]. split.
  - intros T vs ->. apply homogeneous_list in Hh.
    eapply Forall_impl; [|exact Hh]. intros v [Hv _]. exact Hv.
  - intros top rest r s0 e' s1. apply continue_read_ok.
Qed.

Lemma read_nbt_lists_homogeneous_witness :
  homogeneous (ListTag T_Tag [ListTag T_ByteTag [ByteTag 1; ByteTag (-1)]; ListTag T_Tag []]).
Proof.
  apply (read_nbt_lists_homogeneous (host := small_host) 100
           (stream_of [9; 0; 0; 9; 0; 0; 0; 2; 1; 0; 0; 0; 2; 1; 255; 9; 0; 0; 0; 0])
           {| name := {| data := [] |};
              tag := Some (ListTag T_Tag [ListTag T_ByteTag [ByteTag 1; ByteTag (-1)];
                                          ListTag T_Tag []]) |}
           (skip 20 (stream_of [9; 0; 0; 9; 0; 0; 0; 2; 1; 0; 0; 0; 2; 1; 255; 9; 0; 0; 0; 0]))).
  - vm_compute. reflexivity.
  - reflexivity.
Defined.

(** ** Truncated input *)

Section Truncation.

Context {host : Host}.

Lemma prefix_sim_ret {A} (a : A) : prefix_sim (ret a).
Proof. intros d ext short long H. apply sim_ok. exact H. Qed.

Lemma prefix_sim_throw {A} (x : exn) : prefix_sim (@throw A x).
Proof. intros d ext short long H. apply sim_throw. Qed.

Lemma prefix_sim_bind {A B} (m : M A) (f : A -> M B) :
  prefix_sim m -> (forall a, prefix_sim (f a)) -> prefix_sim (bind m f).
Proof.
  intros Hm Hf d ext short long H. unfold bind.
  destruct (Hm d ext short long H) as [s o|a s l Hsl|x s l].
  - apply sim_eof.
  - apply Hf. exact Hsl.
  - apply sim_throw.
Qed.

Lemma prefix_sim_read (size : Z) : prefix_sim (read size).
Proof.
  intros d ext short long (Hd & Hl & Hpos & Hle). unfold read, m_size.
  rewrite Hd, Hl, <- Hpos, length_app.
  destruct (Z.ltb_spec (Z.of_nat (length d - m_position short)) size) as [|Hs]; [apply sim_eof|].
  destruct (Z.ltb_spec (Z.of_nat (length d + length ext - m_position short)) size); [lia|].
  assert (Hn : (Z.to_nat size <= length d - m_position short)%nat) by lia.
  replace (firstn (Z.to_nat size) (skipn (m_position short) (d ++ ext)))
    with (firstn (Z.to_nat size) (skipn (m_position short) d)).
  - apply sim_ok. repeat split; simpl; try assumption; lia.
  - rewrite skipn_app, firstn_app.
    replace (Z.to_nat size - length (skipn (m_position short) d))%nat with 0%nat
      by (rewrite length_skipn; lia).
    simpl. rewrite app_nil_r. reflexivity.
Qed.

(** Storage is granted or refused whatever the buffer holds. *)
Lemma prefix_sim_allocate (n size : Z) : prefix_sim (allocate n size).
Proof.
  intros d ext short long H. unfold allocate.
  destruct (n =? 0); [apply sim_ok, H|].
  destruct (max_bytes <? n * size); [apply sim_throw|].
  destruct (can_allocate (n * size)); [apply sim_ok, H | apply sim_throw].
Qed.

(** Every reader is built from [read], [allocate], [ret], [throw] and
    [bind]. *)
Ltac prefix_sim_auto :=
  repeat first
    [ apply prefix_sim_ret
    | apply prefix_sim_throw
    | apply prefix_sim_read
    | assumption
    | apply prefix_sim_bind; [|intros ?]
    | match goal with
      | |- prefix_sim (match ?x with _ => _ end) => destruct x
      | |- prefix_sim (if ?b then _ else _) => destruct b
      end ].

Lemma prefix_sim_read_be (T : ctype) (size : Z) :
  prefix_sim (read_big_endian_unsigned_int T size).
Proof. unfold read_big_endian_unsigned_int. prefix_sim_auto. Qed.

Lemma prefix_sim_read_string : prefix_sim read_string.
Proof.
  unfold read_string. apply prefix_sim_bind; [apply prefix_sim_read_be | intros ?].
  prefix_sim_auto.
Qed.

Lemma prefix_sim_read_int_array_loop (n : nat) (values : list Z) :
  prefix_sim (read_int_array_loop n values).
Proof.
  revert values. induction n as [|n IH]; intros values; simpl.
  - apply prefix_sim_ret.
  - apply prefix_sim_bind; [apply prefix_sim_read_be | intros ?; apply IH].
Qed.

Lemma prefix_sim_read_simple_tag (k : Z) : prefix_sim (read_simple_tag k).
Proof.
  unfold read_simple_tag.
  repeat match goal with
         | |- prefix_sim (match ?x with _ => _ end) => destruct x
         end;
    try apply prefix_sim_throw;
    unfold read_simple_payload, read_float_tag, read_byte_array_tag, read_string_tag,
      read_int_array_tag;
    repeat first [ apply prefix_sim_ret
                 | apply prefix_sim_read_be
                 | apply prefix_sim_read
                 | apply prefix_sim_read_string
                 | apply prefix_sim_allocate
                 | apply prefix_sim_read_int_array_loop
                 | apply prefix_sim_bind; [|intros ?] ].
Qed.

Lemma prefix_sim_list_add_tag (T : TagClass) (l : list Tag) (t : Tag) :
  prefix_sim (list_add_tag T l t).
Proof. unfold list_add_tag. prefix_sim_auto. Qed.

Lemma prefix_sim_read_list_loop (n : nat) (T : TagClass) (k : Z) (l : list Tag) :
  prefix_sim (read_list_loop n T k l).
Proof.
  revert l. induction n as [|n IH]; intros l; simpl.
  - apply prefix_sim_ret.
  - apply prefix_sim_bind; [apply prefix_sim_read_simple_tag | intros t].
    apply prefix_sim_bind; [apply prefix_sim_list_add_tag | intros; apply IH].
Qed.

Lemma prefix_sim_add_tag (f : TagReadState) (t : Tag) (r : RootTag) :
  prefix_sim (add_tag f t r).
Proof.
  destruct f; cbn [add_tag]; try apply prefix_sim_ret.
  apply prefix_sim_bind; [apply prefix_sim_list_add_tag | intros; apply prefix_sim_ret].
Qed.

Lemma prefix_sim_finish_tag (t : Tag) (e : Engine) : prefix_sim (finish_tag t e).
Proof.
  unfold finish_tag. destruct (fst e) as [|top [|below rest]]; try apply prefix_sim_throw.
  apply prefix_sim_bind; [apply prefix_sim_add_tag | intros; apply prefix_sim_ret].
Qed.

Lemma prefix_sim_new_list_read_state (k n : Z) : prefix_sim (new_list_read_state k n).
Proof.
  unfold new_list_read_state.
  repeat match goal with
         | |- prefix_sim (match ?x with _ => _ end) => destruct x
         end; first [apply prefix_sim_ret | apply prefix_sim_throw].
Qed.

Lemma prefix_sim_new_read_state_for (k : Z) : prefix_sim (new_read_state_for k).
Proof.
  unfold new_read_state_for.
  destruct (k =? TAG_TYPE_COMPOUND); [apply prefix_sim_ret|].
  destruct (k =? TAG_TYPE_LIST); [|apply prefix_sim_throw].
  apply prefix_sim_bind; [apply prefix_sim_read_be | intros ?].
  apply prefix_sim_bind; [apply prefix_sim_read_be | intros ?].
  apply prefix_sim_new_list_read_state.
Qed.

Lemma prefix_sim_continue_read (top : TagReadState) (e : Engine) :
  prefix_sim (continue_read top e).
Proof.
  destruct top as [|m nm|T k l r]; cbn [continue_read].
  - apply prefix_sim_ret.
  - apply prefix_sim_bind; [apply prefix_sim_read_be | intros id].
    destruct (id =? TAG_TYPE_END); [apply prefix_sim_finish_tag|].
    apply prefix_sim_bind; [apply prefix_sim_read_string | intros next_name].
    destruct ((id =? TAG_TYPE_COMPOUND) || (id =? TAG_TYPE_LIST)).
    + apply prefix_sim_bind; [apply prefix_sim_new_read_state_for | intros; apply prefix_sim_ret].
    + apply prefix_sim_bind; [apply prefix_sim_read_simple_tag | intros; apply prefix_sim_ret].
  - destruct ((k =? TAG_TYPE_COMPOUND) || (k =? TAG_TYPE_LIST)).
    + destruct (r =? 0); [apply prefix_sim_finish_tag|].
      apply prefix_sim_bind; [apply prefix_sim_new_read_state_for | intros; apply prefix_sim_ret].
    + apply prefix_sim_bind; [apply prefix_sim_read_list_loop | intros; apply prefix_sim_finish_tag].
Qed.

Lemma sim_loop_process (d ext : list byte) (fuel : nat) (e : Engine)
    (short long : MemoryInputStream) :
  prefix_of d ext short long ->
  sim_loop d ext (process_read_state fuel e short) (process_read_state fuel e long).
Proof.
  revert e short long. induction fuel as [|fuel IH]; intros [stk r] short long H;
    destruct stk as [|top rest]; cbn [process_read_state fst snd].
  - apply sim_loop_some, sim_ok, H.
  - apply sim_loop_none.
  - apply sim_loop_some, sim_ok, H.
  - match goal with |- context [continue_read ?f ?e0 short] =>
      pose proof (prefix_sim_continue_read f e0 d ext short long H) as Hs;
      destruct (continue_read f e0 short) as [e1 s1|x1];
      destruct (continue_read f e0 long) as [e2 s2|x2]
    end; inversion Hs; subst;
      first [ apply sim_loop_eof | apply IH; assumption | apply sim_loop_some, sim_throw ].
Qed.

Lemma sim_loop_read_nbt (d ext : list byte) (fuel : nat) (short long : MemoryInputStream) :
  prefix_of d ext short long ->
  sim_loop d ext (read_nbt fuel short) (read_nbt fuel long).
Proof.
  intros H. unfold read_nbt.
  assert (Hhead : prefix_sim (tag_type_id <- read_big_endian_unsigned_int uint8_t 1 ;;
                              root_name <- read_string ;; ret (tag_type_id, root_name))).
  { apply prefix_sim_bind; [apply prefix_sim_read_be | intros ?].
    apply prefix_sim_bind; [apply prefix_sim_read_string | intros; apply prefix_sim_ret]. }
  pose proof (Hhead d ext short long H) as Hs.
  destruct ((tag_type_id <- read_big_endian_unsigned_int uint8_t 1 ;;
             root_name <- read_string ;; ret (tag_type_id, root_name)) short)
    as [[id1 nm1] s1|x1];
    destruct ((tag_type_id <- read_big_endian_unsigned_int uint8_t 1 ;;
               root_name <- read_string ;; ret (tag_type_id, root_name)) long)
      as [[id2 nm2] s2|x2];
    inversion Hs; subst; try apply sim_loop_eof; try (apply sim_loop_some, sim_throw).
  destruct ((id2 =? TAG_TYPE_LIST) || (id2 =? TAG_TYPE_COMPOUND));
    [|apply sim_loop_some, sim_ok; assumption].
  pose proof (prefix_sim_new_read_state_for id2 d ext s1 s2 ltac:(assumption)) as Hn.
  destruct (new_read_state_for id2 s1) as [f1 t1|y1];
    destruct (new_read_state_for id2 s2) as [f2 t2|y2];
    inversion Hn; subst;
    first [ apply sim_loop_eof | apply sim_loop_process; assumption
          | apply sim_loop_some, sim_throw ].
Qed.


End Truncation.




(** ** Well-formedness of what the reader builds *)

Section WellFormed.

Context {host : Host}.

Lemma read_string_name_ok (s : MemoryInputStream) (nm : Utf8String) (s' : MemoryInputStream) :
  read_string s = Ok nm s' -> name_ok nm.
Proof.
  unfold read_string, bind, ret.
  destruct (read_big_endian_unsigned_int uint16_t 2 s) as [n s1|] eqn:E1; [|discriminate].
  destruct (read n s1) as [bs s2|] eqn:E2; [|discriminate].
  intros [= <- _]. apply read_be_range in E1. apply read_length in E2.
  unfold name_ok, in_range in *. simpl in *. lia.
Qed.

Lemma well_formed_list_intro (T : TagClass) (vs : list Tag) :
  Z.of_nat (length vs) < 2 ^ 32 ->
  Forall (fun v => elem_of_class T v /\ well_formed v) vs ->
  well_formed (ListTag T vs).
Proof.
  intros Hlen Hall. cbn [well_formed]. split; [exact Hlen|]. clear Hlen.
  induction Hall as [|v vs Hv Hall IH]; [exact I | split; assumption].
Qed.

Lemma well_formed_compound_intro (es : list (Utf8String * Tag)) :
  NoDup (map fst es) ->
  Forall (fun e => name_ok (fst e) /\ well_formed (snd e)) es ->
  well_formed (CompoundTag es).
Proof.
  intros Hnd Hall. cbn [well_formed]. split; [exact Hnd|]. clear Hnd.
  induction Hall as [|e es He Hall IH]; [exact I | split; assumption].
Qed.

Lemma decodable_list_intro (T : TagClass) (vs : list Tag) :
  Z.of_nat (length vs) < 2 ^ 32 ->
  Forall (fun v => elem_of_class T v /\ decodable v) vs ->
  decodable (ListTag T vs).
Proof.
  intros Hlen Hall. split.
  - apply well_formed_list_intro; [exact Hlen|].
    eapply Forall_impl; [|exact Hall]. intros v (Hk & Hwf & _). split; assumption.
  - apply allocatable_list. eapply Forall_impl; [|exact Hall]. intros v (_ & _ & Hal). exact Hal.
Qed.

Lemma decodable_compound_intro (es : list (Utf8String * Tag)) :
  NoDup (map fst es) ->
  Forall (fun e => name_ok (fst e) /\ decodable (snd e)) es ->
  decodable (CompoundTag es).
Proof.
  intros Hnd Hall. split.
  - apply well_formed_compound_intro; [exact Hnd|].
    eapply Forall_impl; [|exact Hall]. intros e (Hk & Hwf & _). split; assumption.
  - apply allocatable_compound. eapply Forall_impl; [|exact Hall].
    intros e (_ & _ & Hal). exact Hal.
Qed.

Lemma twos_complement_decode_in_range (size : Z) (RT IT : ctype) (v : Z) :
  in_range RT (twos_complement_decode size RT IT v).
Proof.
  unfold twos_complement_decode. destruct (negb _); apply cast_in_range.
Qed.

Lemma read_int_array_loop_throws (n : nat) (values : list Z) (s s' : MemoryInputStream)
    (x : exn) :
  read_int_array_loop n values s = Throw x s' -> x = PrematureEof.
Proof.
  revert values s. induction n as [|n IH]; intros values s; cbn [read_int_array_loop];
    [discriminate|].
  unfold bind at 1.
  destruct (read_big_endian_unsigned_int uint32_t 4 s) as [enc s1|y s1] eqn:E.
  - apply IH.
  - intros [= <- _]. eapply read_be_throws, E.
Qed.

Lemma read_int_array_loop_wf (n : nat) (values : list Z) (s : MemoryInputStream)
    (r : list Z) (s' : MemoryInputStream) :
  Forall (in_range int32_t) values ->
  read_int_array_loop n values s = Ok r s' ->
  Forall (in_range int32_t) r /\ length r = (length values + n)%nat.
Proof.
  revert values s. induction n as [|n IH]; intros values s Hv; cbn [read_int_array_loop].
  - intros [= <- _]. split; [exact Hv | lia].
  - unfold bind at 1.
    destruct (read_big_endian_unsigned_int uint32_t 4 s) as [enc s1|]; [|discriminate].
    intros H. apply IH in H.
    + rewrite length_app in H. simpl in H. destruct H as [H1 H2]. split; [exact H1 | lia].
    + apply Forall_app. split; [exact Hv|]. constructor; [apply cast_in_range | constructor].
Qed.

(** A refused request for the storage of an array of a declared length. *)
Lemma refused_intro (n size : Z) (x : exn) :
  in_range uint32_t n -> size = 1 \/ size = 4 ->
  x = length_error \/ x = bad_alloc -> grants n size = false -> refused x.
Proof.
  intros Hn Hsize Hx Hg. split; [exact Hx|]. exists n, size.
  unfold in_range in Hn. simpl in Hn.
  assert (n <> 0) by (intros ->; unfold grants in Hg; discriminate).
  repeat split; try assumption; lia.
Qed.

(** A byte array that was read is as long as its length field said, and the
    host had storage for it. *)
Lemma read_byte_array_tag_wf (s : MemoryInputStream) (t : Tag) (s' : MemoryInputStream) :
  read_byte_array_tag s = Ok t s' ->
  kind_of t = 7 /\ decodable t /\ is_container t = false.
Proof.
  unfold read_byte_array_tag, bind, ret.
  destruct (read_big_endian_unsigned_int uint32_t 4 s) as [n s1|] eqn:E1; [|discriminate].
  destruct (allocate n 1 s1) as [u s2|] eqn:E2; [|discriminate].
  destruct (read n s2) as [value s3|] eqn:E3; [|discriminate].
  intros [= <- _]. apply read_be_range in E1. apply allocate_ok in E2. apply read_length in E3.
  destruct E2 as [Hg _]. unfold in_range in E1. simpl in E1.
  assert (Hlen : Z.of_nat (length value) = n) by lia.
  split; [reflexivity|]. split; [|reflexivity].
  split; cbn [well_formed allocatable]; rewrite Hlen; [lia | exact Hg].
Qed.

Lemma read_int_array_tag_wf (s : MemoryInputStream) (t : Tag) (s' : MemoryInputStream) :
  read_int_array_tag s = Ok t s' ->
  kind_of t = 11 /\ decodable t /\ is_container t = false.
Proof.
  unfold read_int_array_tag, bind, ret.
  destruct (read_big_endian_unsigned_int uint32_t 4 s) as [n s1|] eqn:E1; [|discriminate].
  destruct (allocate n 4 s1) as [u s2|] eqn:E2; [|discriminate].
  destruct (read_int_array_loop (Z.to_nat n) [] s2) as [values s3|] eqn:E3; [|discriminate].
  intros [= <- _]. apply read_be_range in E1. apply allocate_ok in E2.
  apply read_int_array_loop_wf in E3; [|constructor].
  destruct E2 as [Hg _]. destruct E3 as [Hall Hl]. unfold in_range in E1. simpl in E1, Hl.
  assert (Hlen : Z.of_nat (length values) = n) by lia.
  split; [reflexivity|]. split; [|reflexivity].
  split; cbn [well_formed allocatable]; rewrite Hlen; [split; [lia | exact Hall] | exact Hg].
Qed.

Lemma read_byte_array_tag_input_error (s s' : MemoryInputStream) (x : exn) :
  read_byte_array_tag s = Throw x s' -> input_error x.
Proof.
  unfold read_byte_array_tag, bind, ret.
  destruct (read_big_endian_unsigned_int uint32_t 4 s) as [n s1|y s1] eqn:E1.
  - apply read_be_range in E1.
    destruct (allocate n 1 s1) as [u s2|y s2] eqn:E2.
    + destruct (read n s2) as [value s3|y s3] eqn:E3; [discriminate|].
      intros [= <- _]. left. eapply read_throws, E3.
    + intros [= <- _]. apply allocate_throw in E2. destruct E2 as (Hy & Hg & _).
      right. right. apply (refused_intro n 1); auto.
  - intros [= <- _]. left. eapply read_be_throws, E1.
Qed.

Lemma read_int_array_tag_input_error (s s' : MemoryInputStream) (x : exn) :
  read_int_array_tag s = Throw x s' -> input_error x.
Proof.
  unfold read_int_array_tag, bind, ret.
  destruct (read_big_endian_unsigned_int uint32_t 4 s) as [n s1|y s1] eqn:E1.
  - apply read_be_range in E1.
    destruct (allocate n 4 s1) as [u s2|y s2] eqn:E2.
    + destruct (read_int_array_loop (Z.to_nat n) [] s2) as [values s3|y s3] eqn:E3;
        [discriminate|].
      intros [= <- _]. left. eapply read_int_array_loop_throws, E3.
    + intros [= <- _]. apply allocate_throw in E2. destruct E2 as (Hy & Hg & _).
      right. right. apply (refused_intro n 4); auto.
  - intros [= <- _]. left. eapply read_be_throws, E1.
Qed.

(** A tag read by [read_simple_tag] is a well-formed value of the kind asked
    for, held in granted storage, and no container. *)
Lemma read_simple_tag_wf (k : Z) (s : MemoryInputStream) (t : Tag) (s' : MemoryInputStream) :
  read_simple_tag k s = Ok t s' ->
  kind_of t = k /\ decodable t /\ is_container t = false.
Proof.
  unfold read_simple_tag.
  repeat match goal with
         | |- context [match ?x with _ => _ end] => is_var x; destruct x
         end; try discriminate;
    try apply read_byte_array_tag_wf; try apply read_int_array_tag_wf;
    unfold read_simple_payload, read_float_tag, read_string_tag, bind, ret;
    repeat match goal with
           | |- context [match ?m ?s0 with Ok _ _ => _ | Throw _ _ => _ end] =>
               let E := fresh "E" in destruct (m s0) eqn:E; try discriminate
           end;
    intros [= <- _]; (split; [reflexivity|]); (split; [|reflexivity]);
    (split; [|exact I]);
    repeat match goal with
           | H : read_big_endian_unsigned_int _ _ _ = Ok _ _ |- _ => apply read_be_range in H
           | H : read _ _ = Ok _ _ |- _ => apply read_length in H
           | H : read_string _ = Ok _ _ |- _ => apply read_string_name_ok in H
           end;
    cbn [well_formed];
    try apply twos_complement_decode_in_range;
    try assumption;
    unfold in_range, name_ok in *; simpl in *; try split; try assumption; lia.
Qed.

Lemma read_simple_tag_input_error (k : Z) (s s' : MemoryInputStream) (x : exn) :
  k <> TAG_TYPE_LIST -> k <> TAG_TYPE_COMPOUND ->
  read_simple_tag k s = Throw x s' -> input_error x.
Proof.
  intros HnL HnC. unfold read_simple_tag.
  repeat match goal with
         | |- context [match ?y with _ => _ end] => is_var y; destruct y
         end;
    try (exfalso; apply HnL; reflexivity); try (exfalso; apply HnC; reflexivity);
    try (intros [= <- _]; right; left; eexists; reflexivity);
    try apply read_byte_array_tag_input_error; try apply read_int_array_tag_input_error;
    unfold read_simple_payload, read_float_tag, read_string_tag, bind, ret;
    repeat match goal with
           | |- context [match ?m ?s0 with Ok _ _ => _ | Throw _ _ => _ end] =>
               let E := fresh "E" in destruct (m s0) eqn:E; try discriminate
           end;
    intros [= <- _]; left;
    repeat match goal with
           | H : read_big_endian_unsigned_int _ _ _ = Throw _ _ |- _ =>
               apply read_be_throws in H; exact H
           | H : read _ _ = Throw _ _ |- _ => apply read_throws in H; exact H
           | H : read_string _ = Throw _ _ |- _ => apply read_string_throws in H; exact H
           end.
Qed.

Lemma list_add_tag_ok (T : TagClass) (l : list Tag) (t : Tag) (s : MemoryInputStream) :
  kind_of t = kind_of_class T -> list_add_tag T l t s = Ok (l ++ [t]) s.
Proof.
  intros Hk. unfold list_add_tag. rewrite (dynamic_cast_of_kind T t Hk). reflexivity.
Qed.

(** The inline pass of a list frame appends exactly [n] well-formed elements
    of the list's kind, or fails on the input. *)
Lemma read_list_loop_wf (n : nat) (T : TagClass) (l : list Tag) (s : MemoryInputStream) :
  kind_of_class T <> TAG_TYPE_LIST -> kind_of_class T <> TAG_TYPE_COMPOUND ->
  match read_list_loop n T (kind_of_class T) l s with
  | Ok values _ =>
      exists new, values = l ++ new /\ length new = n
                  /\ Forall (fun v => elem_of_class T v /\ decodable v) new
  | Throw x _ => input_error x
  end.
Proof.
  intros HnL HnC. revert l s. induction n as [|n IH]; intros l s; cbn [read_list_loop].
  - exists []. rewrite app_nil_r. repeat split. constructor.
  - unfold bind at 1.
    destruct (read_simple_tag (kind_of_class T) s) as [t s1|x] eqn:E.
    + apply read_simple_tag_wf in E. destruct E as (Hk & Hwf & _).
      rewrite (bind_ok _ _ _ _ _ (list_add_tag_ok T l t s1 Hk)).
      specialize (IH (l ++ [t]) s1).
      destruct (read_list_loop n T (kind_of_class T) (l ++ [t]) s1) as [values s2|x]; [|exact IH].
      destruct IH as (new & -> & Hlen & Hall).
      exists (t :: new). rewrite <- app_assoc. repeat split; [simpl; lia|].
      constructor; [split; assumption | exact Hall].
    + eapply read_simple_tag_input_error; eassumption.
Qed.

(** A frame created for kind List or Compound is well-formed, is no root
    frame, and will deliver a tag of that kind; creation fails only on the
    input. *)
Lemma new_read_state_for_wf (k : Z) (s : MemoryInputStream) :
  k = TAG_TYPE_LIST \/ k = TAG_TYPE_COMPOUND ->
  match new_read_state_for k s with
  | Ok f _ => f <> ReadRootTagState /\ frame_wf 0 f /\ frame_kind f = k
  | Throw x _ => input_error x
  end.
Proof.
  intros [-> | ->]; unfold new_read_state_for; cbn [Z.eqb TAG_TYPE_LIST TAG_TYPE_COMPOUND Pos.eqb].
  - unfold bind.
    destruct (read_big_endian_unsigned_int uint8_t 1 s) as [inner s1|x] eqn:E1;
      [|left; eapply read_be_throws; exact E1].
    destruct (read_big_endian_unsigned_int uint32_t 4 s1) as [n s2|x] eqn:E2;
      [|left; eapply read_be_throws; exact E2].
    apply read_be_range in E2. unfold in_range in E2. simpl in E2.
    destruct (new_list_read_state inner n s2) as [f s3|x] eqn:E3.
    + apply new_list_read_state_inv in E3. destruct E3 as (T & -> & ->).
      repeat split; try discriminate; try constructor; simpl; lia.
    + right. left. revert E3. unfold new_list_read_state.
      repeat match goal with
             | |- context [match ?y with _ => _ end] => is_var y; destruct y
             end; try discriminate; intros [= <- _]; eexists; reflexivity.
  - repeat split; try discriminate; try constructor.
Qed.

(** Handing a well-formed container of the expected kind to a waiting frame
    succeeds and leaves the frame well-formed. *)
Lemma add_tag_wf (parent : TagReadState) (t : Tag) (root_tag : RootTag) :
  frame_wf 1 parent ->
  (forall T k l n, parent = ReadListTagState T k l n -> kind_of t = k) ->
  is_container t = true -> decodable t -> root_wf root_tag ->
  exists parent' root_tag',
    (forall s, add_tag parent t root_tag s = Ok (parent', root_tag') s)
    /\ frame_wf 0 parent' /\ root_wf root_tag'
    /\ frame_kind parent' = frame_kind parent
    /\ (parent = ReadRootTagState <-> parent' = ReadRootTagState)
    /\ (parent = ReadRootTagState -> tag root_tag' <> None).
Proof.
  intros Hf Hkind Hc Hwf [Hname Hroot]. destruct parent as [|m nm|T k l n]; cbn [add_tag].
  - exists ReadRootTagState, {| name := name root_tag; tag := Some t |}.
    split; [intros; reflexivity|]. split; [exact I|].
    split; [split; [exact Hname | cbn [tag]; intros t' [= <-]; split; assumption]|].
    split; [reflexivity|]. split; [tauto | discriminate].
  - destruct Hf as (Hnd & Hall & Hnm).
    exists (ReadCompoundTagState (map_insert nm t m) nm), root_tag.
    split; [intros; reflexivity|]. split.
    { split; [apply map_insert_keys_NoDup; exact Hnd|]. split; [|exact Hnm].
      unfold map_insert. destruct (map_find nm m); [exact Hall|].
      apply Forall_app. split; [exact Hall|]. constructor; [split; assumption | constructor]. }
    split; [split; assumption|]. split; [reflexivity|].
    split; [split; discriminate | discriminate].
  - destruct Hf as (Hk & Hall & Hn & Hlen).
    assert (Hkt : kind_of t = kind_of_class T) by (rewrite <- Hk; eapply Hkind; reflexivity).
    exists (ReadListTagState T k (l ++ [t]) n), root_tag.
    split; [intros s; rewrite (bind_ok _ _ _ _ _ (list_add_tag_ok T l t s Hkt)); reflexivity|].
    split.
    { split; [exact Hk|]. split; [|split; [exact Hn | rewrite length_app; simpl; lia]].
      apply Forall_app. split; [exact Hall|]. constructor; [split; assumption | constructor]. }
    split; [split; assumption|]. split; [reflexivity|].
    split; [split; discriminate | discriminate].
Qed.

Lemma frames_wf_top (pending : Z) (top : TagReadState) (rest : IoReadState) :
  frames_wf pending (top :: rest) -> top <> ReadRootTagState ->
  exists parent rest',
    rest = parent :: rest' /\ frame_wf pending top /\ accepts parent top
    /\ frames_wf 1 (parent :: rest').
Proof.
  cbn [frames_wf]. destruct rest as [|parent rest']; [contradiction|].
  intros (_ & Hf & Ha & Hrest) _. eauto 6.
Qed.

Lemma frames_wf_parent (parent : TagReadState) (rest' : IoReadState) :
  frames_wf 1 (parent :: rest') ->
  frame_wf 1 parent /\ (rest' = [] <-> parent = ReadRootTagState).
Proof.
  cbn [frames_wf]. destruct rest' as [|p rest''].
  - intros ->. split; [exact I | tauto].
  - intros (Hne & Hf & _). split; [exact Hf|]. split; [discriminate | contradiction].
Qed.

Lemma frames_wf_replace (parent parent' : TagReadState) (rest' : IoReadState) :
  frames_wf 1 (parent :: rest') ->
  frame_wf 0 parent' -> frame_kind parent' = frame_kind parent ->
  (parent = ReadRootTagState <-> parent' = ReadRootTagState) ->
  frames_wf 0 (parent' :: rest').
Proof.
  cbn [frames_wf]. destruct rest' as [|p rest''].
  - intros -> _ _ Hiff. apply Hiff. reflexivity.
  - intros (Hne & _ & Ha & Hrest) Hf Hk Hiff.
    repeat split; [tauto | exact Hf | | exact Hrest].
    destruct p; cbn [accepts] in *; congruence.
Qed.

(** Under the invariant, [finish_tag] always succeeds. *)
Lemma finish_tag_wf (t : Tag) (top : TagReadState) (rest : IoReadState) (root_tag : RootTag) :
  frames_wf 0 (top :: rest) -> top <> ReadRootTagState -> root_wf root_tag ->
  is_container t = true -> decodable t -> kind_of t = frame_kind top ->
  exists e', (forall s, finish_tag t (top :: rest, root_tag) s = Ok e' s) /\ engine_wf e'.
Proof.
  intros Hstk Htop Hroot Hc Hwf Hk.
  destruct (frames_wf_top _ _ _ Hstk Htop) as (parent & rest' & -> & _ & Hacc & Hrest).
  destruct (frames_wf_parent _ _ Hrest) as [Hpf Hbottom].
  destruct (add_tag_wf parent t root_tag Hpf) as (parent' & root' & Hadd & Hf' & Hr' & Hfk & Hiff & Htag);
    try assumption.
  { intros T k l n ->. cbn [accepts] in Hacc. congruence. }
  exists (parent' :: rest', root'). split.
  - intros s. unfold finish_tag. cbn [fst snd]. rewrite (bind_ok _ _ _ _ _ (Hadd s)). reflexivity.
  - split; [right; eapply frames_wf_replace; eassumption|]. split; [exact Hr'|].
    cbn [fst snd length]. intros Hlen. apply Htag. apply Hbottom.
    destruct rest'; [reflexivity | simpl in Hlen; lia].
Qed.

Lemma map_insert_wf (k : Utf8String) (t : Tag) (m : list (Utf8String * Tag)) :
  name_ok k -> decodable t ->
  Forall (fun e => name_ok (fst e) /\ decodable (snd e)) m ->
  Forall (fun e => name_ok (fst e) /\ decodable (snd e)) (map_insert k t m).
Proof.
  intros Hk Ht Hm. unfold map_insert. destruct (map_find k m); [exact Hm|].
  apply Forall_app. split; [exact Hm|]. constructor; [split; assumption | constructor].
Qed.

Lemma accepts_frame_kind (parent child child' : TagReadState) :
  frame_kind child' = frame_kind child -> accepts parent child -> accepts parent child'.
Proof. destruct parent; cbn [accepts]; congruence. Qed.

(** One iteration of the drive loop, started on a well-formed engine, leaves
    a well-formed engine or fails on the input. *)
Lemma continue_read_wf (top : TagReadState) (rest : IoReadState) (root_tag : RootTag)
    (s : MemoryInputStream) :
  engine_wf (top :: rest, root_tag) ->
  match continue_read top (top :: rest, root_tag) s with
  | Ok e' _ => engine_wf e'
  | Throw x _ => input_error x
  end.
Proof.
  intros (Hstk & Hroot & Htag). cbn [fst snd] in *.
  destruct Hstk as [Hstk|Hstk]; [discriminate|].
  destruct top as [|m nm|T k l r].
  - cbn [continue_read ret fst snd tl].
    destruct rest as [|p rest']; [|cbn [frames_wf] in Hstk; tauto].
    split; [left; reflexivity|]. split; [exact Hroot|]. intros _. apply Htag. simpl. lia.
  - destruct (frames_wf_top _ _ _ Hstk ltac:(discriminate))
      as (parent & rest' & -> & (Hnd & Hall & Hnm) & Hacc & Hrest).
    cbn [continue_read]. unfold bind at 1.
    destruct (read_big_endian_unsigned_int uint8_t 1 s) as [id s1|x] eqn:E1;
      [|left; eapply read_be_throws; exact E1].
    destruct (Z.eqb_spec id TAG_TYPE_END) as [->|HnE].
    + destruct (finish_tag_wf (CompoundTag m) (ReadCompoundTagState m nm) (parent :: rest')
                  root_tag Hstk ltac:(discriminate) Hroot eq_refl
                  (decodable_compound_intro m Hnd Hall) eq_refl) as (e' & Hfin & He').
      rewrite Hfin. exact He'.
    + unfold bind at 1.
      destruct (read_string s1) as [next_name s2|x] eqn:E2;
        [|left; eapply read_string_throws; exact E2].
      apply read_string_name_ok in E2.
      destruct ((id =? TAG_TYPE_COMPOUND) || (id =? TAG_TYPE_LIST)) eqn:Hc.
      * assert (Hid : id = TAG_TYPE_LIST \/ id = TAG_TYPE_COMPOUND).
        { apply Bool.orb_true_iff in Hc. destruct Hc as [Hc|Hc]; apply Z.eqb_eq in Hc; auto. }
        pose proof (new_read_state_for_wf id s2 Hid) as Hnew. unfold bind at 1.
        destruct (new_read_state_for id s2) as [child s3|x]; [|exact Hnew].
        destruct Hnew as (Hne & Hcf & _). cbn [ret fst snd tl].
        split; [right|split; [exact Hroot | simpl; lia]].
        cbn [frames_wf]. repeat split; try assumption; try discriminate.
        all: try (eapply accepts_frame_kind; [|exact Hacc]; reflexivity).
      * apply Bool.orb_false_iff in Hc. destruct Hc as [Hc1 Hc2].
        apply Z.eqb_neq in Hc1, Hc2. unfold bind at 1.
        destruct (read_simple_tag id s2) as [t s3|x] eqn:E3;
          [|eapply read_simple_tag_input_error; eassumption].
        apply read_simple_tag_wf in E3. destruct E3 as (_ & Hwf & _).
        cbn [ret fst snd tl].
        split; [right|split; [exact Hroot | simpl; lia]].
        cbn [frames_wf]. split; [discriminate|]. split.
        { split; [apply map_insert_keys_NoDup; exact Hnd|].
          split; [apply map_insert_wf; assumption | exact E2]. }
        split; [eapply accepts_frame_kind; [|exact Hacc]; reflexivity | exact Hrest].
  - destruct (frames_wf_top _ _ _ Hstk ltac:(discriminate))
      as (parent & rest' & -> & (Hk & Hall & Hr & Hlen) & Hacc & Hrest).
    cbn [continue_read].
    destruct ((k =? TAG_TYPE_COMPOUND) || (k =? TAG_TYPE_LIST)) eqn:Hc.
    + assert (Hid : k = TAG_TYPE_LIST \/ k = TAG_TYPE_COMPOUND).
      { apply Bool.orb_true_iff in Hc. destruct Hc as [Hc|Hc]; apply Z.eqb_eq in Hc; auto. }
      destruct (Z.eqb_spec r 0) as [->|Hr0].
      * destruct (finish_tag_wf (ListTag T l) (ReadListTagState T k l 0) (parent :: rest')
                    root_tag Hstk ltac:(discriminate) Hroot eq_refl
                    (decodable_list_intro T l ltac:(lia) Hall) eq_refl) as (e' & Hfin & He').
        rewrite Hfin. exact He'.
      * pose proof (new_read_state_for_wf k s Hid) as Hnew. unfold bind at 1.
        destruct (new_read_state_for k s) as [child s1|x]; [|exact Hnew].
        destruct Hnew as (Hne & Hcf & Hck). cbn [ret fst snd tl].
        split; [right|split; [exact Hroot | simpl; lia]].
        cbn [frames_wf]. split; [exact Hne|]. split; [exact Hcf|].
        split; [exact Hck|]. split; [discriminate|].
        split; [repeat split; try assumption; lia|].
        split; [eapply accepts_frame_kind; [|exact Hacc]; reflexivity | exact Hrest].
    + apply Bool.orb_false_iff in Hc. destruct Hc as [Hc1 Hc2].
      apply Z.eqb_neq in Hc1, Hc2. subst k.
      pose proof (read_list_loop_wf (Z.to_nat r) T l s Hc2 Hc1) as Hloop. unfold bind at 1.
      destruct (read_list_loop (Z.to_nat r) T (kind_of_class T) l s) as [values s1|x];
        [|exact Hloop].
      destruct Hloop as (new & -> & Hnl & Hnew).
      destruct (finish_tag_wf (ListTag T (l ++ new))
                  (ReadListTagState T (kind_of_class T) l r) (parent :: rest')
                  root_tag Hstk ltac:(discriminate) Hroot eq_refl
                  (decodable_list_intro T (l ++ new)
                     ltac:(rewrite length_app; lia)
                     ltac:(apply Forall_app; split; assumption)) eq_refl) as (e' & Hfin & He').
      rewrite Hfin. exact He'.
Qed.

Lemma process_read_state_wf (fuel : nat) (e : Engine) (s : MemoryInputStream) :
  engine_wf e ->
  match process_read_state fuel e s with
  | Some (Ok root_tag _) => root_wf root_tag /\ tag root_tag <> None
  | Some (Throw x _) => input_error x
  | None => True
  end.
Proof.
  revert e s. induction fuel as [|fuel IH]; intros [stk r] s Hwf;
    destruct stk as [|top rest]; cbn [process_read_state fst snd]; try exact I.
  - destruct Hwf as (_ & Hr & Ht). split; [exact Hr | apply Ht; simpl; lia].
  - destruct Hwf as (_ & Hr & Ht). split; [exact Hr | apply Ht; simpl; lia].
  - pose proof (continue_read_wf top rest r s Hwf) as Hstep.
    match goal with |- context [continue_read ?f ?e0 ?s0] =>
      change (continue_read f e0 s0) with (continue_read top (top :: rest, r) s)
    end.
    destruct (continue_read top (top :: rest, r) s) as [e' s'|x]; [apply IH|]; exact Hstep.
Qed.

(** What [read_nbt] returns or throws. *)
Lemma read_nbt_wf (fuel : nat) (s : MemoryInputStream) :
  match read_nbt fuel s with
  | Some (Ok root_tag _) =>
      root_wf root_tag
      /\ forall b rest, remaining s = b :: rest ->
           (tag root_tag <> None
            <-> byte_val b = TAG_TYPE_LIST \/ byte_val b = TAG_TYPE_COMPOUND)
  | Some (Throw x _) => input_error x
  | None => True
  end.
Proof.
  unfold read_nbt, bind.
  destruct (read_big_endian_unsigned_int uint8_t 1 s) as [id s1|x] eqn:E1;
    [|left; eapply read_be_throws; exact E1].
  destruct (read_string s1) as [nm s2|x] eqn:E2; [|left; eapply read_string_throws; exact E2].
  apply read_string_name_ok in E2. unfold ret.
  assert (Hid0 : forall b rest, remaining s = b :: rest -> byte_val b = id).
  { intros b rest Hrem. rewrite (read_kind_byte b s rest Hrem) in E1. congruence. }
  destruct ((id =? TAG_TYPE_LIST) || (id =? TAG_TYPE_COMPOUND)) eqn:Hc.
  - assert (Hid : id = TAG_TYPE_LIST \/ id = TAG_TYPE_COMPOUND).
    { apply Bool.orb_true_iff in Hc. destruct Hc as [Hc|Hc]; apply Z.eqb_eq in Hc; auto. }
    pose proof (new_read_state_for_wf id s2 Hid) as Hnew.
    destruct (new_read_state_for id s2) as [frame s3|x]; [|exact Hnew].
    destruct Hnew as (Hne & Hf & _).
    assert (Hwf : engine_wf ([frame; ReadRootTagState], {| name := nm; tag := None |})).
    { split; [right; cbn [fst frames_wf accepts]; repeat split; assumption|].
      split; [split; [exact E2 | intros t; discriminate] | simpl; lia]. }
    pose proof (process_read_state_wf fuel _ s3 Hwf) as Hp.
    destruct (process_read_state fuel ([frame; ReadRootTagState], {| name := nm; tag := None |}) s3)
      as [[r s4|x]|]; [| exact Hp | exact I].
    destruct Hp as [Hr Ht]. split; [exact Hr|].
    intros b rest Hrem. rewrite (Hid0 b rest Hrem). tauto.
  - split; [split; [exact E2 | intros t; discriminate]|].
    intros b rest Hrem. rewrite (Hid0 b rest Hrem). cbn [tag].
    apply Bool.orb_false_iff in Hc. destruct Hc as [Hc1 Hc2]. apply Z.eqb_neq in Hc1, Hc2.
    split; [intros H; exfalso; apply H; reflexivity | tauto].
Qed.

End WellFormed.

(** ** Further properties of the reader *)

(** X1. [twos_complement_decode] is a plain conversion: whenever the result
    type is not wider than the argument type it returns its argument
    converted to the result type, whatever [size] is and whichever way the
    sign test goes; the result is always in the range of the result type. *)
Theorem twos_complement_decode_conversion (size size' : Z) (RT IT : ctype) (v : Z) :
  bits RT <= bits IT ->
  twos_complement_decode size RT IT v = cast RT v
  /\ twos_complement_decode size' RT IT v = twos_complement_decode size RT IT v
  /\ in_range RT (twos_complement_decode size RT IT v).
Proof.
  intros Hb. rewrite !twos_complement_decode_cast by assumption.
  repeat split. apply cast_in_range.
Qed.

Lemma twos_complement_decode_conversion_witness :
  twos_complement_decode 1 int16_t uint32_t 65535 = -1.
Proof.
  destruct (twos_complement_decode_conversion 1 4 int16_t uint32_t 65535) as (H & _).
  - simpl. lia.
  - rewrite H. reflexivity.
Defined.

(** X2. [read_big_endian_unsigned_int<T, size>], for an unsigned [T] that
    holds [size] bytes: with fewer than [size] bytes left it throws
    [PrematureEof] and leaves the stream where it was; otherwise it reads exactly [size] bytes and returns the
    number they denote, most significant byte first, which is below
    [256^size]. *)
Theorem read_big_endian_unsigned_int_spec (T : ctype) (size : nat) (s : MemoryInputStream) :
  is_signed T = false ->
  256 ^ Z.of_nat size <= 2 ^ bits T ->
  (length (remaining s) < size)%nat /\
    read_big_endian_unsigned_int T (Z.of_nat size) s = Throw PrematureEof s
  \/ (size <= length (remaining s))%nat /\
     read_big_endian_unsigned_int T (Z.of_nat size) s
     = Ok (be_value (firstn size (remaining s))) (skip size s)
     /\ 0 <= be_value (firstn size (remaining s)) < 256 ^ Z.of_nat size.
Proof.
  intros HT Hb. destruct (Nat.lt_ge_cases (length (remaining s)) size) as [Hlt|Hge].
  - left. split; [exact Hlt|]. unfold read_big_endian_unsigned_int.
    apply bind_throw. apply read_eof. lia.
  - right. split; [exact Hge|].
    assert (Hlen : length (firstn size (remaining s)) = size) by (apply firstn_length_le; exact Hge).
    split.
    + pose proof (read_be_ok T (Z.of_nat size) s (firstn size (remaining s))
                    (skipn size (remaining s)) HT ltac:(rewrite Hlen; reflexivity) Hb
                    ltac:(symmetry; apply firstn_skipn)) as H.
      rewrite Hlen in H. exact H.
    + pose proof (be_value_bound (firstn size (remaining s))) as H. rewrite Hlen in H. exact H.
Qed.

Lemma read_big_endian_unsigned_int_spec_witness :
  read_big_endian_unsigned_int uint32_t 4 (stream_of [1; 2; 3; 4; 5])
  = Ok 16909060 (skip 4 (stream_of [1; 2; 3; 4; 5])).
Proof.
  destruct (read_big_endian_unsigned_int_spec uint32_t 4 (stream_of [1; 2; 3; 4; 5]))
    as [[H _]|(_ & H & _)].
  - reflexivity.
  - simpl. lia.
  - simpl in H. lia.
  - exact H.
Defined.

(** X3. [read_string] takes the two bytes at the position as an unsigned
    big-endian length [n]: if [n] bytes follow, it returns exactly those and
    has read [2 + n] bytes; if fewer follow it throws [PrematureEof], the
    length having been read; with fewer than two bytes left it throws
    [PrematureEof] as well, having read nothing. *)
Theorem read_string_spec (s : MemoryInputStream) (hi lo : byte) (rest : list byte) :
  remaining s = hi :: lo :: rest ->
  let n := Z.to_nat (byte_val hi * 256 + byte_val lo) in
  (read_string s
   = if (n <=? length rest)%nat
     then Ok {| data := firstn n rest |} (skip (2 + n) s)
     else Throw PrematureEof (skip 2 s))
  /\ (forall s0, (length (remaining s0) < 2)%nat -> read_string s0 = Throw PrematureEof s0).
Proof.
  intros Hrem n. split.
  - unfold read_string.
    rewrite (bind_ok _ _ _ _ _ (read_be_ok uint16_t 2 s [hi; lo] rest eq_refl eq_refl
               ltac:(simpl; lia) Hrem)).
    pose proof (remaining_skip s [hi; lo] rest Hrem) as Hrem1. cbn [length] in Hrem1.
    pose proof (byte_val_range hi). pose proof (byte_val_range lo).
    assert (Hv : be_value [hi; lo] = Z.of_nat n) by (unfold be_value, n; simpl; lia).
    rewrite Hv. cbn [length].
    destruct (Nat.leb_spec n (length rest)) as [Hle|Hgt].
    + assert (Hlen : length (firstn n rest) = n) by (apply firstn_length_le; exact Hle).
      pose proof (read_ok (skip 2 s) (firstn n rest) (skipn n rest)
                    ltac:(rewrite Hrem1; symmetry; apply firstn_skipn)) as Hread.
      rewrite Hlen in Hread. rewrite (bind_ok _ _ _ _ _ Hread).
      unfold ret. rewrite skip_skip. reflexivity.
    + apply bind_throw. apply read_eof. rewrite Hrem1. lia.
  - intros s0 Hlt. unfold read_string, read_big_endian_unsigned_int.
    apply bind_throw, bind_throw, read_eof. lia.
Qed.

Lemma read_string_spec_witness :
  read_string (stream_of [0; 2; 104; 105; 33])
  = Ok {| data := map byte_of_Z [104; 105] |} (skip 4 (stream_of [0; 2; 104; 105; 33])).
Proof.
  destruct (read_string_spec (stream_of [0; 2; 104; 105; 33]) (byte_of_Z 0) (byte_of_Z 2)
              (map byte_of_Z [104; 105; 33])) as [H _].
  - reflexivity.
  - exact H.
Defined.

(** X4. [read_byte_array_tag] sizes the array by the unsigned 32-bit length
    it reads, before it looks at the bytes: when the host has no storage for
    that many bytes it throws [length_error] or [bad_alloc] right after the
    length, whether the bytes follow or not; when it has, the reader returns
    exactly the [n] bytes that follow, or throws [PrematureEof] if fewer
    follow. *)
Theorem read_byte_array_tag_spec {host : Host} (s : MemoryInputStream)
    (length_bytes rest : list byte) :
  length length_bytes = 4%nat ->
  remaining s = length_bytes ++ rest ->
  let n := be_value length_bytes in
  0 <= n < 2 ^ 32
  /\ (grants n 1 = false ->
      exists x, (x = length_error \/ x = bad_alloc)
                /\ read_byte_array_tag s = Throw x (skip 4 s))
  /\ (grants n 1 = true ->
      read_byte_array_tag s
      = if (Z.to_nat n <=? length rest)%nat
        then Ok (ByteArrayTag (firstn (Z.to_nat n) rest)) (skip (4 + Z.to_nat n) s)
        else Throw PrematureEof (skip 4 s)).
Proof.
  intros Hl Hrem n.
  pose proof (be_value_bound length_bytes) as Hb. rewrite Hl in Hb.
  split; [exact Hb|].
  pose proof (read_be_ok uint32_t 4 s length_bytes rest eq_refl
                ltac:(rewrite Hl; reflexivity) ltac:(simpl; lia) Hrem) as Hlenread.
  rewrite Hl in Hlenread. fold n in Hlenread.
  pose proof (remaining_skip s length_bytes rest Hrem) as Hrem1. rewrite Hl in Hrem1.
  split; intros Hg; unfold read_byte_array_tag; rewrite (bind_ok _ _ _ _ _ Hlenread).
  - destruct (allocate_refused n 1 (skip 4 s) Hg) as (x & Hx & E).
    exists x. split; [exact Hx|]. apply bind_throw. exact E.
  - rewrite (bind_ok _ _ _ _ _ (allocate_granted n 1 (skip 4 s) Hg)).
    destruct (Nat.leb_spec (Z.to_nat n) (length rest)) as [Hle|Hgt].
    + assert (Hlen : length (firstn (Z.to_nat n) rest) = Z.to_nat n)
        by (apply firstn_length_le; exact Hle).
      pose proof (read_ok (skip 4 s) (firstn (Z.to_nat n) rest) (skipn (Z.to_nat n) rest)
                    ltac:(rewrite Hrem1; symmetry; apply firstn_skipn)) as Hread.
      rewrite Hlen, Z2Nat.id in Hread by lia. rewrite (bind_ok _ _ _ _ _ Hread).
      unfold ret. rewrite skip_skip. reflexivity.
    + apply bind_throw. apply read_eof. rewrite Hrem1. lia.
Qed.

Lemma read_byte_array_tag_spec_witness :
  exists x,
    (x = length_error \/ x = bad_alloc)
    /\ read_byte_array_tag (host := small_host) (stream_of [0; 0; 0; 65; 1; 2; 3])
       = Throw x (skip 4 (stream_of [0; 0; 0; 65; 1; 2; 3])).
Proof.
  destruct (read_byte_array_tag_spec (host := small_host) (stream_of [0; 0; 0; 65; 1; 2; 3])
              (map byte_of_Z [0; 0; 0; 65]) (map byte_of_Z [1; 2; 3])) as (_ & H & _).
  - reflexivity.
  - reflexivity.
  - apply H. reflexivity.
Defined.



(** X6. A successful [read_nbt] returns a non-null tag exactly when the
    first byte of the stream, the root kind id, is 9 or 10. *)
Theorem read_nbt_tag_null_iff {host : Host} (fuel : nat) (s : MemoryInputStream) (b : byte)
    (rest : list byte) (root_tag : RootTag) (s' : MemoryInputStream) :
  remaining s = b :: rest ->
  read_nbt fuel s = Some (Ok root_tag s') ->
  (tag root_tag <> None <-> byte_val b = TAG_TYPE_LIST \/ byte_val b = TAG_TYPE_COMPOUND).
Proof.
  intros Hrem H. pose proof (read_nbt_wf fuel s) as Hwf. rewrite H in Hwf.
  destruct Hwf as [_ Hwf]. apply (Hwf b rest Hrem).
Qed.

Lemma read_nbt_tag_null_iff_witness :
  tag {| name := {| data := [] |}; tag := Some (ListTag T_ByteTag []) |} <> None
  <-> byte_val (byte_of_Z 9) = TAG_TYPE_LIST \/ byte_val (byte_of_Z 9) = TAG_TYPE_COMPOUND.
Proof.
  apply (read_nbt_tag_null_iff (host := small_host) 10 (stream_of [9; 0; 0; 1; 0; 0; 0; 0]) (byte_of_Z 9)
           (map byte_of_Z [0; 0; 1; 0; 0; 0; 0])
           {| name := {| data := [] |}; tag := Some (ListTag T_ByteTag []) |}
           (skip 8 (stream_of [9; 0; 0; 1; 0; 0; 0; 0]))).
  - reflexivity.
  - reflexivity.
Defined.

(** X7. Every tree [read_nbt] returns is a well-formed container: each
    number is in the range of its kind, floats and doubles hold 4 and 8
    bytes, array, string and list lengths fit their length fields, every
    list is homogeneous, and the names in every compound are distinct; the
    root name is shorter than [2^16] bytes; and the host had storage for
    every byte array and int array in the tree. *)
Theorem read_nbt_well_formed {host : Host} (fuel : nat) (s : MemoryInputStream)
    (root_tag : RootTag) (s' : MemoryInputStream) (t : Tag) :
  read_nbt fuel s = Some (Ok root_tag s') ->
  tag root_tag = Some t ->
  is_container t = true /\ well_formed t
  /\ Z.of_nat (length (data (name root_tag))) < 2 ^ 16
  /\ allocatable t.
Proof.
  intros H Ht. pose proof (read_nbt_wf fuel s) as Hwf. rewrite H in Hwf.
  destruct Hwf as [[Hname Hroot] _]. destruct (Hroot t Ht) as [Hc [Hw Hal]].
  repeat split; assumption.
Qed.

Lemma read_nbt_well_formed_witness :
  well_formed (CompoundTag [({| data := [byte_of_Z 120] |}, IntTag 1)]).
Proof.
  apply (read_nbt_well_formed (host := small_host) 100
           (stream_of [10; 0; 0; 3; 0; 1; 120; 0; 0; 0; 1; 3; 0; 1; 120; 0; 0; 0; 2; 0])
           {| name := {| data := [] |};
              tag := Some (CompoundTag [({| data := [byte_of_Z 120] |}, IntTag 1)]) |}
           (skip 20 (stream_of [10; 0; 0; 3; 0; 1; 120; 0; 0; 0; 1;
                                3; 0; 1; 120; 0; 0; 0; 2; 0]))).
  - reflexivity.
  - reflexivity.
Defined.

(** X8. Decoding is a retraction of the wire format: whatever stream a tree
    was decoded from, encoding the decoded root name and tree and decoding
    again returns the same [RootTag]. *)
Theorem read_nbt_reencode {host : Host} (fuel fuel' : nat) (s : MemoryInputStream) (root_tag : RootTag)
    (s' : MemoryInputStream) (t : Tag) :
  read_nbt fuel s = Some (Ok root_tag s') ->
  tag root_tag = Some t ->
  (fuel_bound (MemoryInputStream_new (encode_stream (name root_tag) t)) <= fuel')%nat ->
  read_nbt fuel' (MemoryInputStream_new (encode_stream (name root_tag) t))
  = Some (Ok root_tag
             {| m_data := encode_stream (name root_tag) t;
                m_position := length (encode_stream (name root_tag) t) |}).
Proof.
  intros H Ht Hfuel. pose proof (read_nbt_wf fuel s) as Hwf. rewrite H in Hwf.
  destruct Hwf as [[Hname Hroot] _]. destruct (Hroot t Ht) as [Hc Hw].
  rewrite (read_nbt_container_ok t (name root_tag)
             (MemoryInputStream_new (encode_stream (name root_tag) t)) [] Hc Hw Hname
             ltac:(rewrite app_nil_r; reflexivity) fuel' Hfuel).
  destruct root_tag as [nm tg]. cbn [name tag] in *. subst tg. reflexivity.
Qed.

Lemma read_nbt_reencode_witness :
  read_nbt (host := small_host) 100
    (MemoryInputStream_new
       (encode_stream {| data := [] |}
          (CompoundTag [({| data := [byte_of_Z 120] |}, IntTag 1)])))
  = Some (Ok {| name := {| data := [] |};
                tag := Some (CompoundTag [({| data := [byte_of_Z 120] |}, IntTag 1)]) |}
             {| m_data := encode_stream {| data := [] |}
                            (CompoundTag [({| data := [byte_of_Z 120] |}, IntTag 1)]);
                m_position := 12 |}).
Proof.
  apply (read_nbt_reencode (host := small_host) 100 100
           (stream_of [10; 0; 0; 3; 0; 1; 120; 0; 0; 0; 1; 3; 0; 1; 120; 0; 0; 0; 2; 0])
           {| name := {| data := [] |};
              tag := Some (CompoundTag [({| data := [byte_of_Z 120] |}, IntTag 1)]) |}
           (skip 20 (stream_of [10; 0; 0; 3; 0; 1; 120; 0; 0; 0; 1;
                                3; 0; 1; 120; 0; 0; 0; 2; 0]))
           (CompoundTag [({| data := [byte_of_Z 120] |}, IntTag 1)])).
  - reflexivity.
  - reflexivity.
  - vm_compute. repeat constructor.
Defined.

(** ** The stream across a whole decode *)

Section StreamDiscipline.

Context {host : Host}.

Lemma consumes_finish_tag (t : Tag) (e : Engine) : consumes (finish_tag t e) 0.
Proof.
  unfold finish_tag. destruct (fst e) as [|top [|below rest]]; try apply consumes_throw.
  apply consumes_bind_0; [|intros; apply consumes_ret].
  intros s r s' H. apply add_tag_stream in H. subst. lia.
Qed.

Lemma consumes_new_read_state_for (k : Z) : consumes (new_read_state_for k) 0.
Proof.
  intros s f s' H. apply new_read_state_for_inv in H. destruct H as [[-> _]|H]; lia.
Qed.

Lemma consumes_continue_read (top : TagReadState) (e : Engine) :
  consumes (continue_read top e) 0.
Proof.
  destruct top as [|m nm|T k l r]; cbn [continue_read].
  - apply consumes_ret.
  - apply consumes_bind_0; [eapply consumes_0, consumes_read_be | intros id].
    destruct (id =? TAG_TYPE_END); [apply consumes_finish_tag|].
    apply consumes_bind_0; [eapply consumes_0, consumes_read_string | intros next_name].
    destruct ((id =? TAG_TYPE_COMPOUND) || (id =? TAG_TYPE_LIST)).
    + apply consumes_bind_0; [apply consumes_new_read_state_for | intros; apply consumes_ret].
    + apply consumes_bind_0; [apply consumes_read_simple_tag | intros; apply consumes_ret].
  - destruct ((k =? TAG_TYPE_COMPOUND) || (k =? TAG_TYPE_LIST)).
    + destruct (r =? 0); [apply consumes_finish_tag|].
      apply consumes_bind_0; [apply consumes_new_read_state_for | intros; apply consumes_ret].
    + apply consumes_bind_0; [apply consumes_read_list_loop | intros; apply consumes_finish_tag].
Qed.

Lemma process_read_state_remaining (fuel : nat) (e : Engine) (s : MemoryInputStream)
    (root_tag : RootTag) (s' : MemoryInputStream) :
  process_read_state fuel e s = Some (Ok root_tag s') ->
  (length (remaining s') <= length (remaining s))%nat.
Proof.
  revert e s. induction fuel as [|fuel IH]; intros [stk r] s;
    destruct stk as [|top rest]; cbn [process_read_state fst snd]; try discriminate.
  - intros [= _ <-]. lia.
  - intros [= _ <-]. lia.
  - match goal with |- context [continue_read ?f ?e0 ?s0] =>
      destruct (continue_read f e0 s0) as [e' s1|x] eqn:E end; [|discriminate].
    intros H. apply IH in H. apply consumes_continue_read in E. lia.
Qed.

Lemma read_nbt_remaining (fuel : nat) (s : MemoryInputStream)
    (root_tag : RootTag) (s' : MemoryInputStream) :
  read_nbt fuel s = Some (Ok root_tag s') ->
  (length (remaining s') <= length (remaining s))%nat.
Proof.
  unfold read_nbt, bind.
  destruct (read_big_endian_unsigned_int uint8_t 1 s) as [id s1|] eqn:E1; [|discriminate].
  destruct (read_string s1) as [nm s2|] eqn:E2; [|discriminate].
  apply (consumes_read_be uint8_t 1) in E1. apply consumes_read_string in E2. unfold ret.
  destruct ((id =? TAG_TYPE_LIST) || (id =? TAG_TYPE_COMPOUND)).
  - destruct (new_read_state_for id s2) as [frame s3|] eqn:E3; [|discriminate].
    apply consumes_new_read_state_for in E3.
    intros H. apply process_read_state_remaining in H. lia.
  - intros [= _ <-]. lia.
Qed.

End StreamDiscipline.

(** X9. A successful [read_nbt] leaves the buffer as it was and ends at a
    position that is not before the start position and not past the end of
    the buffer. *)
Theorem read_nbt_position {host : Host} (fuel : nat) (s : MemoryInputStream) (root_tag : RootTag)
    (s' : MemoryInputStream) :
  (m_position s <= m_size s)%nat ->
  read_nbt fuel s = Some (Ok root_tag s') ->
  m_data s' = m_data s
  /\ (m_position s <= m_position s')%nat
  /\ (m_position s' <= m_size s')%nat.
Proof.
  intros Hpos H.
  assert (Hp : prefix_of (m_data s) [] s s).
  { unfold prefix_of. rewrite app_nil_r. repeat split. exact Hpos. }
  pose proof (sim_loop_read_nbt _ _ fuel s s Hp) as Hs. rewrite H in Hs.
  inversion Hs as [s0 o Ho|Ho|o o' Hsim Ho1 Ho2].
  inversion Hsim as [s0 o1 Ho3|a sh lg (Hd & _ & _ & Hle) Ho3 Ho4|y sh lg Ho3 Ho4]; subst.
  pose proof (read_nbt_remaining fuel s root_tag s' H) as Hrem.
  rewrite !remaining_length in Hrem. unfold m_size in *. rewrite Hd in *.
  repeat split; lia.
Qed.

Lemma read_nbt_position_witness :
  (0 <= 3)%nat /\ (3 <= 4)%nat.
Proof.
  destruct (read_nbt_position (host := small_host) 0 (stream_of [1; 0; 0; 42])
              {| name := {| data := [] |}; tag := None |}
              (skip 3 (stream_of [1; 0; 0; 42]))) as (_ & H1 & H2).
  - simpl. lia.
  - reflexivity.
  - split; [exact H1 | exact H2].
Defined.

(** X10. Bytes after the end of what was decoded do not matter: if
    [read_nbt] succeeds on a buffer, it returns the same [RootTag] and stops
    at the same position on that buffer followed by any other bytes. *)
Theorem read_nbt_trailing_bytes {host : Host} (fuel : nat) (d ext : list byte) (root_tag : RootTag)
    (s' : MemoryInputStream) :
  read_nbt fuel (MemoryInputStream_new d) = Some (Ok root_tag s') ->
  read_nbt fuel (MemoryInputStream_new (d ++ ext))
  = Some (Ok root_tag {| m_data := d ++ ext; m_position := m_position s' |}).
Proof.
  intros H.
  assert (Hp : prefix_of d ext (MemoryInputStream_new d) (MemoryInputStream_new (d ++ ext))).
  { unfold prefix_of. simpl. repeat split. lia. }
  pose proof (sim_loop_read_nbt _ _ fuel _ _ Hp) as Hs. rewrite H in Hs.
  inversion Hs as [s0 o Ho|Ho|o o' Hsim Ho1 Ho2].
  inversion Hsim as [s0 o1 Ho3|a sh lg (_ & Hl & Hpos & _) Ho3 Ho4|y sh lg Ho3 Ho4]; subst.
  destruct lg as [ld lp]. simpl in *. subst. reflexivity.
Qed.

Lemma read_nbt_trailing_bytes_witness :
  read_nbt (host := small_host) 20 (MemoryInputStream_new (map byte_of_Z [10; 0; 0; 0] ++ map byte_of_Z [7; 7]))
  = Some (Ok {| name := {| data := [] |}; tag := Some (CompoundTag []) |}
             {| m_data := map byte_of_Z [10; 0; 0; 0] ++ map byte_of_Z [7; 7];
                m_position := 4 |}).
Proof.
  apply (read_nbt_trailing_bytes (host := small_host) 20 (map byte_of_Z [10; 0; 0; 0]) (map byte_of_Z [7; 7])
           {| name := {| data := [] |}; tag := Some (CompoundTag []) |}
           (skip 4 (stream_of [10; 0; 0; 0]))).
  reflexivity.
Defined.

Lemma firstn_plus {A} (a b : nat) (l : list A) :
  firstn (a + b) l = firstn a l ++ firstn b (skipn a l).
Proof.
  revert l. induction a as [|a IH]; intros l; [reflexivity|].
  destruct l as [|x l]; simpl; [destruct b; reflexivity | rewrite IH; reflexivity].
Qed.

(** X16. Reads compose, up to where a failure leaves the stream: when
    [a + b] bytes are left, reading [a] bytes and then [b] bytes returns the
    same bytes and ends at the same position as reading [a + b] at once.
    When fewer are left both throw [PrematureEof], but a failed read does
    not move the position: the single read leaves the stream where it was,
    the two reads leave it after the first [a] bytes if those were there. *)
Theorem read_read (a b : nat) (s : MemoryInputStream) :
  let two_reads := x <- read (Z.of_nat a) ;; y <- read (Z.of_nat b) ;; ret (x ++ y) in
  if (a + b <=? length (remaining s))%nat
  then two_reads s = Ok (firstn (a + b) (remaining s)) (skip (a + b) s)
       /\ read (Z.of_nat (a + b)) s = Ok (firstn (a + b) (remaining s)) (skip (a + b) s)
  else read (Z.of_nat (a + b)) s = Throw PrematureEof s
       /\ two_reads s
          = Throw PrematureEof (if (a <=? length (remaining s))%nat then skip a s else s).
Proof.
  intros two_reads. unfold two_reads.
  assert (Hfirst : forall n, (n <= length (remaining s))%nat ->
            read (Z.of_nat n) s = Ok (firstn n (remaining s)) (skip n s)
            /\ remaining (skip n s) = skipn n (remaining s)).
  { intros n Hn.
    assert (Hlen : length (firstn n (remaining s)) = n) by (apply firstn_length_le; exact Hn).
    assert (Hsplit : remaining s = firstn n (remaining s) ++ skipn n (remaining s))
      by (symmetry; apply firstn_skipn).
    pose proof (read_ok s _ _ Hsplit) as Hr. pose proof (remaining_skip s _ _ Hsplit) as Hk.
    rewrite Hlen in Hr, Hk. split; assumption. }
  destruct (Nat.leb_spec (a + b) (length (remaining s))) as [Hle|Hgt].
  - destruct (Hfirst a ltac:(lia)) as [Ha Hrem]. destruct (Hfirst (a + b)%nat Hle) as [Hab _].
    split; [|exact Hab].
    rewrite (bind_ok _ _ _ _ _ Ha).
    assert (Hb : read (Z.of_nat b) (skip a s)
                 = Ok (firstn b (skipn a (remaining s))) (skip b (skip a s))).
    { assert (Hlen : length (firstn b (skipn a (remaining s))) = b)
        by (apply firstn_length_le; rewrite length_skipn; lia).
      pose proof (read_ok (skip a s) (firstn b (skipn a (remaining s)))
                    (skipn b (skipn a (remaining s)))
                    ltac:(rewrite Hrem; symmetry; apply firstn_skipn)) as Hr.
      rewrite Hlen in Hr. exact Hr. }
    rewrite (bind_ok _ _ _ _ _ Hb). unfold ret.
    rewrite skip_skip, firstn_plus. reflexivity.
  - split; [apply read_eof; lia|].
    destruct (Nat.leb_spec a (length (remaining s))) as [Ha|Ha].
    + destruct (Hfirst a Ha) as [Hra Hrem]. rewrite (bind_ok _ _ _ _ _ Hra).
      apply bind_throw, read_eof. rewrite Hrem, length_skipn. lia.
    + apply bind_throw, read_eof. lia.
Qed.

(** ** The hash of a name *)

Section FnvHash.

Import Fnv.

Lemma lxor_bound (n a b : Z) :
  0 < n -> 0 <= a < 2 ^ n -> 0 <= b < 2 ^ n -> 0 <= Z.lxor a b < 2 ^ n.
Proof.
  intros Hn Ha Hb.
  assert (Hnn : 0 <= Z.lxor a b) by (apply Z.lxor_nonneg; lia).
  split; [exact Hnn|].
  destruct (Z.eq_dec (Z.lxor a b) 0) as [->|Hne]; [apply Z.pow_pos_nonneg; lia|].
  apply Z.log2_lt_pow2; [lia|].
  pose proof (Z.log2_lxor a b ltac:(lia) ltac:(lia)) as Hl.
  assert (Hla : Z.log2 a < n).
  { destruct (Z.eq_dec a 0) as [->|]; [simpl; lia | apply Z.log2_lt_pow2; lia]. }
  assert (Hlb : Z.log2 b < n).
  { destruct (Z.eq_dec b 0) as [->|]; [simpl; lia | apply Z.log2_lt_pow2; lia]. }
  lia.
Qed.

Lemma size_t_unsigned (w : size_t_size) : is_signed (size_t w) = false.
Proof. destruct w; reflexivity. Qed.

Lemma cast_size_t_range (w : size_t_size) (z : Z) : 0 <= cast (size_t w) z < 2 ^ bits (size_t w).
Proof.
  pose proof (cast_in_range (size_t w) z) as H. unfold in_range in H.
  rewrite size_t_unsigned in H. exact H.
Qed.

(** One turn of the loop: the byte is xored into a product that does not
    depend on it. *)
Lemma fnv_step_xor (w : size_t_size) (h : Z) (b : byte) :
  fnv_step w h b
  = Z.lxor (cast (size_t w) (cast (size_t w) h * cast (size_t w) (fnv_prime w))) (byte_val b)
  /\ 0 <= fnv_step w h b < 2 ^ bits (size_t w).
Proof.
  unfold fnv_step, arith.
  set (X := cast (size_t w) (cast (size_t w) h * cast (size_t w) (fnv_prime w))).
  pose proof (cast_size_t_range w (cast (size_t w) h * cast (size_t w) (fnv_prime w))) as HX.
  fold X in HX. pose proof (byte_val_range b) as Hb. pose proof (pow_bits_ge_256 (size_t w)).
  pose proof (bits_pos (size_t w)).
  rewrite (cast_id (size_t w) X) by (apply in_range_unsigned; [apply size_t_unsigned | exact HX]).
  rewrite (cast_id (size_t w) (byte_val b))
    by (apply in_range_unsigned; [apply size_t_unsigned | lia]).
  pose proof (lxor_bound (bits (size_t w)) X (byte_val b) ltac:(lia) HX ltac:(lia)) as Hx.
  rewrite (cast_id (size_t w)) by (apply in_range_unsigned; [apply size_t_unsigned | exact Hx]).
  split; [reflexivity | exact Hx].
Qed.

Lemma fnv_hash_snoc (w : size_t_size) (l : list byte) (b : byte) :
  fnv_hash w (l ++ [b]) = fnv_step w (fnv_hash w l) b.
Proof. unfold fnv_hash. rewrite fold_left_app. reflexivity. Qed.

Lemma fnv_hash_range (w : size_t_size) (l : list byte) :
  0 <= fnv_hash w l < 2 ^ bits (size_t w).
Proof.
  destruct l as [|b l] using rev_ind.
  - destruct w; cbv; split; congruence.
  - rewrite fnv_hash_snoc. apply fnv_step_xor.
Qed.

Lemma byte_val_inj (a b : byte) : byte_val a = byte_val b -> a = b.
Proof.
  unfold byte_val. intros H. apply N2Z.inj in H.
  pose proof (Byte.of_to_N a) as Ha. rewrite H, Byte.of_to_N in Ha. congruence.
Qed.

Lemma lxor_cancel (x a b : Z) : Z.lxor (Z.lxor x a) (Z.lxor x b) = Z.lxor a b.
Proof.
  rewrite (Z.lxor_comm x a), Z.lxor_assoc, <- (Z.lxor_assoc x x b), Z.lxor_nilpotent,
    Z.lxor_0_l. reflexivity.
Qed.

End FnvHash.

(** X11. [fnv_hash] multiplies before it xors the byte in, so the last byte
    of a name only reaches the low eight bits: the hashes of two names that
    differ in their last byte alone differ by the xor of those two bytes, and
    such names never collide.  Every hash fits [size_t]. *)
Theorem fnv_hash_last_byte (w : Fnv.size_t_size) (l : list byte) (a b : byte) :
  0 <= Fnv.fnv_hash w l < 2 ^ bits (Fnv.size_t w)
  /\ Z.lxor (Fnv.fnv_hash w (l ++ [a])) (Fnv.fnv_hash w (l ++ [b]))
     = Z.lxor (byte_val a) (byte_val b)
  /\ 0 <= Z.lxor (Fnv.fnv_hash w (l ++ [a])) (Fnv.fnv_hash w (l ++ [b])) < 256
  /\ (Fnv.fnv_hash w (l ++ [a]) = Fnv.fnv_hash w (l ++ [b]) <-> a = b).
Proof.
  assert (Hx : Z.lxor (Fnv.fnv_hash w (l ++ [a])) (Fnv.fnv_hash w (l ++ [b]))
               = Z.lxor (byte_val a) (byte_val b)).
  { rewrite !fnv_hash_snoc.
    destruct (fnv_step_xor w (Fnv.fnv_hash w l) a) as [-> _].
    destruct (fnv_step_xor w (Fnv.fnv_hash w l) b) as [-> _].
    apply lxor_cancel. }
  split; [apply fnv_hash_range|]. split; [exact Hx|]. split.
  - rewrite Hx. apply (lxor_bound 8); [lia | apply byte_val_range | apply byte_val_range].
  - split.
    + intros H. apply byte_val_inj. apply Z.lxor_eq. rewrite <- Hx, H. apply Z.lxor_nilpotent.
    + intros ->. reflexivity.
Qed.

(** ** Reading through a [std::istream] *)

(** X12. [IStreamInputStream::read] never throws [PrematureEof]: the outer
    test [!m_istream.read(...)] is the stream's [fail()], so the inner test
    always takes the [IoError] branch, whatever the stream is backed by.  A
    read past the end of a buffer-backed [istream] therefore throws
    [IoError], where [MemoryInputStream::read] on the same bytes throws
    [PrematureEof]. *)
Theorem IStreamInputStream_read_never_eof (istream : Type)
    (istream_read : istream -> Z -> list byte * istream) (fail : istream -> bool)
    (st : istream) (size : Z) (d : list byte) (n : Z) :
  Z.of_nat (length d) < n ->
  (forall st', IStream.read istream istream_read fail st size <> IStream.Throws PrematureEof st')
  /\ (fail (snd (istream_read st size)) = true ->
      IStream.read istream istream_read fail st size
      = IStream.Throws IStream.IoError_default (snd (istream_read st size)))
  /\ IStream.read IStream.buffer_istream IStream.buffer_read IStream.buffer_fail
       (IStream.open d) n
     = IStream.Throws IStream.IoError_default
         {| IStream.buf := d; IStream.pos := length d; IStream.eofbit := true;
            IStream.failbit := true; IStream.badbit := false |}
  /\ read n (MemoryInputStream_new d) = Throw PrematureEof (MemoryInputStream_new d).
Proof.
  intros Hn. unfold IStream.read, IStream.operator_not.
  split; [|split; [|split]].
  - intros st0. destruct (istream_read st size) as [bytes st']. destruct (fail st'); discriminate.
  - destruct (istream_read st size) as [bytes st']. simpl. intros ->. reflexivity.
  - unfold IStream.buffer_read, IStream.open, IStream.good. simpl.
    destruct (Z.ltb_spec (Z.of_nat (length d)) n); [reflexivity | lia].
  - apply read_eof. rewrite remaining_new. exact Hn.
Qed.

Lemma IStreamInputStream_read_never_eof_witness :
  IStream.read IStream.buffer_istream IStream.buffer_read IStream.buffer_fail
    (IStream.open (map byte_of_Z [1; 2])) 4
  = IStream.Throws IStream.IoError_default
      {| IStream.buf := map byte_of_Z [1; 2]; IStream.pos := 2; IStream.eofbit := true;
         IStream.failbit := true; IStream.badbit := false |}.
Proof.
  destruct (IStreamInputStream_read_never_eof IStream.buffer_istream IStream.buffer_read
              IStream.buffer_fail (IStream.open []) 0 (map byte_of_Z [1; 2]) 4)
    as (_ & _ & H & _).
  - simpl. lia.
  - exact H.
Defined.

(** ** The pretty printer *)

Section Printer.

Import Utility.

Variable show_float : list byte -> string.
Variable show_double : list byte -> string.

Lemma string_app_assoc (a b c : string) : ((a ++ b) ++ c = a ++ (b ++ c))%string.
Proof. induction a as [|ch a IH]; simpl; [reflexivity | rewrite IH; reflexivity]. Qed.

Lemma string_app_nil_r (a : string) : (a ++ "" = a)%string.
Proof. induction a as [|ch a IH]; simpl; [reflexivity | rewrite IH; reflexivity]. Qed.

Lemma extends_refl (p : PrettyPrinter) : extends p p.
Proof.
  repeat split. exists EmptyString. rewrite string_app_nil_r. reflexivity.
Qed.

Lemma extends_trans (p1 p2 p3 : PrettyPrinter) :
  extends p1 p2 -> extends p2 p3 -> extends p1 p3.
Proof.
  intros (Hc1 & Hi1 & o1 & Ho1) (Hc2 & Hi2 & o2 & Ho2).
  repeat split; try congruence.
  exists (o1 ++ o2)%string. rewrite Ho2, Ho1. apply string_app_assoc.
Qed.

Lemma appends_write (text : string) : appends (write text).
Proof.
  intros p. eexists. split; [reflexivity|]. repeat split. exists text. reflexivity.
Qed.

Lemma appends_done : appends done.
Proof. intros p. exists p. split; [reflexivity | apply extends_refl]. Qed.

Lemma appends_print_indent : appends print_indent.
Proof. intros p. unfold print_indent. apply appends_write. Qed.

Lemma appends_seq (m k : P unit) : appends m -> appends k -> appends (m ;;; k).
Proof.
  intros Hm Hk p. unfold seq.
  destruct (Hm p) as (p1 & -> & H1). destruct (Hk p1) as (p2 & -> & H2).
  exists p2. split; [reflexivity | eapply extends_trans; eassumption].
Qed.

Lemma appends_print_preamble (T_name : string) (name : option Utf8String) :
  appends (print_preamble T_name name).
Proof.
  unfold print_preamble.
  repeat first [ apply appends_seq | apply appends_write | apply appends_print_indent
               | apply appends_done ].
  destruct name;
    repeat first [ apply appends_seq | apply appends_write | apply appends_done ].
Qed.

Lemma appends_print_simple_tag (T_name value_text : string) (name : option Utf8String) :
  appends (print_simple_tag T_name value_text name).
Proof.
  unfold print_simple_tag.
  repeat first [ apply appends_print_preamble | apply appends_write | apply appends_seq ].
Qed.

Lemma appends_print_string_tag (value : Utf8String) (name : option Utf8String) :
  appends (print_string_tag value name).
Proof.
  unfold print_string_tag.
  repeat first [ apply appends_print_preamble | apply appends_write | apply appends_seq ].
Qed.

Lemma seq_run {A} (m : P unit) (k : P A) (p : PrettyPrinter) :
  appends m -> exists p1, extends p p1 /\ (m ;;; k) p = k p1.
Proof.
  intros Hm. destruct (Hm p) as (p1 & E & H1). exists p1. split; [exact H1|].
  unfold seq. rewrite E. reflexivity.
Qed.

Lemma indent_count_restored (c : Z) :
  in_range uint32_t c -> cast uint32_t (cast uint32_t (c + 1) - 1) = c.
Proof.
  intros Hc. rewrite <- (cast_id uint32_t c) at 2 by exact Hc.
  apply cast_ext. fold (eqmod (bits uint32_t)).
  eapply eqmod_trans.
  - apply eqmod_sub; [apply eqmod_cast; [left; reflexivity | reflexivity] | apply eqmod_refl].
  - unfold eqmod. f_equal. lia.
Qed.

Lemma print_entries_outcome (es : list (Utf8String * Tag)) :
  Forall (fun e => print_outcome show_float show_double (snd e)) es ->
  forall p, in_range uint32_t (m_indent_count p) ->
    if forallb (fun entry => printable (snd entry)) es
    then exists p',
        print_entries (print_tag show_float show_double) es p = Printed tt p' /\ extends p p'
    else exists p',
        print_entries (print_tag show_float show_double) es p = Raised unknown_tag_class p'.
Proof.
  induction 1 as [|e es He _ IH]; intros p Hp.
  - exists p. split; [reflexivity | apply extends_refl].
  - specialize (He (Some (fst e)) p Hp). cbn [forallb print_entries].
    destruct (printable (snd e)); cbn [andb].
    + destruct He as (p1 & E1 & H1).
      assert (Hseq : forall k : P unit,
                 (print_tag show_float show_double (snd e) (Some (fst e)) ;;; k) p = k p1)
        by (intros k; unfold seq; rewrite E1; reflexivity).
      assert (Hp1 : in_range uint32_t (m_indent_count p1)) by (destruct H1 as [-> _]; exact Hp).
      specialize (IH p1 Hp1).
      destruct (forallb (fun entry => printable (snd entry)) es).
      * destruct IH as (p2 & E & H2). exists p2. rewrite Hseq.
        split; [exact E | eapply extends_trans; eassumption].
      * destruct IH as (p2 & E). exists p2. rewrite Hseq. exact E.
    + destruct He as (p1 & E1). exists p1. unfold seq. rewrite E1. reflexivity.
Qed.

Lemma seq_printed {A} (m : P unit) (k : P A) (p p' : PrettyPrinter) :
  m p = Printed tt p' -> (m ;;; k) p = k p'.
Proof. intros E. unfold seq. rewrite E. reflexivity. Qed.

Lemma seq_raised {A} (m : P unit) (k : P A) (p p' : PrettyPrinter) (x : print_exn) :
  m p = Raised x p' -> (m ;;; k) p = Raised x p'.
Proof. intros E. unfold seq. rewrite E. reflexivity. Qed.

Lemma seq_set_indent_count {A} (f : Z -> Z) (k : P A) (p : PrettyPrinter) :
  (set_indent_count f ;;; k) p
  = k {| m_stream := m_stream p; m_indent_count := f (m_indent_count p);
         m_indent := m_indent p |}.
Proof. reflexivity. Qed.

(** Runs the first, appending, action of a sequence. *)
Ltac run_appending lem :=
  match goal with
  | |- context [seq ?m ?k ?p] =>
      let p' := fresh "p" in
      let H := fresh "Hext" in
      let E := fresh "E" in
      destruct (seq_run m k p lem) as (p' & H & E); rewrite E; clear E
  end.

Lemma print_tag_outcome (t : Tag) : print_outcome show_float show_double t.
Proof.
  induction t as [| | | | | | | |T vs IH|es IH|] using Tag_nested_ind;
    intros name p Hp; cbn [printable print_tag];
    try (apply appends_print_simple_tag); try (apply appends_print_string_tag);
    try (exists p; reflexivity).
  unfold print_compound_tag.
  run_appending (appends_print_preamble "TAG_Compound" name).
  run_appending (appends_write " ").
  run_appending (appends_write (show_int (Z.of_nat (length es)))).
  run_appending (appends_write (" entries" ++ newline)).
  run_appending appends_print_indent.
  run_appending (appends_write ("{" ++ newline)).
  assert (H06 : extends p p5)
    by (repeat (eapply extends_trans; [eassumption|]); apply extends_refl).
  rewrite seq_set_indent_count.
  set (p7 := {| m_stream := m_stream p5;
                m_indent_count := cast uint32_t (m_indent_count p5 + 1);
                m_indent := m_indent p5 |}).
  pose proof (print_entries_outcome es IH p7 (cast_in_range uint32_t _)) as Hloop.
  destruct (forallb (fun entry => printable (snd entry)) es).
  - destruct Hloop as (p8 & E8 & H8).
    rewrite (seq_printed _ _ _ _ E8), seq_set_indent_count.
    set (p9 := {| m_stream := m_stream p8;
                  m_indent_count := cast uint32_t (m_indent_count p8 - 1);
                  m_indent := m_indent p8 |}).
    assert (H59 : extends p5 p9).
    { destruct H8 as (Hc & Hi & out & Ho). destruct H06 as (Hc6 & _).
      unfold p9, p7 in *. cbn [m_stream m_indent_count m_indent] in *.
      split; [|split; [exact Hi | exists out; exact Ho]].
      cbn [m_indent_count]. rewrite Hc. apply indent_count_restored. rewrite Hc6. exact Hp. }
    destruct (seq_run print_indent (write ("}" ++ newline)) p9 appends_print_indent)
      as (p10 & H10 & ->).
    destruct (appends_write ("}" ++ newline) p10) as (p11 & -> & H11).
    exists p11. split; [reflexivity|].
    eapply extends_trans; [exact H06|]. eapply extends_trans; [exact H59|].
    eapply extends_trans; eassumption.
  - destruct Hloop as (p8 & E8). exists p8. apply seq_raised. exact E8.
Qed.

End Printer.

(** X13. [print_tag] succeeds exactly on trees made of Byte, Short, Int, Long,
    Float, Double, String and Compound tags: a ByteArray, a List or an
    IntArray anywhere in the tree makes it throw the [runtime_error]
    "Unknown tag class passed to print_tag!". *)
Theorem print_tag_succeeds_iff_printable (show_float show_double : list byte -> string)
    (t : Tag) (name : option Utf8String) (p : Utility.PrettyPrinter) :
  in_range uint32_t (Utility.m_indent_count p) ->
  (Utility.printable t = true ->
   exists p', Utility.print_tag show_float show_double t name p = Utility.Printed tt p')
  /\ (Utility.printable t = false ->
      exists p', Utility.print_tag show_float show_double t name p
                 = Utility.Raised Utility.unknown_tag_class p').
Proof.
  intros Hp. pose proof (print_tag_outcome show_float show_double t name p Hp) as H.
  destruct (Utility.printable t).
  - split; [intros _ | discriminate]. destruct H as (p' & H & _). eauto.
  - split; [discriminate | intros _; exact H].
Qed.

Lemma print_tag_succeeds_iff_printable_witness :
  exists p',
    Utility.print_tag (fun _ => EmptyString) (fun _ => EmptyString)
      (CompoundTag [({| data := [byte_of_Z 120] |}, ListTag T_ByteTag [])]) None
      {| Utility.m_stream := EmptyString; Utility.m_indent_count := 0;
         Utility.m_indent := "    " |}
    = Utility.Raised Utility.unknown_tag_class p'.
Proof.
  destruct (print_tag_succeeds_iff_printable (fun _ => EmptyString) (fun _ => EmptyString)
              (CompoundTag [({| data := [byte_of_Z 120] |}, ListTag T_ByteTag [])]) None
              {| Utility.m_stream := EmptyString; Utility.m_indent_count := 0;
                 Utility.m_indent := "    " |}) as [_ H].
  - unfold in_range. simpl. lia.
  - apply H. reflexivity.
Defined.

(** X14. When [print_tag] succeeds it has only appended to the stream, and
    the indentation count and the indent string are what they were before
    the call. *)
Theorem print_tag_appends (show_float show_double : list byte -> string)
    (t : Tag) (name : option Utf8String) (p p' : Utility.PrettyPrinter) :
  in_range uint32_t (Utility.m_indent_count p) ->
  Utility.print_tag show_float show_double t name p = Utility.Printed tt p' ->
  Utility.m_indent_count p' = Utility.m_indent_count p
  /\ Utility.m_indent p' = Utility.m_indent p
  /\ exists out, Utility.m_stream p' = (Utility.m_stream p ++ out)%string.
Proof.
  intros Hp H. pose proof (print_tag_outcome show_float show_double t name p Hp) as Ho.
  destruct (Utility.printable t).
  - destruct Ho as (p1 & E & Hext). rewrite H in E. injection E as <-. exact Hext.
  - destruct Ho as (p1 & E). rewrite H in E. discriminate.
Qed.

Lemma print_tag_appends_witness :
  exists out,
    ("TAG_Compound: 1 entries" ++ Utility.newline ++ "{" ++ Utility.newline
     ++ "    TAG_Short(" ++ dquote ++ "x" ++ dquote ++ "): -7" ++ Utility.newline
     ++ "}" ++ Utility.newline)%string
    = ("" ++ out)%string.
Proof.
  destruct (print_tag_appends (fun _ => EmptyString) (fun _ => EmptyString)
              (CompoundTag [({| data := [byte_of_Z 120] |}, ShortTag (-7))]) None
              {| Utility.m_stream := EmptyString; Utility.m_indent_count := 0;
                 Utility.m_indent := "    " |}
              {| Utility.m_stream :=
                   ("TAG_Compound: 1 entries" ++ Utility.newline ++ "{" ++ Utility.newline
                    ++ "    TAG_Short(" ++ dquote ++ "x" ++ dquote ++ "): -7"
                    ++ Utility.newline ++ "}" ++ Utility.newline)%string;
                 Utility.m_indent_count := 0;
                 Utility.m_indent := "    " |}) as (_ & _ & H).
  - unfold in_range. simpl. lia.
  - vm_compute. reflexivity.
  - exact H.
Defined.



(** ** The pretty printer with lists *)

Section PrinterLists.

Import Utility.
Import UtilityLists.

Variable show_float : list byte -> string.
Variable show_double : list byte -> string.

Ltac run_appending' lem :=
  match goal with
  | |- context [seq ?m ?k ?p] =>
      let p' := fresh "p" in
      let H := fresh "Hext" in
      let E := fresh "E" in
      destruct (seq_run m k p lem) as (p' & H & E); rewrite E; clear E
  end.

(** The braces, the indentation and the loop between them, as
    [print_list_specific_tag] and [print_compound_tag] write them. *)
Lemma braces_outcome (ok : bool) (loop : P unit) :
  loop_outcome ok loop ->
  loop_outcome ok
    (print_indent ;;;
     write ("{" ++ newline) ;;;
     set_indent_count (fun c => cast uint32_t (c + 1)) ;;;
     loop ;;;
     set_indent_count (fun c => cast uint32_t (c - 1)) ;;;
     print_indent ;;;
     write ("}" ++ newline)).
Proof.
  intros Hloop p Hp.
  assert (Hgoal : forall R : printed unit -> Prop,
             (forall p5, extends p p5 ->
                R ((set_indent_count (fun c => cast uint32_t (c + 1)) ;;;
                    loop ;;;
                    set_indent_count (fun c => cast uint32_t (c - 1)) ;;;
                    print_indent ;;;
                    write ("}" ++ newline)) p5)) ->
             R ((print_indent ;;;
                 write ("{" ++ newline) ;;;
                 set_indent_count (fun c => cast uint32_t (c + 1)) ;;;
                 loop ;;;
                 set_indent_count (fun c => cast uint32_t (c - 1)) ;;;
                 print_indent ;;;
                 write ("}" ++ newline)) p)).
  { intros R HR.
    run_appending' appends_print_indent.
    run_appending' (appends_write ("{" ++ newline)).
    apply HR. eapply extends_trans; eassumption. }
  pose proof (fun p7 H7 => Hloop p7 H7) as Hl.
  destruct ok.
  - apply (Hgoal (fun r => exists p', r = Printed tt p' /\ extends p p')).
    intros p5 H05. rewrite seq_set_indent_count.
    set (p7 := {| m_stream := m_stream p5;
                  m_indent_count := cast uint32_t (m_indent_count p5 + 1);
                  m_indent := m_indent p5 |}).
    destruct (Hl p7 (cast_in_range uint32_t _)) as (p8 & E8 & H8).
    rewrite (seq_printed _ _ _ _ E8), seq_set_indent_count.
    set (p9 := {| m_stream := m_stream p8;
                  m_indent_count := cast uint32_t (m_indent_count p8 - 1);
                  m_indent := m_indent p8 |}).
    assert (H59 : extends p5 p9).
    { destruct H8 as (Hc & Hi & out & Ho). destruct H05 as (Hc5 & _).
      unfold p9, p7 in *. cbn [m_stream m_indent_count m_indent] in *.
      split; [|split; [exact Hi | exists out; exact Ho]].
      cbn [m_indent_count]. rewrite Hc. apply indent_count_restored. rewrite Hc5. exact Hp. }
    destruct (seq_run print_indent (write ("}" ++ newline)) p9 appends_print_indent)
      as (p10 & H10 & ->).
    destruct (appends_write ("}" ++ newline) p10) as (p11 & -> & H11).
    exists p11. split; [reflexivity|].
    eapply extends_trans; [exact H05|]. eapply extends_trans; [exact H59|].
    eapply extends_trans; eassumption.
  - apply (Hgoal (fun r => exists x p', r = Raised x p' /\ raises x)).
    intros p5 H05. rewrite seq_set_indent_count.
    set (p7 := {| m_stream := m_stream p5;
                  m_indent_count := cast uint32_t (m_indent_count p5 + 1);
                  m_indent := m_indent p5 |}).
    destruct (Hl p7 (cast_in_range uint32_t _)) as (x & p8 & E8 & Hx).
    exists x, p8. split; [apply seq_raised; exact E8 | exact Hx].
Qed.

(** An appending action in front of a loop. *)
Lemma seq_outcome (ok : bool) (m k : P unit) :
  appends m -> loop_outcome ok k -> loop_outcome ok (m ;;; k).
Proof.
  intros Hm Hk p Hp. destruct (seq_run m k p Hm) as (p1 & H1 & ->).
  assert (Hp1 : in_range uint32_t (m_indent_count p1)) by (destruct H1 as [-> _]; exact Hp).
  specialize (Hk p1 Hp1). destruct ok.
  - destruct Hk as (p2 & E & H2). exists p2. split; [exact E|].
    eapply extends_trans; eassumption.
  - exact Hk.
Qed.

Lemma appends_outcome (m : P unit) : appends m -> loop_outcome true m.
Proof. intros Hm p _. apply Hm. Qed.

Lemma print_elements_outcome (vs : list Tag) :
  Forall (print_outcome show_float show_double) vs ->
  loop_outcome (forallb printable vs) (print_elements (print_tag show_float show_double) vs).
Proof.
  induction 1 as [|v vs Hv _ IH]; intros p Hp.
  - exists p. split; [reflexivity | apply extends_refl].
  - specialize (Hv None p Hp). cbn [forallb print_elements].
    destruct (printable v); cbn [andb].
    + destruct Hv as (p1 & E1 & H1). rewrite (seq_printed _ _ _ _ E1).
      assert (Hp1 : in_range uint32_t (m_indent_count p1)) by (destruct H1 as [-> _]; exact Hp).
      specialize (IH p1 Hp1).
      destruct (forallb printable vs).
      * destruct IH as (p2 & E & H2). exists p2.
        split; [exact E | eapply extends_trans; eassumption].
      * exact IH.
    + destruct Hv as (x & p1 & E1 & Hx). exists x, p1.
      split; [apply seq_raised; exact E1 | exact Hx].
Qed.

Lemma print_entries_outcome' (es : list (Utf8String * Tag)) :
  Forall (fun e => print_outcome show_float show_double (snd e)) es ->
  loop_outcome (forallb (fun entry => printable (snd entry)) es)
    (print_entries (print_tag show_float show_double) es).
Proof.
  induction 1 as [|e es He _ IH]; intros p Hp.
  - exists p. split; [reflexivity | apply extends_refl].
  - specialize (He (Some (fst e)) p Hp). cbn [forallb print_entries].
    destruct (printable (snd e)); cbn [andb].
    + destruct He as (p1 & E1 & H1). rewrite (seq_printed _ _ _ _ E1).
      assert (Hp1 : in_range uint32_t (m_indent_count p1)) by (destruct H1 as [-> _]; exact Hp).
      specialize (IH p1 Hp1).
      destruct (forallb (fun entry => printable (snd entry)) es).
      * destruct IH as (p2 & E & H2). exists p2.
        split; [exact E | eapply extends_trans; eassumption].
      * exact IH.
    + destruct He as (x & p1 & E1 & Hx). exists x, p1.
      split; [apply seq_raised; exact E1 | exact Hx].
Qed.

Lemma print_tag_lists_outcome (t : Tag) : print_outcome show_float show_double t.
Proof.
  induction t as [| | | | | | | |T vs IH|es IH|] using Tag_nested_ind;
    intros name p Hp; cbn [printable print_tag];
    try (apply appends_print_simple_tag); try (apply appends_print_string_tag).
  - revert p Hp. apply appends_outcome. unfold print_byte_array_tag.
    repeat first [ apply appends_print_preamble | apply appends_write | apply appends_seq ].
  - unfold print_list_tag. destruct (INNER_LIST_TRY_TYPE T) as [i|].
    + revert p Hp. change (loop_outcome (forallb printable vs)
                             (print_list_specific_tag (print_tag show_float show_double)
                                (TagNameLookup i) vs name)).
      unfold print_list_specific_tag.
      apply seq_outcome; [apply appends_print_preamble|].
      repeat (apply seq_outcome; [apply appends_write|]).
      apply braces_outcome, print_elements_outcome, IH.
    + exists unknown_list_type, p. split; [reflexivity | right; reflexivity].
  - revert p Hp. change (loop_outcome (forallb (fun entry => printable (snd entry)) es)
                           (print_compound_tag (print_tag show_float show_double) es name)).
    unfold print_compound_tag.
    apply seq_outcome; [apply appends_print_preamble|].
    repeat (apply seq_outcome; [apply appends_write|]).
    apply braces_outcome, print_entries_outcome', IH.
  - exists unknown_tag_type, p. split; [reflexivity | left; reflexivity].
Qed.

End PrinterLists.

(** X17. What [read_nbt] returns and the version of the printer that
    handles lists: [pretty_print] of a tree that [read_nbt] returned
    succeeds, only appending to the stream, exactly when the tree holds no
    IntArray, no list of lists and no list of byte arrays; on any other such
    tree it throws one of its two [runtime_error]s. *)
Theorem print_tag_lists_succeeds_iff_printable {host : Host}
    (show_float show_double : list byte -> string)
    (fuel : nat) (s : MemoryInputStream) (root_tag : RootTag) (s' : MemoryInputStream)
    (t : Tag) (os : string) :
  read_nbt fuel s = Some (Ok root_tag s') ->
  tag root_tag = Some t ->
  (UtilityLists.printable t = true ->
   exists out p',
     UtilityLists.pretty_print show_float show_double os root_tag = Utility.Printed tt p'
     /\ Utility.m_stream p' = (os ++ out)%string)
  /\ (UtilityLists.printable t = false ->
      exists x p',
        UtilityLists.pretty_print show_float show_double os root_tag = Utility.Raised x p'
        /\ (x = UtilityLists.unknown_tag_type \/ x = UtilityLists.unknown_list_type)).
Proof.
  intros _ Ht.
  unfold UtilityLists.pretty_print, UtilityLists.PrettyPrinter_pretty_print. rewrite Ht.
  pose proof (print_tag_lists_outcome show_float show_double t (Some (name root_tag))
                {| Utility.m_stream := os; Utility.m_indent_count := 0;
                   Utility.m_indent := "    " |}) as H.
  assert (Hr : in_range uint32_t 0) by (unfold in_range; simpl; lia).
  specialize (H Hr).
  destruct (UtilityLists.printable t).
  - split; [intros _ | discriminate]. destruct H as (p' & E & _ & _ & out & Hout).
    exists out, p'. split; [exact E | exact Hout].
  - split; [discriminate | intros _; exact H].
Qed.

Lemma print_tag_lists_succeeds_iff_printable_witness :
  exists out p',
    UtilityLists.pretty_print (fun _ => EmptyString) (fun _ => EmptyString) EmptyString
      {| name := {| data := [] |}; tag := Some (ListTag T_ShortTag [ShortTag 1; ShortTag 2]) |}
    = Utility.Printed tt p'
    /\ Utility.m_stream p' = ("" ++ out)%string.
Proof.
  destruct (print_tag_lists_succeeds_iff_printable (host := small_host)
              (fun _ => EmptyString) (fun _ => EmptyString) 64
              (stream_of [9; 0; 0; 2; 0; 0; 0; 2; 0; 1; 0; 2])
              {| name := {| data := [] |};
                 tag := Some (ListTag T_ShortTag [ShortTag 1; ShortTag 2]) |}
              (skip 12 (stream_of [9; 0; 0; 2; 0; 0; 0; 2; 0; 1; 0; 2]))
              (ListTag T_ShortTag [ShortTag 1; ShortTag 2]) EmptyString) as [H _].
  - vm_compute. reflexivity.
  - reflexivity.
  - apply H. reflexivity.
Defined.

(** X18. A non-empty list of lists, or of byte arrays, that [read_nbt]
    returns as the root cannot be printed: the reader builds it as a
    [ListTag<Tag>] or a [ListTag<ByteArrayTag>], none of the types
    [print_list_tag] tries, so [pretty_print] throws with nothing written. *)
Theorem pretty_print_list_of_lists {host : Host} (show_float show_double : list byte -> string)
    (fuel : nat) (s : MemoryInputStream) (root_tag : RootTag) (s' : MemoryInputStream)
    (T : TagClass) (v : Tag) (vs : list Tag) (os : string) :
  read_nbt fuel s = Some (Ok root_tag s') ->
  tag root_tag = Some (ListTag T (v :: vs)) ->
  kind_of v = TAG_TYPE_LIST \/ kind_of v = TAG_TYPE_BYTE_ARRAY ->
  UtilityLists.pretty_print show_float show_double os root_tag
  = Utility.Raised UtilityLists.unknown_list_type
      {| Utility.m_stream := os; Utility.m_indent_count := 0; Utility.m_indent := "    " |}.
Proof.
  intros H Ht Hv. pose proof (read_nbt_wf fuel s) as Hwf. rewrite H in Hwf.
  destruct Hwf as [[_ Hwf] _]. destruct (Hwf _ Ht) as [_ [[_ [[Hclass _] _]] _]].
  unfold UtilityLists.pretty_print, UtilityLists.PrettyPrinter_pretty_print. rewrite Ht.
  unfold elem_of_class in Hclass.
  assert (HT : T = T_Tag \/ T = T_ByteArrayTag).
  { destruct Hv as [Hk|Hk]; rewrite Hk in Hclass; destruct T; try discriminate Hclass; auto. }
  destruct HT as [-> | ->]; reflexivity.
Qed.

Lemma pretty_print_list_of_lists_witness :
  UtilityLists.pretty_print (fun _ => EmptyString) (fun _ => EmptyString) EmptyString
    {| name := {| data := [] |}; tag := Some (ListTag T_Tag [ListTag T_ByteTag []]) |}
  = Utility.Raised UtilityLists.unknown_list_type
      {| Utility.m_stream := EmptyString; Utility.m_indent_count := 0;
         Utility.m_indent := "    " |}.
Proof.
  apply (pretty_print_list_of_lists (host := small_host) (fun _ => EmptyString)
           (fun _ => EmptyString) 64
           (stream_of [9; 0; 0; 9; 0; 0; 0; 1; 1; 0; 0; 0; 0])
           {| name := {| data := [] |}; tag := Some (ListTag T_Tag [ListTag T_ByteTag []]) |}
           (skip 13 (stream_of [9; 0; 0; 9; 0; 0; 0; 1; 1; 0; 0; 0; 0]))
           T_Tag (ListTag T_ByteTag []) [] EmptyString).
  - vm_compute. reflexivity.
  - reflexivity.
  - left. reflexivity.
Defined.
